(** * Ink overlay: stroke geometry, erasing engine, renderer, metadata
      synchronizer and pointer session of [src/index.ts]

    JavaScript numbers are IEEE-754 binary64 values; they are embedded as
    Rocq's primitive [float], so every arithmetic step and every comparison
    below rounds and treats NaN exactly as the TypeScript does. *)

From Stdlib Require Import List Bool Arith ZArith Lia String Floats.
Import ListNotations.

Set Warnings "-inexact-float,-register-all".
Local Open Scope float_scope.

(** ** JavaScript number helpers *)

Module JS.

Definition is_neg_zero (x : float) : bool :=
  match classify x with NZero => true | _ => false end.

Definition is_pos_zero (x : float) : bool :=
  match classify x with PZero => true | _ => false end.

(** [ToBoolean] on a number: [0], [-0] and [NaN] are falsy. *)
Definition truthy (x : float) : bool := negb (x =? 0) && negb (is_nan x).

(** [a || b] on numbers. *)
Definition or_else (a b : float) : float := if truthy a then a else b.

(** [a ?? b] where [None] stands for [undefined]/[null]. *)
Definition nullish {A : Type} (a : option A) (b : A) : A :=
  match a with Some v => v | None => b end.

(** A field read where the code tells [undefined] (the field is absent)
    from [null]. *)
Inductive Nullable (A : Type) : Type :=
| Undefined
| Null
| Value (a : A).

Arguments Undefined {A}.
Arguments Null {A}.
Arguments Value {A} a.

(** [a ?? b] on such a field. *)
Definition coalesce {A : Type} (a : Nullable A) (b : A) : A :=
  match a with
  | Value v => v
  | Undefined | Null => b
  end.

(** [ToNumber], as applied to the operands of [*]: [undefined] is NaN and
    [null] is [+0]. *)
Definition ToNumber (a : Nullable float) : float :=
  match a with
  | Value x => x
  | Null => 0
  | Undefined => nan
  end.

(** One iteration of ECMAScript's [Math.min]: a NaN argument makes the
    result NaN, and [-0] is lower than [+0]. *)
Definition min_step (lowest number : float) : float :=
  if is_nan lowest then nan
  else if is_nan number then nan
  else if is_neg_zero number && is_pos_zero lowest then number
  else if number <? lowest then number
  else lowest.

(** [Math.min(...xs)]; [Math.min()] is [+Infinity]. *)
Definition Math_min (xs : list float) : float :=
  fold_left min_step xs infinity.

Definition max_step (highest number : float) : float :=
  if is_nan highest then nan
  else if is_nan number then nan
  else if is_pos_zero number && is_neg_zero highest then number
  else if highest <? number then number
  else highest.

(** [Math.max(...xs)]; [Math.max()] is [-Infinity]. *)
Definition Math_max (xs : list float) : float :=
  fold_left max_step xs neg_infinity.

End JS.

(** ** Data model *)

Inductive ToolMode := pen | highlighter.

(** [[number, number]] *)
Definition Point : Type := float * float.

Module StrokeBasis.
Record t := mk {
  width : float;
  height : float;
  minY : float;
  maxY : float;
  anchorLine : option float;
  anchorLineTop : option float
}.
End StrokeBasis.

(** A stroke as it is read back from metadata: the code itself guards
    against a missing [width] ([??]) and a missing [points] array
    ([Array.isArray]), hence the options on top of the declared type.  A
    missing [width] is [undefined] or [null]: the eraser's [??] treats them
    alike, the renderer's [s.width * actualWidth] does not. *)
Module Stroke.
Record t := mk {
  tool : ToolMode;
  width : JS.Nullable float;
  color : string;
  alpha : option float;
  points : option (list Point);
  basis : option StrokeBasis.t
}.
End Stroke.

(** [OverlayMeta = { strokes?: Stroke[]; [key: string]: unknown }]; the
    other entries are carried along as opaque text. *)
Record OverlayMeta := {
  strokes : option (list Stroke.t);
  others : list (string * string)
}.

Definition META_KEY : string := "overlay_v1".
Definition BASE_ERASER_RADIUS : float := 0.015.

(** ** Geometry primitives *)

Definition distanceSquared (a b : Point) : float :=
  let dx := fst a - fst b in
  let dy := snd a - snd b in
  dx * dx + dy * dy.

Definition pointToSegmentDistanceSquared (p a b : Point) : float :=
  if (fst a =? fst b) && (snd a =? snd b) then distanceSquared p a
  else
    let vx := fst b - fst a in
    let vy := snd b - snd a in
    let wx := fst p - fst a in
    let wy := snd p - snd a in
    let c1 := vx * wx + vy * wy in
    let c2 := vx * vx + vy * vy in
    let t := JS.Math_max [0; JS.Math_min [1; c1 / c2]] in
    let proj : Point := (fst a + t * vx, snd a + t * vy) in
    distanceSquared p proj.

Definition segmentDistanceSquared (a1 a2 b1 b2 : Point) : float :=
  JS.Math_min
    [ pointToSegmentDistanceSquared a1 b1 b2;
      pointToSegmentDistanceSquared a2 b1 b2;
      pointToSegmentDistanceSquared b1 a1 a2;
      pointToSegmentDistanceSquared b2 a1 a2 ].

(** ** Runs of kept points, in the words of the specification

    [runs keep cross pts] groups the kept points of [pts] into maximal runs
    of consecutive kept points, and breaks a run between two consecutive
    kept points [p], [q] when [cross p q]; [touched] tells whether some
    point is removed or some run is so broken. *)

Section Runs.

Context {A : Type}.
Variable keep : A -> bool.
Variable cross : A -> A -> bool.

Fixpoint runs (pts : list A) : list (list A) :=
  match pts with
  | [] => []
  | p :: rest =>
      if keep p then
        match rest with
        | q :: _ =>
            if keep q && negb (cross p q) then
              match runs rest with
              | r :: rs => (p :: r) :: rs
              | [] => [[p]]
              end
            else [p] :: runs rest
        | [] => [[p]]
        end
      else runs rest
  end.

Fixpoint touched (pts : list A) : bool :=
  match pts with
  | [] => false
  | p :: rest =>
      negb (keep p)
      || match rest with
         | q :: _ => keep q && cross p q
         | [] => false
         end
      || touched rest
  end.

End Runs.

(** A run long enough to persist as a stroke. *)
Definition long {A : Type} (run : list A) : bool := (1 <? List.length run)%nat.

(** Exponent first, then mantissa: the order [SFcompare] puts on two finite
    binary64 values of one sign. *)
Definition lexcmp (e1 : Z) (m1 : positive) (e2 : Z) (m2 : positive)
  : comparison :=
  match Z.compare e1 e2 with
  | Lt => Lt
  | Gt => Gt
  | Eq => Pos.compare_cont Eq m1 m2
  end.

(** ** Eraser engine *)

Module Eraser.

Definition radiusForStroke (stroke : Stroke.t) : float :=
  let width := JS.coalesce (Stroke.width stroke) 0.003 in
  JS.Math_max [BASE_ERASER_RADIUS; width * 6].

(** [Array.isArray(stroke.points) ? stroke.points : []] *)
Definition ptsOf (stroke : Stroke.t) : list Point :=
  match Stroke.points stroke with Some pts => pts | None => [] end.

Section PerEvent.

(** One erase event: the contact point and the optional previous one. *)
Variable point : Point.
Variable previous : option Point.

Definition pointerSegment : option (Point * Point) :=
  match previous with Some prev => Some (prev, point) | None => None end.

Section PerStroke.

Variable radiusSq : float.

Definition keepPoint (pt : Point) : bool :=
  if distanceSquared pt point <=? radiusSq then false
  else if match previous with
          | Some prev => distanceSquared pt prev <=? radiusSq
          | None => false
          end then false
  else if match pointerSegment with
          | Some seg =>
              pointToSegmentDistanceSquared pt (fst seg) (snd seg) <=? radiusSq
          | None => false
          end then false
  else true.

(** The [crosses] test between the last point of the current run and
    the next kept point. *)
Definition crosses (prevPt pt : Point) : bool :=
  match pointerSegment with
  | Some seg =>
      segmentDistanceSquared prevPt pt (fst seg) (snd seg) <=? radiusSq
  | None => false
  end.

(** The three locals the [forEach] callback updates. *)
Record Split := mkSplit {
  newSegments : list (list Point);
  currentSegment : list Point;
  strokeModified : bool
}.

(** [if (currentSegment.length > 1) newSegments.push(currentSegment)] *)
Definition flush (segs : list (list Point)) (cur : list Point)
  : list (list Point) :=
  if (1 <? List.length cur)%nat then segs ++ [cur] else segs.

(** Body of [pts.forEach(pt => ...)]. *)
Definition visit (st : Split) (pt : Point) : Split :=
  let keep := keepPoint pt in
  if negb keep then
    mkSplit (flush (newSegments st) (currentSegment st)) [] true
  else
    match currentSegment st with
    | [] => mkSplit (newSegments st) [pt] (strokeModified st)
    | _ :: _ =>
        let prevPt := last (currentSegment st) pt in
        if crosses prevPt pt then
          mkSplit (flush (newSegments st) (currentSegment st)) [pt] true
        else
          mkSplit (newSegments st) (currentSegment st ++ [pt])
                  (strokeModified st)
    end.

(** The loop over the points followed by the final flush. *)
Definition split (pts : list Point) : list (list Point) * bool :=
  let st := fold_left visit pts (mkSplit [] [] false) in
  (flush (newSegments st) (currentSegment st), strokeModified st).

End PerStroke.

(** [{ ...stroke.basis, minY: Math.min(...ys), maxY: Math.max(...ys) }] *)
Definition segBasis (stroke : Stroke.t) (segment : list Point)
  : option StrokeBasis.t :=
  match Stroke.basis stroke with
  | Some b =>
      Some (StrokeBasis.mk
              (StrokeBasis.width b) (StrokeBasis.height b)
              (JS.Math_min (map snd segment))
              (JS.Math_max (map snd segment))
              (StrokeBasis.anchorLine b) (StrokeBasis.anchorLineTop b))
  | None => None
  end.

(** [{ ...stroke, points: segment, basis: segBasis }] *)
Definition strokeOfSegment (stroke : Stroke.t) (segment : list Point)
  : Stroke.t :=
  Stroke.mk (Stroke.tool stroke) (Stroke.width stroke)
            (Stroke.color stroke) (Stroke.alpha stroke)
            (Some segment) (segBasis stroke segment).

(** One iteration of [for (const stroke of strokes)]: the strokes pushed
    onto [nextStrokes] and whether [modified] is set. *)
Definition eraseStroke (stroke : Stroke.t) : list Stroke.t * bool :=
  let pts := ptsOf stroke in
  if (List.length pts =? 0)%nat then ([stroke], false)
  else
    let radius := radiusForStroke stroke in
    let radiusSq := radius * radius in
    let (newSegs, strokeMod) := split radiusSq pts in
    if negb strokeMod then ([stroke], false)
    else if (List.length newSegs =? 0)%nat then ([], true)
    else
      ( map (strokeOfSegment stroke)
            (filter (fun segment => negb (List.length segment <? 2)%nat)
                    newSegs),
        true ).

(** The whole loop: [nextStrokes] and [modified]. *)
Definition eraseStrokes (strokes : list Stroke.t) : list Stroke.t * bool :=
  fold_left
    (fun (acc : list Stroke.t * bool) stroke =>
       let (out, m) := eraseStroke stroke in
       (fst acc ++ out, snd acc || m))
    strokes ([], false).

End PerEvent.

End Eraser.

(** ** Renderer *)

Module Renderer.

(** What [drawStroke] reads from the page: the canvas client size, the
    cell editor (absent for a cell without one) as the map from a line
    number to the [top] of [getCoordinateForPosition({line, column: 0})]
    ([None] when no coordinate is returned), and the top of the content
    rectangle. *)
Record Env := mkEnv {
  clientWidth : float;
  clientHeight : float;
  editor : option (float -> option float);
  contentTop : float
}.

Inductive PathOp :=
| moveTo (x y : float)
| lineTo (x y : float).

(** The values [drawStroke] assigns to the 2D context and the path it
    traces between [beginPath] and [stroke]. *)
Record Drawing := mkDrawing {
  globalAlpha : float;
  lineWidth : float;
  strokeStyle : string;
  path : list PathOp
}.

(** Where a path operation lands. *)
Definition endpoint (op : PathOp) : float * float :=
  match op with
  | moveTo x y => (x, y)
  | lineTo x y => (x, y)
  end.

Section Draw.

Variable env : Env.
Variable s : Stroke.t.

Definition W : float := JS.or_else (clientWidth env) 1.
Definition H : float := JS.or_else (clientHeight env) 1.

(** [s.basis?.width && s.basis.width > 0 ? s.basis.width : W] *)
Definition basisWidth : float :=
  match Stroke.basis s with
  | Some b =>
      if JS.truthy (StrokeBasis.width b) && (0 <? StrokeBasis.width b)
      then StrokeBasis.width b else W
  | None => W
  end.

Definition basisHeight : float :=
  match Stroke.basis s with
  | Some b =>
      if JS.truthy (StrokeBasis.height b) && (0 <? StrokeBasis.height b)
      then StrokeBasis.height b else H
  | None => H
  end.

Definition actualWidth : float := basisWidth.
Definition actualHeight : float := basisHeight.

Definition anchorLine : option float :=
  match Stroke.basis s with
  | Some b => StrokeBasis.anchorLine b
  | None => None
  end.

Definition anchorLineTopNorm : option float :=
  match Stroke.basis s with
  | Some b => StrokeBasis.anchorLineTop b
  | None => None
  end.

Definition deltaY : float :=
  match anchorLine, anchorLineTopNorm, editor env with
  | Some line, Some topNorm, Some getCoordinateForPosition =>
      if actualHeight <=? H then
        match getCoordinateForPosition line with
        | Some lineTop =>
            let newTop := lineTop - contentTop env in
            let originalTop := topNorm * actualHeight in
            newTop - originalTop
        | None => 0
        end
      else 0
  | _, _, _ => 0
  end.

(** [s.tool === 'highlighter' ? (s.alpha ?? 0.3) : 1] *)
Definition alphaOf : float :=
  match Stroke.tool s with
  | highlighter => JS.nullish (Stroke.alpha s) 0.3
  | pen => 1
  end.

(** [s.width * actualWidth]: a width that is [undefined] multiplies to
    NaN, a width that is [null] counts as [0]. *)
Definition lineWidthOf : float :=
  JS.ToNumber (Stroke.width s) * actualWidth.

Definition pixel (pt : Point) : float * float :=
  (fst pt * actualWidth, snd pt * actualHeight + deltaY).

(** [i ? ctx.lineTo(x, y) : ctx.moveTo(x, y)] *)
Definition pathOf (pts : list Point) : list PathOp :=
  match pts with
  | [] => []
  | p0 :: rest =>
      moveTo (fst (pixel p0)) (snd (pixel p0))
      :: map (fun p => lineTo (fst (pixel p)) (snd (pixel p))) rest
  end.

(** [s.points.forEach] is called without a guard: a stroke without a
    [points] array makes [drawStroke] throw, which is [None] here. *)
Definition drawStroke : option Drawing :=
  match Stroke.points s with
  | Some pts =>
      Some (mkDrawing alphaOf lineWidthOf (Stroke.color s) (pathOf pts))
  | None => None
  end.

End Draw.

(** The stroke the [pointerdown] handler starts in draw mode. *)
Definition beginStroke (env : Env) (tool : ToolMode) (widthNorm : float)
           (color : string) (firstPoint : Point) : Stroke.t :=
  Stroke.mk tool (JS.Value widthNorm) color
    (Some (match tool with highlighter => 0.3 | pen => 1 end))
    (Some [firstPoint])
    (Some (StrokeBasis.mk
             (JS.or_else (clientWidth env) 1)
             (JS.or_else (clientHeight env) 1)
             (snd firstPoint) (snd firstPoint) None None)).

End Renderer.

(** ** The cell seen by the eraser and by change notifications

    Typed view of the metadata entry under [META_KEY]: cloning keeps the
    content, so on contents [readMeta] is a lookup with a default and
    [writeMeta] a replacement.  Writes and redraws are recorded in a trace. *)

Module Overlay.

Inductive Effect :=
| EWrite (payload : OverlayMeta)
| ERedraw.

(** [metadata] is the entry under [META_KEY], [None] when it is absent or
    not an object; [settable] tells whether the shared model or the cell
    model offers [setMetadata]. *)
Record Cell := mkCell {
  metadata : option OverlayMeta;
  settable : bool;
  trace : list Effect
}.

Definition readMeta (c : Cell) : OverlayMeta :=
  match metadata c with
  | Some value => value
  | None => {| strokes := Some []; others := [] |}
  end.

Definition writeMeta (value : OverlayMeta) (c : Cell) : Cell :=
  if settable c then mkCell (Some value) true (trace c ++ [EWrite value])
  else c.

Definition redraw (c : Cell) : Cell :=
  mkCell (metadata c) (settable c) (trace c ++ [ERedraw]).

(** [Array.isArray(meta.strokes) ? meta.strokes : []] *)
Definition strokesOf (meta : OverlayMeta) : list Stroke.t :=
  match strokes meta with Some l => l | None => [] end.

Definition eraseWithPointer (point : Point) (previous : option Point)
           (c : Cell) : Cell :=
  let meta := readMeta c in
  let strokes := strokesOf meta in
  let (nextStrokes, modified) := Eraser.eraseStrokes point previous strokes in
  if modified then
    redraw (writeMeta {| strokes := Some nextStrokes; others := others meta |} c)
  else c.

(** *** Change notifications *)

(** A field value of a notification object. *)
Inductive Atom :=
| AUndefined
| ANull
| ABool (b : bool)
| ANumber (x : float)
| AString (s : string).

(** The [change] argument of [onMetadataChanged]: a primitive (or
    [null]/[undefined]), a function, or an object with its properties. *)
Inductive Change :=
| ChangePrimitive (a : Atom)
| ChangeFunction
| ChangeObject (props : list (string * Atom)).

Fixpoint lookup (k : string) (props : list (string * Atom)) : option Atom :=
  match props with
  | [] => None
  | (k', v) :: rest => if String.eqb k k' then Some v else lookup k rest
  end.

(** [k in change] *)
Definition has (k : string) (props : list (string * Atom)) : bool :=
  match lookup k props with Some _ => true | None => false end.

(** [change[k] === META_KEY] *)
Definition isMetaKey (k : string) (props : list (string * Atom)) : bool :=
  match lookup k props with
  | Some (AString s) => String.eqb s META_KEY
  | _ => false
  end.

Definition onMetadataChanged (change : Change) (c : Cell) : Cell :=
  match change with
  | ChangePrimitive _ | ChangeFunction => redraw c
  | ChangeObject props =>
      if has "key" props then
        if isMetaKey "key" props then redraw c else c
      else if has "name" props && isMetaKey "name" props then redraw c
      else c
  end.

End Overlay.

(** ** Metadata synchronizer: reading with object identities

    [readMeta] promises a copy that shares no object with the store, so
    values are modelled here with the identity of every object they hold.
    Metadata is plain data: a tree of arrays and objects. *)

Module Synchronizer.

Inductive JSValue :=
| JUndefined
| JNull
| JBool (b : bool)
| JNumber (x : float)
| JString (s : string)
| JBigInt (z : Z)
| JFunction (id : nat)
| JArray (id : nat) (elems : list JSValue)
| JObject (id : nat) (keys : list string) (vals : list JSValue).

(** The identities of the objects a value holds. *)
Fixpoint ids (v : JSValue) : list nat :=
  match v with
  | JFunction id => [id]
  | JArray id elems => id :: flat_map ids elems
  | JObject id _ vals => id :: flat_map ids vals
  | _ => []
  end.

Fixpoint relabel (f : nat -> nat) (v : JSValue) : JSValue :=
  match v with
  | JFunction id => JFunction (f id)
  | JArray id elems => JArray (f id) (map (relabel f) elems)
  | JObject id keys vals => JObject (f id) keys (map (relabel f) vals)
  | _ => v
  end.

(** A value without its identities: two values with the same content are
    deeply equal. *)
Definition content (v : JSValue) : JSValue := relabel (fun _ => 0%nat) v.

(** What [v] looks like after the object [target] has been mutated in
    place into [f] of itself. *)
Fixpoint mutate (target : nat) (f : JSValue -> JSValue) (v : JSValue)
  : JSValue :=
  match v with
  | JFunction id => if (id =? target)%nat then f v else v
  | JArray id elems =>
      if (id =? target)%nat then f v
      else JArray id (map (mutate target f) elems)
  | JObject id keys vals =>
      if (id =? target)%nat then f v
      else JObject id keys (map (mutate target f) vals)
  | _ => v
  end.

(** [value && typeof value === 'object'] *)
Definition isObject (v : JSValue) : bool :=
  match v with
  | JArray _ _ | JObject _ _ _ => true
  | _ => false
  end.

(** A model object: [getMetadata] is [None] when it is not a function;
    otherwise it maps a key to the stored value, [JUndefined] when the key
    is absent. *)
Record Model := mkModel {
  getMetadata : option (string -> JSValue)
}.

(** [cell.model] and [cell.model?.sharedModel ?? null]. *)
Record CellRef := mkCellRef {
  model : Model;
  sharedModel : option Model
}.

Section Host.

(** The host's [structuredClone], [None] when the global is not a
    function, and [JSON.parse(JSON.stringify(input))]; a call that
    throws yields [None]. *)
Variable structuredClone : option (JSValue -> option JSValue).
Variable JSON_parse_stringify : JSValue -> option JSValue.

(** The identity the next allocated object receives. *)
Variable nextId : nat.

Definition cloneOverlay (input : JSValue) : JSValue :=
  let viaJSON :=
    match JSON_parse_stringify input with
    | Some copy => copy
    | None => input
    end in
  match structuredClone with
  | Some clone =>
      match clone input with
      | Some copy => copy
      | None => viaJSON
      end
  | None => viaJSON
  end.

(** The literal [{ strokes: [] }]. *)
Definition emptyOverlay : JSValue :=
  JObject nextId ["strokes"%string] [JArray (S nextId) []].

Definition readMeta (cell : CellRef) : JSValue :=
  let fromModel :=
    match getMetadata (model cell) with
    | Some get =>
        let value := get META_KEY in
        if isObject value then cloneOverlay value else emptyOverlay
    | None => emptyOverlay
    end in
  match sharedModel cell with
  | Some shared =>
      match getMetadata shared with
      | Some get =>
          let sharedValue := get META_KEY in
          if isObject sharedValue then cloneOverlay sharedValue
          else fromModel
      | None => fromModel
      end
  | None => fromModel
  end.

End Host.

(** *** A host for plain data

    [hostStructuredClone] copies everything but functions, on which it
    throws; [hostJSON] throws on a BigInt and on a top-level [undefined] or
    function (whose serialization is [undefined], which does not parse),
    drops the properties holding [undefined] or a function, turns such
    array elements and the non-finite numbers into [null], and reads [-0]
    back as [0].  Either copy is made of objects allocated above every
    identity of the original. *)
Definition maxId (v : JSValue) : nat := fold_right Nat.max 0%nat (ids v).

Fixpoint holdsFunction (v : JSValue) : bool :=
  match v with
  | JFunction _ => true
  | JArray _ elems => existsb holdsFunction elems
  | JObject _ _ vals => existsb holdsFunction vals
  | _ => false
  end.

Fixpoint holdsBigInt (v : JSValue) : bool :=
  match v with
  | JBigInt _ => true
  | JArray _ elems => existsb holdsBigInt elems
  | JObject _ _ vals => existsb holdsBigInt vals
  | _ => false
  end.

Definition unserializable (v : JSValue) : bool :=
  match v with
  | JUndefined | JFunction _ => true
  | _ => false
  end.

Fixpoint jsonCopy (v : JSValue) : JSValue :=
  match v with
  | JNumber x =>
      if is_nan x || is_infinity x then JNull
      else if x =? 0 then JNumber 0
      else JNumber x
  | JArray id elems =>
      JArray id
        (map (fun e => if unserializable e then JNull else jsonCopy e) elems)
  | JObject id keys vals =>
      let kept :=
        (fix go (ks : list string) (vs : list JSValue) {struct vs}
           : list (string * JSValue) :=
           match vs, ks with
           | e :: vs', k :: ks' =>
               if unserializable e then go ks' vs'
               else (k, jsonCopy e) :: go ks' vs'
           | _, _ => []
           end) keys vals in
      JObject id (map fst kept) (map snd kept)
  | _ => v
  end.

Definition allocateAbove (v copy : JSValue) : JSValue :=
  relabel (fun id => (id + S (maxId v))%nat) copy.

Definition hostStructuredClone (v : JSValue) : option JSValue :=
  if holdsFunction v then None else Some (allocateAbove v v).

Definition hostJSON (v : JSValue) : option JSValue :=
  if holdsBigInt v || unserializable v then None
  else Some (allocateAbove v (jsonCopy v)).

End Synchronizer.

(** ** Sample data *)

Module Examples.

(** A vertical pen stroke of five points. *)
Definition straight : Stroke.t :=
  Stroke.mk pen (JS.Value 0.003) "#ff5722" (Some 1)
    (Some [(0, 0); (0, 0.25); (0, 0.5); (0, 0.75); (0, 1)]) None.

(** A stroke whose [points] array is empty, and one without the field. *)
Definition blank : Stroke.t :=
  Stroke.mk highlighter (JS.Value 0.01) "#ffff00" (Some 0.3) (Some []) None.

Definition pointless : Stroke.t :=
  Stroke.mk highlighter (JS.Value 0.01) "#ffff00" (Some 0.3) None None.

(** A single dot, far from where the samples erase. *)
Definition dot : Stroke.t :=
  Stroke.mk pen (JS.Value 0.003) "#ff5722" (Some 1) (Some [(0.9, 0.9)]) None.

Definition cell : Overlay.Cell :=
  Overlay.mkCell
    (Some {| strokes := Some [straight; blank]; others := [] |}) true [].

(** A cell holding the dot and the vertical stroke. *)
Definition dotted : Overlay.Cell :=
  Overlay.mkCell
    (Some {| strokes := Some [dot; straight]; others := [] |}) true [].

(** A page 200 by 120 pixels whose editor puts line 3 at 52, the content
    rectangle starting at 12: line 3 is now 40 pixels down. *)
Definition page : Renderer.Env :=
  Renderer.mkEnv 200 120
    (Some (fun line => if line =? 3 then Some 52 else None)) 12.

(** The same page once the cell is 300 pixels wide. *)
Definition widened : Renderer.Env :=
  Renderer.mkEnv 300 120
    (Some (fun line => if line =? 3 then Some 52 else None)) 12.

(** A stroke drawn on a 200 by 100 rectangle and anchored to line 3,
    which then stood at 0.2 of the height. *)
Definition anchored : Stroke.t :=
  Stroke.mk pen (JS.Value 0.003) "#ff5722" (Some 1)
    (Some [(0.1, 0.1); (0.1, 0.2); (0.1, 0.3)])
    (Some (StrokeBasis.mk 200 100 0.1 0.3 (Some 3) (Some 0.2))).

(** A pen stroke stored with an alpha of one half. *)
Definition faint : Stroke.t :=
  Stroke.mk pen (JS.Value 0.003) "#ff5722" (Some 0.5)
    (Some [(0.1, 0.1); (0.2, 0.2)]) None.

(** A notification whose [key] names another entry and whose [name] is
    the overlay key, and one with neither field. *)
Definition conflicting : Overlay.Change :=
  Overlay.ChangeObject
    [("key"%string, Overlay.AString "tags");
     ("name"%string, Overlay.AString "overlay_v1")].

Definition shapeless : Overlay.Change :=
  Overlay.ChangeObject [("type"%string, Overlay.AString "change")].

(** Stored metadata holding one stroke record, and a cell whose shared
    model serves it. *)
Definition storedOverlay : Synchronizer.JSValue :=
  Synchronizer.JObject 1 ["strokes"%string]
    [Synchronizer.JArray 2
       [Synchronizer.JObject 3 ["tool"%string; "width"%string]
          [Synchronizer.JString "pen"; Synchronizer.JNumber 0.003]]].

(** Metadata that neither copy can take: it holds a function and a
    BigInt. *)
Definition storedOddity : Synchronizer.JSValue :=
  Synchronizer.JObject 1 ["strokes"%string; "hook"%string; "big"%string]
    [Synchronizer.JArray 2 []; Synchronizer.JFunction 3;
     Synchronizer.JBigInt 7].

Definition serving (value : Synchronizer.JSValue) : Synchronizer.Model :=
  Synchronizer.mkModel
    (Some (fun key =>
             if String.eqb key META_KEY then value
             else Synchronizer.JUndefined)).

Definition storedCell : Synchronizer.CellRef :=
  Synchronizer.mkCellRef
    (Synchronizer.mkModel None)
    (Some (Synchronizer.mkModel
             (Some (fun key =>
                      if String.eqb key META_KEY then storedOverlay
                      else Synchronizer.JUndefined)))).

End Examples.

(** ** Repainting *)

Module Repaint.

(** [strokes.forEach(drawStroke)]: the drawings in paint order, or [None]
    as soon as one [drawStroke] throws. *)
Fixpoint drawAll (env : Renderer.Env) (strokes : list Stroke.t)
  : option (list Renderer.Drawing) :=
  match strokes with
  | [] => Some []
  | s :: rest =>
      match Renderer.drawStroke env s with
      | Some drawing =>
          match drawAll env rest with
          | Some drawings => Some (drawing :: drawings)
          | None => None
          end
      | None => None
      end
  end.

(** [redraw()]: the stored strokes, then the stroke in progress. *)
Definition redraw (env : Renderer.Env) (c : Overlay.Cell)
           (current : option Stroke.t) : option (list Renderer.Drawing) :=
  drawAll env
    (Overlay.strokesOf (Overlay.readMeta c)
     ++ match current with Some stroke => [stroke] | None => [] end).

(** Every stored stroke has a [points] array. *)
Definition renderable (c : Overlay.Cell) : Prop :=
  Forall (fun s => Stroke.points s <> None)
         (Overlay.strokesOf (Overlay.readMeta c)).

End Repaint.

(** ** The pointer session: tools, gestures and their handlers

    The variables the handlers of one overlay close over, and the handlers
    themselves.  DOM chrome (buttons, palette, notebook mode) is left out;
    what the handlers read from the page comes in as a [Page]. *)

Module ToolSettings.
Record t := mk {
  color : string;
  width : float
}.
End ToolSettings.

Module Session.

(** [getBoundingClientRect()] of the canvas. *)
Record Rect := mkRect {
  left : float;
  top : float;
  rectWidth : float;
  rectHeight : float
}.

(** The page at the time of an event: the canvas rectangle, what the
    renderer reads, the left edge of the editor host (absent without a
    host), and the editor's [getPositionForCoordinate] as the map from
    [left], [top] to the line found. *)
Record Page := mkPage {
  canvasRect : Rect;
  env : Renderer.Env;
  editorHostLeft : option float;
  getPositionForCoordinate : float -> float -> option float
}.

Record PointerEvent := mkPointerEvent {
  pointerId : Z;
  clientX : float;
  clientY : float
}.

(** [penSettings], [highlighterSettings], [tool], [widthNorm], [color],
    [erasing], [currentTool], [currentColor], [currentWidth] and
    [overlayState.erasing]. *)
Record Tools := mkTools {
  penSettings : ToolSettings.t;
  highlighterSettings : ToolSettings.t;
  tool : ToolMode;
  widthNorm : float;
  color : string;
  erasing : bool;
  currentTool : ToolMode;
  currentColor : string;
  currentWidth : float;
  overlayErasing : bool
}.

(** [down], [current], [erasingActive], [erasingPointerId] and
    [lastErasePoint]. *)
Record Gesture := mkGesture {
  down : bool;
  current : option Stroke.t;
  erasingActive : bool;
  erasingPointerId : option Z;
  lastErasePoint : option Point
}.

(** One overlay: its cell, its variables, whether the canvas takes pointer
    events ([pointerEvents === 'auto']), whether it is in [activeOverlays],
    and the pointers the canvas has captured. *)
Record State := mkState {
  cell : Overlay.Cell;
  tools : Tools;
  gesture : Gesture;
  pointerEvents : bool;
  active : bool;
  captured : list Z
}.

Definition hasPointerCapture (id : Z) (ids : list Z) : bool :=
  existsb (Z.eqb id) ids.

Definition setPointerCapture (id : Z) (ids : list Z) : list Z :=
  if hasPointerCapture id ids then ids else id :: ids.

Definition releasePointerCapture (id : Z) (ids : list Z) : list Z :=
  filter (fun other => negb (Z.eqb id other)) ids.

(** Whether a [redraw()] on this page returns; it throws when a stored
    stroke, or the stroke in progress, has no [points] array. *)
Definition paints (page : Page) (c : Overlay.Cell) (current : option Stroke.t)
  : bool :=
  match Repaint.redraw (env page) c current with
  | Some _ => true
  | None => false
  end.

(** Whether [eraseWithPointer(point, previous)] throws: it does when it
    modified a stroke and its closing [redraw()] throws. *)
Definition eraseThrows (page : Page) (point : Point) (previous : option Point)
           (c : Overlay.Cell) (current : option Stroke.t) : bool :=
  snd (Eraser.eraseStrokes point previous
         (Overlay.strokesOf (Overlay.readMeta c)))
  && negb (paints page (Overlay.eraseWithPointer point previous c) current).

Definition settingsOf (t : ToolMode) (ts : Tools) : ToolSettings.t :=
  match t with
  | pen => penSettings ts
  | highlighter => highlighterSettings ts
  end.

(** The state a freshly attached overlay starts in. *)
Definition initial (c : Overlay.Cell) : State :=
  mkState c
    (mkTools (ToolSettings.mk "#ff5722" 0.003) (ToolSettings.mk "#ffff00" 0.01)
             pen 0.003 "#ff5722" false pen "#ff5722" 0.003 false)
    (mkGesture false None false None None)
    false false [].

Definition toNorm (page : Page) (e : PointerEvent) : Point :=
  let r := canvasRect page in
  ((clientX e - left r) / rectWidth r, (clientY e - top r) / rectHeight r).

Definition setTool (next : ToolMode) (st : State) : State :=
  let ts := tools st in
  let chosen := settingsOf next ts in
  mkState (cell st)
    (mkTools (penSettings ts) (highlighterSettings ts)
             next (ToolSettings.width chosen) (ToolSettings.color chosen)
             false next (ToolSettings.color chosen) (ToolSettings.width chosen)
             false)
    (gesture st) (pointerEvents st) (active st) (captured st).

Definition setEraser (on : bool) (st : State) : State :=
  let ts := tools st in
  let g := gesture st in
  mkState (cell st)
    (mkTools (penSettings ts) (highlighterSettings ts)
             (tool ts) (widthNorm ts) (color ts)
             on (currentTool ts) (currentColor ts) (currentWidth ts) on)
    (mkGesture (if on then false else down g)
               (if on then None else current g)
               false None None)
    (pointerEvents st) (active st)
    (match erasingPointerId g with
     | Some id =>
         if hasPointerCapture id (captured st)
         then releasePointerCapture id (captured st)
         else captured st
     | None => captured st
     end).

Definition setColor (next : string) (st : State) : State :=
  let ts := tools st in
  mkState (cell st)
    (mkTools
       (match currentTool ts with
        | pen => ToolSettings.mk next (ToolSettings.width (penSettings ts))
        | highlighter => penSettings ts
        end)
       (match currentTool ts with
        | pen => highlighterSettings ts
        | highlighter =>
            ToolSettings.mk next (ToolSettings.width (highlighterSettings ts))
        end)
       (tool ts) (widthNorm ts) next
       (erasing ts) (currentTool ts) next (currentWidth ts)
       (overlayErasing ts))
    (gesture st) (pointerEvents st) (active st) (captured st).

Definition setWidth (next : float) (st : State) : State :=
  let ts := tools st in
  mkState (cell st)
    (mkTools
       (match currentTool ts with
        | pen => ToolSettings.mk (ToolSettings.color (penSettings ts)) next
        | highlighter => penSettings ts
        end)
       (match currentTool ts with
        | pen => highlighterSettings ts
        | highlighter =>
            ToolSettings.mk (ToolSettings.color (highlighterSettings ts)) next
        end)
       (tool ts) next (color ts)
       (erasing ts) (currentTool ts) (currentColor ts) next
       (overlayErasing ts))
    (gesture st) (pointerEvents st) (active st) (captured st).

Definition clearStrokes (st : State) : State :=
  let st1 := setEraser false st in
  let meta := Overlay.readMeta (cell st1) in
  let cleared := {| strokes := Some []; others := others meta |} in
  mkState (Overlay.redraw (Overlay.writeMeta cleared (cell st1)))
          (tools st1) (gesture st1) (pointerEvents st1) (active st1)
          (captured st1).

(** [toggleOverlay(force)]; [None] is a call without argument. *)
Definition toggleOverlay (force : option bool) (st : State) : State :=
  let ts := tools st in
  let enable := JS.nullish force (negb (pointerEvents st)) in
  mkState (cell st)
    (mkTools (penSettings ts) (highlighterSettings ts)
             (tool ts) (widthNorm ts) (color ts)
             (erasing ts) (currentTool ts) (currentColor ts) (currentWidth ts)
             (erasing ts))
    (gesture st) enable enable (captured st).

(** The capturing [pointerdown] listener on the document, for this
    overlay: a press outside the overlay's elements switches an active
    overlay off. *)
Definition pointerGuard (targetInside : bool) (st : State) : State :=
  if active st then
    if targetInside then st else toggleOverlay (Some false) st
  else st.

(** The [pointerdown] listener of the canvas.  In eraser mode
    [lastErasePoint] is assigned after [eraseWithPointer] returns, so it
    keeps its value when that call throws. *)
Definition pointerdown (page : Page) (e : PointerEvent) (st : State) : State :=
  if negb (pointerEvents st) then st
  else
    let ts := tools st in
    let g := gesture st in
    if erasing ts then
      let normPoint := toNorm page e in
      mkState (Overlay.eraseWithPointer normPoint (lastErasePoint g) (cell st))
              ts
              (mkGesture (down g) (current g) true (Some (pointerId e))
                         (if eraseThrows page normPoint (lastErasePoint g)
                                         (cell st) (current g)
                          then lastErasePoint g
                          else Some normPoint))
              (pointerEvents st) (active st)
              (setPointerCapture (pointerId e) (captured st))
    else
      let firstPoint := toNorm page e in
      mkState (Overlay.redraw (cell st))
              ts
              (mkGesture true
                 (Some (Renderer.beginStroke (env page) (tool ts) (widthNorm ts)
                          (color ts) firstPoint))
                 false None None)
              (pointerEvents st) (active st)
              (setPointerCapture (pointerId e) (captured st)).

(** [current.points.push(point)] and the update of [current.basis]. *)
Definition pushPoint (point : Point) (stroke : Stroke.t) : Stroke.t :=
  Stroke.mk (Stroke.tool stroke) (Stroke.width stroke) (Stroke.color stroke)
    (Stroke.alpha stroke)
    (match Stroke.points stroke with
     | Some pts => Some (pts ++ [point])
     | None => None
     end)
    (match Stroke.basis stroke with
     | Some b =>
         Some (StrokeBasis.mk
                 (StrokeBasis.width b) (StrokeBasis.height b)
                 (JS.Math_min [StrokeBasis.minY b; snd point])
                 (JS.Math_max [StrokeBasis.maxY b; snd point])
                 (StrokeBasis.anchorLine b) (StrokeBasis.anchorLineTop b))
     | None => None
     end).

(** The [pointermove] listener: an erase event while an erase gesture is
    under way, otherwise one more point on the stroke in progress. *)
Definition pointermove (page : Page) (e : PointerEvent) (st : State) : State :=
  let g := gesture st in
  if erasingActive g then
    let normPoint := toNorm page e in
    mkState (Overlay.eraseWithPointer normPoint (lastErasePoint g) (cell st))
            (tools st)
            (mkGesture (down g) (current g) (erasingActive g)
                       (erasingPointerId g)
                       (if eraseThrows page normPoint (lastErasePoint g)
                                       (cell st) (current g)
                        then lastErasePoint g
                        else Some normPoint))
            (pointerEvents st) (active st) (captured st)
  else
    match down g, current g with
    | true, Some stroke =>
        let point := toNorm page e in
        mkState (Overlay.redraw (cell st))
                (tools st)
                (mkGesture (down g) (Some (pushPoint point stroke))
                           (erasingActive g) (erasingPointerId g)
                           (lastErasePoint g))
                (pointerEvents st) (active st) (captured st)
    | _, _ => st
    end.

(** The anchoring step of [commitStroke]: the line under the vertical
    centre of the stroke and the normalized top of that line. *)
Definition anchor (page : Page) (stroke : Stroke.t) : Stroke.t :=
  match Stroke.basis stroke, Renderer.editor (env page), editorHostLeft page with
  | Some b, Some getCoordinateForPosition, Some editorLeft =>
      let basisHeight :=
        JS.or_else
          (JS.or_else (StrokeBasis.height b) (Renderer.clientHeight (env page)))
          1 in
      let centerNorm := (StrokeBasis.minY b + StrokeBasis.maxY b) / 2 in
      let centerPx := centerNorm * basisHeight in
      let contentTop := Renderer.contentTop (env page) in
      match getPositionForCoordinate page (editorLeft + 5)
                                     (contentTop + centerPx) with
      | Some line =>
          match getCoordinateForPosition line with
          | Some lineTop =>
              let lineTopRel := lineTop - contentTop in
              Stroke.mk (Stroke.tool stroke) (Stroke.width stroke)
                (Stroke.color stroke) (Stroke.alpha stroke)
                (Stroke.points stroke)
                (Some (StrokeBasis.mk
                         (StrokeBasis.width b) (StrokeBasis.height b)
                         (StrokeBasis.minY b) (StrokeBasis.maxY b)
                         (Some line) (Some (lineTopRel / basisHeight))))
          | None => stroke
          end
      | None => stroke
      end
  | _, _, _ => stroke
  end.

(** [commitStroke(pointerId)]; the pointer is released after the closing
    [redraw()], so only when that returns. *)
Definition commitStroke (page : Page) (pointer : option Z) (st : State)
  : State :=
  let g := gesture st in
  match down g, current g with
  | true, Some drawn =>
      let stroke := anchor page drawn in
      let meta := Overlay.readMeta (cell st) in
      let strokes := Overlay.strokesOf meta ++ [stroke] in
      let written :=
        Overlay.writeMeta {| strokes := Some strokes; others := others meta |}
                          (cell st) in
      mkState (Overlay.redraw written)
              (tools st)
              (mkGesture false None (erasingActive g) (erasingPointerId g)
                         (lastErasePoint g))
              (pointerEvents st) (active st)
              (if paints page written None then
                 match pointer with
                 | Some id =>
                     if hasPointerCapture id (captured st)
                     then releasePointerCapture id (captured st)
                     else captured st
                 | None => captured st
                 end
               else captured st)
  | _, _ => st
  end.

Definition finishErasing (pointer : option Z) (st : State) : State :=
  let g := gesture st in
  if negb (erasingActive g) then st
  else
    let id := match pointer with Some p => Some p | None => erasingPointerId g end in
    mkState (cell st) (tools st)
            (mkGesture (down g) (current g) false None None)
            (pointerEvents st) (active st)
            (match id with
             | Some p =>
                 if hasPointerCapture p (captured st)
                 then releasePointerCapture p (captured st)
                 else captured st
             | None => captured st
             end).

Definition pointerup (page : Page) (e : PointerEvent) (st : State) : State :=
  if erasingActive (gesture st) then finishErasing (Some (pointerId e)) st
  else commitStroke page (Some (pointerId e)) st.

Definition pointercancel (page : Page) (e : PointerEvent) (st : State) : State :=
  if erasingActive (gesture st) then finishErasing (Some (pointerId e)) st
  else commitStroke page (Some (pointerId e)) st.

Definition onMetadataChanged (change : Overlay.Change) (st : State) : State :=
  mkState (Overlay.onMetadataChanged change (cell st))
          (tools st) (gesture st) (pointerEvents st) (active st) (captured st).

(** Everything that can happen to an overlay. *)
Inductive Action :=
| PointerDown (page : Page) (e : PointerEvent)
| PointerMove (page : Page) (e : PointerEvent)
| PointerUp (page : Page) (e : PointerEvent)
| PointerCancel (page : Page) (e : PointerEvent)
| DocumentPointerDown (targetInside : bool)
| SetTool (next : ToolMode)
| SetEraser (on : bool)
| SetColor (next : string)
| SetWidth (next : float)
| Clear
| Toggle (force : option bool)
| MetadataChanged (change : Overlay.Change).

Definition step (st : State) (a : Action) : State :=
  match a with
  | PointerDown page e => pointerdown page e st
  | PointerMove page e => pointermove page e st
  | PointerUp page e => pointerup page e st
  | PointerCancel page e => pointercancel page e st
  | DocumentPointerDown targetInside => pointerGuard targetInside st
  | SetTool next => setTool next st
  | SetEraser on => setEraser on st
  | SetColor next => setColor next st
  | SetWidth next => setWidth next st
  | Clear => clearStrokes st
  | Toggle force => toggleOverlay force st
  | MetadataChanged change => onMetadataChanged change st
  end.

Definition run (actions : list Action) (st : State) : State :=
  fold_left step actions st.

(** The erase events of a gesture through the contact points [pts]: each
    contact sweeps from the one before it. *)
Fixpoint sweeps (previous : option Point) (pts : list Point)
  : list (Point * option Point) :=
  match pts with
  | [] => []
  | p :: rest => (p, previous) :: sweeps (Some p) rest
  end.

(** A run of [pointermove] events, each on the page as it then is. *)
Definition drag (moves : list (Page * PointerEvent)) (st : State) : State :=
  fold_left (fun s m => pointermove (fst m) (snd m) s) moves st.

(** The contact points of a gesture. *)
Definition contacts (moves : list (Page * PointerEvent)) : list Point :=
  map (fun m => toNorm (fst m) (snd m)) moves.

(** The actions other than the two that edit a tool's settings. *)
Definition keepsSettings (a : Action) : bool :=
  match a with
  | SetColor _ | SetWidth _ => false
  | _ => true
  end.

(** A move or a release of the pointer. *)
Definition isMoveOrRelease (a : Action) : bool :=
  match a with
  | PointerMove _ _ | PointerUp _ _ | PointerCancel _ _ => true
  | _ => false
  end.

(** Any of the four pointer events of the canvas. *)
Definition isPointer (a : Action) : bool :=
  match a with
  | PointerDown _ _ | PointerMove _ _ | PointerUp _ _ | PointerCancel _ _ =>
      true
  | _ => false
  end.

(** Every stroke a repaint would draw, stored or in progress, has a
    [points] array. *)
Definition paintable (st : State) : Prop :=
  Repaint.renderable (cell st)
  /\ forall stroke, current (gesture st) = Some stroke ->
                    Stroke.points stroke <> None.

(** What the handlers keep true of the overlay's variables. *)
Record Coherent (st : State) : Prop := mkCoherent {
  coherent_tool : currentTool (tools st) = tool (tools st);
  coherent_color :
    color (tools st) = currentColor (tools st)
    /\ color (tools st)
       = ToolSettings.color (settingsOf (tool (tools st)) (tools st));
  coherent_width :
    widthNorm (tools st) = currentWidth (tools st)
    /\ widthNorm (tools st)
       = ToolSettings.width (settingsOf (tool (tools st)) (tools st));
  coherent_overlay : overlayErasing (tools st) = erasing (tools st);
  coherent_down :
    down (gesture st) = true <-> current (gesture st) <> None;
  coherent_erasing :
    erasing (tools st) = true -> down (gesture st) = false;
  coherent_erasingActive :
    erasingActive (gesture st) = true -> down (gesture st) = false;
  coherent_idle :
    erasingActive (gesture st) = false ->
    lastErasePoint (gesture st) = None
    /\ erasingPointerId (gesture st) = None;
  coherent_active : active st = pointerEvents st
}.

End Session.

(** ** Writing metadata, with object identities

    The two model objects a cell offers, each with the entries it stores and
    whether it offers [getMetadata] and [setMetadata]. *)

Module Store.

Import Synchronizer.

Record ModelState := mkModelState {
  entries : string -> JSValue;
  offersGet : bool;
  offersSet : bool
}.

Record CellState := mkCellState {
  modelState : ModelState;
  sharedState : option ModelState
}.

(** What [readMeta] sees of a model object. *)
Definition view (m : ModelState) : Model :=
  mkModel (if offersGet m then Some (entries m) else None).

Definition ref (c : CellState) : CellRef :=
  mkCellRef (view (modelState c)) (option_map view (sharedState c)).

(** [setMetadata(key, payload)] *)
Definition setMetadata (key : string) (payload : JSValue) (m : ModelState)
  : ModelState :=
  mkModelState
    (fun k => if String.eqb k key then payload else entries m k)
    (offersGet m) (offersSet m).

Section Host.

Variable structuredClone : option (JSValue -> option JSValue).
Variable JSON_parse_stringify : JSValue -> option JSValue.

Definition writeMeta (value : JSValue) (c : CellState) : CellState :=
  let payload := cloneOverlay structuredClone JSON_parse_stringify value in
  let toModel :=
    if offersSet (modelState c)
    then mkCellState (setMetadata META_KEY payload (modelState c))
                     (sharedState c)
    else c in
  match sharedState c with
  | Some shared =>
      if offersSet shared
      then mkCellState (modelState c)
                       (Some (setMetadata META_KEY payload shared))
      else toModel
  | None => toModel
  end.

End Host.

End Store.

(** ** Sample sessions *)

Module Scenarios.

Definition page : Session.Page :=
  Session.mkPage (Session.mkRect 10 20 200 100) Examples.page (Some 30)
    (fun _ top => if top <? 60 then Some 3 else None).

Definition press (x y : float) : Session.PointerEvent :=
  Session.mkPointerEvent 1 x y.

(** An overlay switched on over an empty writable cell. *)
Definition ready : Session.State :=
  Session.toggleOverlay (Some true)
    (Session.initial (Overlay.mkCell None true [])).

(** An overlay switched on, in eraser mode, over the sample cell. *)
Definition erasingStraight : Session.State :=
  Session.setEraser true
    (Session.toggleOverlay (Some true) (Session.initial Examples.cell)).

(** An overlay switched on over a writable cell that holds a stroke
    without a [points] array. *)
Definition broken : Session.State :=
  Session.toggleOverlay (Some true)
    (Session.initial
       (Overlay.mkCell
          (Some {| strokes := Some [Examples.pointless]; others := [] |})
          true [])).

Definition store : Store.CellState :=
  Store.mkCellState
    (Store.mkModelState (fun _ => Synchronizer.JUndefined) true true)
    (Some (Store.mkModelState
             (fun key =>
                if String.eqb key META_KEY then Examples.storedOverlay
                else Synchronizer.JString "kept")
             true true)).

End Scenarios.

(** * Properties *)

(** ** The order of binary64 numbers *)

Module FloatOrder.

Lemma Prim2SF_nan (x : float) : is_nan x = true -> Prim2SF x = S754_nan.
Proof. intros H. unfold Prim2SF. now rewrite H. Qed.

Lemma Prim2SF_not_nan (x : float) : is_nan x = false -> Prim2SF x <> S754_nan.
Proof.
  intros H. unfold Prim2SF. rewrite H.
  destruct (is_zero x); [discriminate|].
  destruct (is_infinity x); [discriminate|].
  destruct (Z.frexp x) as [r e].
  destruct (shr_fexp _ _ _ _ _) as [sh e'].
  destruct (shr_m sh); discriminate.
Qed.

Lemma lexcmp_spec e1 m1 e2 m2 :
  CompareSpec (e1 = e2 /\ m1 = m2)
              ((e1 < e2)%Z \/ e1 = e2 /\ (m1 < m2)%positive)
              ((e2 < e1)%Z \/ e1 = e2 /\ (m2 < m1)%positive)
              (lexcmp e1 m1 e2 m2).
Proof.
  unfold lexcmp. destruct (Z.compare_spec e1 e2).
  - change (Pos.compare_cont Eq m1 m2) with (Pos.compare m1 m2).
    destruct (Pos.compare_spec m1 m2); constructor; auto.
  - constructor; auto.
  - constructor; auto.
Qed.

Lemma SFcompare_finite s1 m1 e1 s2 m2 e2 :
  SFcompare (S754_finite s1 m1 e1) (S754_finite s2 m2 e2) =
  Some match s1, s2 with
       | true, false => Lt
       | false, true => Gt
       | false, false => lexcmp e1 m1 e2 m2
       | true, true => CompOpp (lexcmp e1 m1 e2 m2)
       end.
Proof.
  unfold lexcmp; destruct s1, s2; cbn; try reflexivity;
    destruct (Z.compare e1 e2); reflexivity.
Qed.

Ltac lex_cases :=
  repeat match goal with
         | |- context [lexcmp ?a ?b ?c ?d] => destruct (lexcmp_spec a b c d)
         | H : context [lexcmp ?a ?b ?c ?d] |- _ =>
             destruct (lexcmp_spec a b c d)
         end.

Ltac sf_cases :=
  rewrite ?SFcompare_finite;
  repeat match goal with s : bool |- _ => destruct s end;
  cbn; try discriminate; try reflexivity; try congruence.

Lemma SFleb_trans (a b c : spec_float) :
  SFleb a b = true -> SFleb b c = true -> SFleb a c = true.
Proof.
  unfold SFleb.
  destruct a as [sa|sa| |sa ma ea], b as [sb|sb| |sb mb eb],
           c as [sc|sc| |sc mc ec]; sf_cases.
  all: intros H1 H2; lex_cases; cbn in *;
    try discriminate; try reflexivity; lia.
Qed.

Lemma SFleb_refl (a : spec_float) : a <> S754_nan -> SFleb a a = true.
Proof.
  unfold SFleb. destruct a as [sa|sa| |sa ma ea]; sf_cases.
  all: intros _; lex_cases; cbn; try reflexivity; lia.
Qed.

Lemma SFltb_leb (a b : spec_float) : SFltb a b = true -> SFleb a b = true.
Proof.
  unfold SFltb, SFleb. destruct (SFcompare a b) as [[]|]; congruence.
Qed.

Lemma SFltb_false_leb (a b : spec_float) :
  a <> S754_nan -> b <> S754_nan -> SFltb a b = false -> SFleb b a = true.
Proof.
  unfold SFltb, SFleb.
  destruct a as [sa|sa| |sa ma ea], b as [sb|sb| |sb mb eb]; sf_cases.
  all: intros _ _ H; lex_cases; cbn in *;
    try discriminate; try reflexivity; lia.
Qed.

Lemma SFleb_not_nan (a b : spec_float) :
  SFleb a b = true -> a <> S754_nan /\ b <> S754_nan.
Proof.
  unfold SFleb. destruct a, b; cbn; try discriminate; split; discriminate.
Qed.

(** The same facts on primitive floats. *)

Lemma is_nan_false (x : float) : Prim2SF x <> S754_nan -> is_nan x = false.
Proof.
  intros H. destruct (is_nan x) eqn:E; [|reflexivity].
  now apply Prim2SF_nan in E.
Qed.

Lemma leb_trans (x y z : float) :
  (x <=? y) = true -> (y <=? z) = true -> (x <=? z) = true.
Proof. rewrite !leb_spec. apply SFleb_trans. Qed.

Lemma leb_refl (x : float) : is_nan x = false -> (x <=? x) = true.
Proof. intros H. rewrite leb_spec. now apply SFleb_refl, Prim2SF_not_nan. Qed.

Lemma ltb_leb (x y : float) : (x <? y) = true -> (x <=? y) = true.
Proof. rewrite ltb_spec, leb_spec. apply SFltb_leb. Qed.

Lemma ltb_false_leb (x y : float) :
  is_nan x = false -> is_nan y = false -> (x <? y) = false -> (y <=? x) = true.
Proof.
  intros Hx Hy. rewrite ltb_spec, leb_spec.
  apply SFltb_false_leb; now apply Prim2SF_not_nan.
Qed.

Lemma leb_not_nan (x y : float) :
  (x <=? y) = true -> is_nan x = false /\ is_nan y = false.
Proof.
  rewrite leb_spec. intros H. apply SFleb_not_nan in H.
  split; apply is_nan_false; tauto.
Qed.

Lemma infinity_leb (x : float) : (infinity <=? x) = true -> x = infinity.
Proof.
  rewrite leb_spec. intros H. apply Prim2SF_inj.
  change (Prim2SF infinity) with (S754_infinity false) in *.
  unfold SFleb in H.
  destruct (Prim2SF x) as [s|s| |s m e]; cbn in H;
    try destruct s; try discriminate; reflexivity.
Qed.

Lemma leb_neg_infinity (x : float) : (x <=? neg_infinity) = true -> x = neg_infinity.
Proof.
  rewrite leb_spec. intros H. apply Prim2SF_inj.
  change (Prim2SF neg_infinity) with (S754_infinity true) in *.
  unfold SFleb in H.
  destruct (Prim2SF x) as [s|s| |s m e]; cbn in H;
    try destruct s; try discriminate; reflexivity.
Qed.

Lemma neg_zero_leb_pos_zero (x y : float) :
  JS.is_neg_zero x = true -> JS.is_pos_zero y = true -> (x <=? y) = true.
Proof.
  unfold JS.is_neg_zero, JS.is_pos_zero. rewrite !classify_spec, leb_spec.
  unfold SF64classify, SFclassify.
  destruct (Prim2SF x) as [[]|[]| |[] m e], (Prim2SF y) as [[]|[]| |[] m' e'];
    try discriminate; try reflexivity;
    repeat match goal with |- context [if ?c then _ else _] => destruct c end;
    discriminate.
Qed.

End FloatOrder.

(** ** [Math.min] and [Math.max] on NaN-free arguments *)

Module MathFacts.

Import FloatOrder.

Definition nan_free (xs : list float) : Prop :=
  Forall (fun x => is_nan x = false) xs.

Lemma min_step_cases (lowest n : float) :
  is_nan lowest = false -> is_nan n = false ->
  (JS.min_step lowest n = lowest \/ JS.min_step lowest n = n)
  /\ (JS.min_step lowest n <=? lowest) = true
  /\ (JS.min_step lowest n <=? n) = true.
Proof.
  intros Hl Hn. unfold JS.min_step. rewrite Hl, Hn.
  destruct (JS.is_neg_zero n && JS.is_pos_zero lowest) eqn:Z.
  - apply andb_prop in Z as [Z1 Z2].
    repeat split; auto using neg_zero_leb_pos_zero, leb_refl.
  - destruct (n <? lowest) eqn:L;
      repeat split; auto using ltb_leb, leb_refl, ltb_false_leb.
Qed.

Lemma max_step_cases (highest n : float) :
  is_nan highest = false -> is_nan n = false ->
  (JS.max_step highest n = highest \/ JS.max_step highest n = n)
  /\ (highest <=? JS.max_step highest n) = true
  /\ (n <=? JS.max_step highest n) = true.
Proof.
  intros Hh Hn. unfold JS.max_step. rewrite Hh, Hn.
  destruct (JS.is_pos_zero n && JS.is_neg_zero highest) eqn:Z.
  - apply andb_prop in Z as [Z1 Z2].
    repeat split; auto using neg_zero_leb_pos_zero, leb_refl.
  - destruct (highest <? n) eqn:L;
      repeat split; auto using ltb_leb, leb_refl, ltb_false_leb.
Qed.

Lemma fold_min_spec (xs : list float) :
  forall lowest, is_nan lowest = false -> nan_free xs ->
    (fold_left JS.min_step xs lowest = lowest
     \/ In (fold_left JS.min_step xs lowest) xs)
    /\ (fold_left JS.min_step xs lowest <=? lowest) = true
    /\ Forall (fun x => (fold_left JS.min_step xs lowest <=? x) = true) xs.
Proof.
  induction xs as [|a xs IH]; intros lowest Hl Hxs; cbn.
  - repeat split; auto using leb_refl.
  - inversion Hxs as [|? ? Ha Hxs']; subst.
    destruct (min_step_cases lowest a Hl Ha) as (Hsel & Hle1 & Hle2).
    destruct (leb_not_nan _ _ Hle1) as [Hn _].
    destruct (IH _ Hn Hxs') as (Hin & Hle & Hall).
    split; [|split].
    + destruct Hin as [E|Hin]; [|auto].
      rewrite E. destruct Hsel as [->| ->]; auto.
    + eauto using leb_trans.
    + constructor; eauto using leb_trans.
Qed.

Lemma fold_max_spec (xs : list float) :
  forall highest, is_nan highest = false -> nan_free xs ->
    (fold_left JS.max_step xs highest = highest
     \/ In (fold_left JS.max_step xs highest) xs)
    /\ (highest <=? fold_left JS.max_step xs highest) = true
    /\ Forall (fun x => (x <=? fold_left JS.max_step xs highest) = true) xs.
Proof.
  induction xs as [|a xs IH]; intros highest Hh Hxs; cbn.
  - repeat split; auto using leb_refl.
  - inversion Hxs as [|? ? Ha Hxs']; subst.
    destruct (max_step_cases highest a Hh Ha) as (Hsel & Hle1 & Hle2).
    destruct (leb_not_nan _ _ Hle1) as [_ Hn].
    destruct (IH _ Hn Hxs') as (Hin & Hle & Hall).
    split; [|split].
    + destruct Hin as [E|Hin]; [|auto].
      rewrite E. destruct Hsel as [->| ->]; auto.
    + eauto using leb_trans.
    + constructor; eauto using leb_trans.
Qed.

(** On a non-empty NaN-free list [Math.min] returns an element of the
    list that is below every element. *)
Lemma Math_min_least (xs : list float) :
  xs <> [] -> nan_free xs ->
  In (JS.Math_min xs) xs
  /\ Forall (fun x => (JS.Math_min xs <=? x) = true) xs.
Proof.
  intros Hne Hxs. unfold JS.Math_min.
  destruct (fold_min_spec xs infinity eq_refl Hxs) as (Hin & _ & Hall).
  split; [|exact Hall].
  destruct Hin as [E|Hin]; [|exact Hin].
  destruct xs as [|x0 xs]; [congruence|].
  inversion Hall as [|? ? H0 _]; subst.
  rewrite E in H0 |- *. apply infinity_leb in H0. rewrite H0. now left.
Qed.

Lemma Math_max_greatest (xs : list float) :
  xs <> [] -> nan_free xs ->
  In (JS.Math_max xs) xs
  /\ Forall (fun x => (x <=? JS.Math_max xs) = true) xs.
Proof.
  intros Hne Hxs. unfold JS.Math_max.
  destruct (fold_max_spec xs neg_infinity eq_refl Hxs) as (Hin & _ & Hall).
  split; [|exact Hall].
  destruct Hin as [E|Hin]; [|exact Hin].
  destruct xs as [|x0 xs]; [congruence|].
  inversion Hall as [|? ? H0 _]; subst.
  rewrite E in H0 |- *. apply leb_neg_infinity in H0. rewrite H0. now left.
Qed.

(** A bound is met by the minimum exactly when some element meets it. *)
Lemma Math_min_leb_iff (xs : list float) (r : float) :
  xs <> [] -> nan_free xs ->
  ((JS.Math_min xs <=? r) = true <-> exists x, In x xs /\ (x <=? r) = true).
Proof.
  intros Hne Hxs. destruct (Math_min_least xs Hne Hxs) as [Hin Hall].
  split.
  - intros H. eauto.
  - intros (x & Hx & Hle). rewrite Forall_forall in Hall.
    eauto using leb_trans.
Qed.

End MathFacts.

(** ** Runs: how the grouping behaves under concatenation *)

Module RunFacts.

Section Runs.

Context {A : Type}.
Variable keep : A -> bool.
Variable cross : A -> A -> bool.

Local Abbreviation runs := (runs keep cross).
Local Abbreviation touched := (touched keep cross).

Lemma runs_cons2 (p q : A) (l : list A) :
  runs (p :: q :: l) =
  if keep p then
    if keep q && negb (cross p q) then
      match runs (q :: l) with
      | r :: rs => (p :: r) :: rs
      | [] => [[p]]
      end
    else [p] :: runs (q :: l)
  else runs (q :: l).
Proof. reflexivity. Qed.

Lemma runs_one (p : A) : runs [p] = if keep p then [[p]] else [].
Proof. reflexivity. Qed.

(** Every kept point lies in exactly one run, in the original order. *)
Lemma runs_concat (pts : list A) : List.concat (runs pts) = filter keep pts.
Proof.
  induction pts as [|p [|q l] IH].
  - reflexivity.
  - cbn. destruct (keep p); reflexivity.
  - rewrite runs_cons2. cbn [filter]. destruct (keep p); [|exact IH].
    destruct (keep q && negb (cross p q)).
    + destruct (runs (q :: l)) as [|r rs] eqn:E.
      * cbn in IH |- *. now rewrite <- IH.
      * cbn in IH |- *. now rewrite <- IH.
    + cbn [List.concat]. now rewrite IH.
Qed.

Lemma runs_not_nil (pts : list A) :
  runs pts = [] -> forall x, In x pts -> keep x = false.
Proof.
  intros E x Hx. destruct (keep x) eqn:K; [|reflexivity].
  assert (H : In x (filter keep pts)) by (apply filter_In; auto).
  rewrite <- runs_concat, E in H. destruct H.
Qed.

(** A sequence ending in a kept point ends in a run. *)
Lemma runs_snoc_kept (l : list A) (a : A) :
  keep a = true -> exists rs r, runs (l ++ [a]) = rs ++ [r].
Proof.
  intros K. destruct (runs (l ++ [a])) as [|r0 rs0] eqn:E.
  - assert (keep a = false)
      by (apply (runs_not_nil _ E), in_or_app; right; now left).
    congruence.
  - destruct (@exists_last _ (r0 :: rs0)) as (rs & r & ->); [discriminate|].
    eauto.
Qed.

(** No run spans two consecutive points that are not both kept, or that
    cross: the runs before and after are those of the two parts. *)
Lemma runs_app_split (l1 : list A) (a b : A) (l2 : list A) :
  keep a && keep b && negb (cross a b) = false ->
  runs (l1 ++ a :: b :: l2) = runs (l1 ++ [a]) ++ runs (b :: l2).
Proof.
  intros J. induction l1 as [|x l1 IH].
  - cbn [app]. rewrite runs_cons2, runs_one.
    destruct (keep a); [|reflexivity].
    cbn in J. rewrite J. reflexivity.
  - destruct l1 as [|y l1].
    + cbn [app] in *.
      rewrite (runs_cons2 x a (b :: l2)), (runs_cons2 x a []), IH, runs_one.
      destruct (keep x); [|reflexivity].
      destruct (keep a) eqn:Ka; cbn [andb]; [|reflexivity].
      destruct (negb (cross x a)); reflexivity.
    + cbn [app] in *.
      rewrite (runs_cons2 x y (l1 ++ a :: b :: l2)),
              (runs_cons2 x y (l1 ++ [a])), IH.
      destruct (keep x); [|reflexivity].
      destruct (keep y && negb (cross x y)) eqn:C; [|reflexivity].
      destruct (runs (y :: l1 ++ [a])) as [|r rs] eqn:E; [|reflexivity].
      apply andb_prop in C as [Ky _].
      assert (keep y = false) by (apply (runs_not_nil _ E); now left).
      congruence.
Qed.

(** A removed point separates the runs on its two sides. *)
Lemma runs_removed (l1 : list A) (p : A) (l2 : list A) :
  keep p = false -> runs (l1 ++ p :: l2) = runs l1 ++ runs l2.
Proof.
  intros K. induction l1 as [|x l1 IH].
  - destruct l2; cbn; rewrite K; reflexivity.
  - destruct l1 as [|y l1].
    + cbn [app] in *. rewrite (runs_cons2 x p l2), IH, runs_one, K.
      destruct (keep x); reflexivity.
    + cbn [app] in *.
      rewrite (runs_cons2 x y (l1 ++ p :: l2)), (runs_cons2 x y l1), IH.
      destruct (keep x); [|reflexivity].
      destruct (keep y && negb (cross x y)) eqn:C; [|reflexivity].
      destruct (runs (y :: l1)) as [|r rs] eqn:E; [|reflexivity].
      apply andb_prop in C as [Ky _].
      assert (keep y = false) by (apply (runs_not_nil _ E); now left).
      congruence.
Qed.

(** Two consecutive kept points that do not cross stay in one run: the
    run ending at the first is glued to the run starting at the second. *)
Lemma runs_app_join (l1 : list A) (a b : A) (l2 : list A) :
  keep a = true -> keep b = true -> cross a b = false ->
  forall rs1 r1 r2 rs2,
    runs (l1 ++ [a]) = rs1 ++ [r1] ->
    runs (b :: l2) = r2 :: rs2 ->
    runs (l1 ++ a :: b :: l2) = rs1 ++ [r1 ++ r2] ++ rs2.
Proof.
  intros Ka Kb C. induction l1 as [|x l1 IH]; intros rs1 r1 r2 rs2 E1 E2.
  - cbn [app] in *. rewrite runs_one, Ka in E1.
    destruct rs1 as [|r0 [|? ?]]; try discriminate.
    injection E1 as <-.
    rewrite runs_cons2, Ka, Kb, C, E2. reflexivity.
  - destruct (runs_snoc_kept l1 a Ka) as (rs & r & E).
    specialize (IH rs r r2 rs2 E E2).
    assert (Hx : forall q rest1 rest,
               runs rest1 = rs ++ [r] ->
               runs rest = rs ++ [r ++ r2] ++ rs2 ->
               (if keep x then
                  if keep q && negb (cross x q) then
                    match runs rest1 with
                    | r0 :: rs0 => (x :: r0) :: rs0
                    | [] => [[x]]
                    end
                  else [x] :: runs rest1
                else runs rest1) = rs1 ++ [r1] ->
               (if keep x then
                  if keep q && negb (cross x q) then
                    match runs rest with
                    | r0 :: rs0 => (x :: r0) :: rs0
                    | [] => [[x]]
                    end
                  else [x] :: runs rest
                else runs rest) = rs1 ++ [r1 ++ r2] ++ rs2).
    { intros q rest1 rest -> -> H.
      destruct (keep x).
      - destruct (keep q && negb (cross x q)).
        + destruct rs as [|r0 rs0]; cbn [app] in *.
          * apply (app_inj_tail [] rs1 (x :: r) r1) in H as [<- <-].
            reflexivity.
          * apply (app_inj_tail ((x :: r0) :: rs0) rs1 r r1) in H
              as [<- <-].
            reflexivity.
        + apply (app_inj_tail ([x] :: rs) rs1 r r1) in H as [<- <-].
          reflexivity.
      - apply app_inj_tail in H as [<- <-]. reflexivity. }
    destruct l1 as [|y l1]; cbn [app] in *.
    + rewrite (runs_cons2 x a []) in E1.
      rewrite (runs_cons2 x a (b :: l2)). now apply (Hx a [a]).
    + rewrite (runs_cons2 x y (l1 ++ [a])) in E1.
      rewrite (runs_cons2 x y (l1 ++ a :: b :: l2)).
      now apply (Hx y (y :: l1 ++ [a])).
Qed.

(** A list that is one run consists of kept points. *)
Lemma single_run_kept (cur : list A) :
  runs cur = [cur] -> forall x, In x cur -> keep x = true.
Proof.
  intros E x Hx.
  assert (H : List.concat (runs cur) = cur) by (rewrite E; cbn; apply app_nil_r).
  rewrite runs_concat in H. rewrite <- H in Hx.
  now apply filter_In in Hx.
Qed.

Lemma single_run_snoc (cur : list A) (p : A) :
  runs cur = [cur] -> keep p = true -> cross (last cur p) p = false ->
  runs (cur ++ [p]) = [cur ++ [p]].
Proof.
  intros E Kp C. destruct cur as [|c0 cur'] using rev_ind; [discriminate|].
  clear IHcur'. rewrite last_last in C.
  assert (Ka : keep c0 = true)
    by (apply (single_run_kept _ E), in_or_app; right; now left).
  rewrite <- app_assoc. cbn [app].
  rewrite (runs_app_join cur' c0 p [] Ka Kp C [] (cur' ++ [c0]) [p] []).
  - cbn [app]. now rewrite <- app_assoc.
  - exact E.
  - rewrite runs_one, Kp. reflexivity.
Qed.

(** A kept point at the front starts the first run. *)
Lemma runs_cons_kept (q : A) (l : list A) :
  keep q = true -> exists r rs, runs (q :: l) = (q :: r) :: rs.
Proof.
  intros K. destruct l as [|y l].
  - rewrite runs_one, K. eauto.
  - rewrite runs_cons2, K.
    destruct (keep y && negb (cross q y)); [|eauto].
    destruct (runs (y :: l)); eauto.
Qed.

(** A kept point at the back ends the last run. *)
Lemma runs_snoc_kept_last (l : list A) (p : A) :
  keep p = true -> exists rs r, runs (l ++ [p]) = rs ++ [r ++ [p]].
Proof.
  intros K. destruct l as [|a l'] using rev_ind.
  - cbn [app]. rewrite runs_one, K. now exists [], [].
  - clear IHl'. rewrite <- app_assoc. cbn [app].
    destruct (keep a && keep p && negb (cross a p)) eqn:J.
    + apply andb_prop in J as [J C]. apply andb_prop in J as [Ka _].
      apply negb_true_iff in C.
      destruct (runs_snoc_kept l' a Ka) as (rs & r & E).
      exists rs, r.
      rewrite (runs_app_join l' a p [] Ka K C rs r [p] [] E).
      * now rewrite app_nil_r.
      * now rewrite runs_one, K.
    + rewrite (runs_app_split l' a p [] J), runs_one, K.
      exists (runs (l' ++ [a])), []. reflexivity.
Qed.

(** [touched] in words: no point removed and no break between two
    consecutive kept points. *)
Lemma touched_false_iff (pts : list A) :
  touched pts = false <->
  (forall x, In x pts -> keep x = true)
  /\ (forall l1 a b l2, pts = l1 ++ a :: b :: l2 -> cross a b = false).
Proof.
  induction pts as [|p rest IH].
  - cbn. split; [|reflexivity]. intros _. split; [tauto|].
    intros [|? ?] ? ? ? H; discriminate.
  - cbn [touched]. rewrite !orb_false_iff, negb_false_iff, IH. split.
    + intros ((Kp & Cq) & Kr & Cr). split.
      * intros x [<-|Hx]; auto.
      * intros [|x l1] a b l2 H; cbn in H; injection H as -> ->.
        -- rewrite (Kr b) in Cq by now left. exact Cq.
        -- eauto.
    + intros (K & C). split; [split|split].
      * apply K. now left.
      * destruct rest as [|q rest']; [reflexivity|].
        rewrite (K q) by (right; now left). cbn.
        exact (C [] p q rest' eq_refl).
      * intros x Hx. apply K. now right.
      * intros l1 a b l2 H. apply (C (p :: l1) a b l2). cbn. now rewrite H.
Qed.

End Runs.

End RunFacts.

(** ** The eraser loop computes the runs *)

Module EraserFacts.

Import Eraser RunFacts.

Section PerStroke.

Variable point : Point.
Variable previous : option Point.
Variable radiusSq : float.

Local Abbreviation keep := (keepPoint point previous radiusSq).
Local Abbreviation cross := (crosses point previous radiusSq).
Local Abbreviation visit := (Eraser.visit point previous radiusSq).

Lemma flush_long (segs : list (list Point)) (cur : list Point) :
  flush segs cur = segs ++ filter long [cur].
Proof.
  unfold flush, long. cbn [filter].
  destruct (1 <? List.length cur)%nat; [reflexivity|now rewrite app_nil_r].
Qed.

Lemma last_in (cur : list Point) (d : Point) :
  cur <> [] -> In (last cur d) cur.
Proof.
  intros H. destruct (exists_last H) as (l & a & ->).
  rewrite last_last. apply in_or_app. right. now left.
Qed.

(** Invariant of the loop: [cur] is the run still open, and what the
    loop will finally hold is what [runs] makes of [cur] followed by the
    points still to visit. *)
Lemma fold_visit_segments (pts : list Point) :
  forall segs cur m,
    cur = [] \/ runs keep cross cur = [cur] ->
    flush (newSegments (fold_left visit pts (mkSplit segs cur m)))
          (currentSegment (fold_left visit pts (mkSplit segs cur m)))
    = segs ++ filter long (runs keep cross (cur ++ pts)).
Proof.
  induction pts as [|p pts IH]; intros segs cur m Hcur; cbn [fold_left].
  - rewrite app_nil_r. cbn [newSegments currentSegment].
    destruct Hcur as [->|E].
    + cbn. now rewrite app_nil_r.
    + rewrite E. apply flush_long.
  - unfold Eraser.visit at 2 4.
    cbn [newSegments currentSegment strokeModified].
    destruct (keep p) eqn:K; cbn [negb].
    + destruct cur as [|c cs].
      * rewrite IH by (right; now rewrite runs_one, K). reflexivity.
      * destruct (cross (last (c :: cs) p) p) eqn:C.
        -- rewrite IH by (right; now rewrite runs_one, K).
           destruct Hcur as [Hcur|E]; [discriminate|].
           destruct (@exists_last _ (c :: cs)) as (l & a & El);
             [discriminate|].
           rewrite El in *. rewrite last_last in C.
           rewrite flush_long, <- !app_assoc, <- filter_app. cbn [app].
           rewrite runs_app_split, E; [reflexivity|].
           rewrite C. cbn. now rewrite !andb_false_r.
        -- destruct Hcur as [Hcur|E]; [discriminate|].
           rewrite IH by (right; now apply single_run_snoc).
           now rewrite <- app_assoc.
    + rewrite IH by now left. cbn [app].
      rewrite runs_removed by exact K.
      rewrite flush_long, filter_app, app_assoc.
      destruct Hcur as [->|E]; [reflexivity|now rewrite E].
Qed.

Lemma fold_visit_modified (pts : list Point) :
  forall segs cur m,
    cur = [] \/ runs keep cross cur = [cur] ->
    strokeModified (fold_left visit pts (mkSplit segs cur m))
    = m || touched keep cross
             (match cur with [] => pts | _ :: _ => last cur point :: pts end).
Proof.
  induction pts as [|p pts IH]; intros segs cur m Hcur; cbn [fold_left].
  - cbn [strokeModified]. destruct cur as [|c cs].
    + cbn. now rewrite orb_false_r.
    + destruct Hcur as [Hcur|E]; [discriminate|].
      cbn [touched].
      rewrite (single_run_kept _ _ _ E) by (apply last_in; discriminate).
      cbn. now rewrite orb_false_r.
  - unfold Eraser.visit at 2.
    cbn [newSegments currentSegment strokeModified].
    destruct (keep p) eqn:K; cbn [negb].
    + destruct cur as [|c cs].
      * rewrite IH by (right; now rewrite runs_one, K). reflexivity.
      * destruct Hcur as [Hcur|E]; [discriminate|].
        assert (Ka : keep (last (c :: cs) point) = true)
          by (apply (single_run_kept _ _ _ E), last_in; discriminate).
        assert (El : last (c :: cs) p = last (c :: cs) point).
        { destruct (@exists_last _ (c :: cs)) as (l & a & ->);
            [discriminate|]. now rewrite !last_last. }
        rewrite El. set (a := last (c :: cs) point) in *.
        destruct (cross a p) eqn:C.
        -- rewrite IH by (right; now rewrite runs_one, K).
           cbn [touched]. rewrite Ka, K, C. cbn.
           now rewrite orb_true_r.
        -- rewrite IH by (right; apply single_run_snoc; congruence).
           cbn [app]. change (c :: cs ++ [p]) with ((c :: cs) ++ [p]).
           rewrite last_last.
           cbn [touched]. rewrite Ka, K, C. reflexivity.
    + rewrite IH by now left. cbn [orb].
      destruct cur as [|c cs]; cbn [touched]; rewrite K; cbn;
        now rewrite ?orb_true_r.
Qed.

(** The loop over one stroke's points, against the specification's
    grouping: the segments are the runs of length at least 2, and the
    stroke counts as modified exactly when it is touched. *)
Lemma split_spec (pts : list Point) :
  split point previous radiusSq pts
  = (filter long (runs keep cross pts), touched keep cross pts).
Proof.
  unfold split.
  rewrite (fold_visit_segments pts [] [] false) by now left.
  rewrite (fold_visit_modified pts [] [] false) by now left.
  reflexivity.
Qed.

End PerStroke.

Section PerEvent.

Variable point : Point.
Variable previous : option Point.

(** The squared effective radius of a stroke. *)
Local Abbreviation r2 s := (radiusForStroke s * radiusForStroke s).
Local Abbreviation keep s := (keepPoint point previous (r2 s)).
Local Abbreviation cross s := (crosses point previous (r2 s)).

Lemma filter_long_twice (segs : list (list Point)) :
  filter (fun segment => negb (List.length segment <? 2)%nat)
         (filter long segs)
  = filter long segs.
Proof.
  induction segs as [|seg segs IH]; [reflexivity|].
  cbn [filter]. destruct (long seg) eqn:L; [|exact IH].
  cbn [filter]. rewrite IH.
  unfold long in L. apply Nat.ltb_lt in L.
  destruct (Nat.ltb_spec (List.length seg) 2); [lia|reflexivity].
Qed.

(** One stroke: untouched it passes through as it is; touched it is
    replaced by one stroke per run of at least two points. *)
Lemma eraseStroke_spec (s : Stroke.t) :
  eraseStroke point previous s =
  if touched (keep s) (cross s) (ptsOf s)
  then (map (strokeOfSegment s)
            (filter long (runs (keep s) (cross s) (ptsOf s))), true)
  else ([s], false).
Proof.
  unfold eraseStroke.
  destruct (ptsOf s) as [|p0 pts] eqn:E; [reflexivity|].
  cbn [List.length Nat.eqb]. rewrite split_spec.
  destruct (touched _ _ (p0 :: pts)); cbn [negb]; [|reflexivity].
  rewrite filter_long_twice.
  destruct (filter long _); reflexivity.
Qed.

Lemma eraseStrokes_from (strokes : list Stroke.t) :
  forall acc : list Stroke.t * bool,
    fold_left
      (fun (acc : list Stroke.t * bool) stroke =>
         let (out, m) := eraseStroke point previous stroke in
         (fst acc ++ out, snd acc || m))
      strokes acc
    = (fst acc ++ flat_map (fun s => fst (eraseStroke point previous s)) strokes,
       snd acc || existsb (fun s => snd (eraseStroke point previous s)) strokes).
Proof.
  induction strokes as [|s strokes IH]; intros [out m]; cbn.
  - now rewrite app_nil_r, orb_false_r.
  - destruct (eraseStroke point previous s) as [out1 m1].
    rewrite IH. cbn. now rewrite <- app_assoc, orb_assoc.
Qed.

(** The whole loop: the outputs of the strokes, concatenated in the
    order of the collection; modified when some stroke is. *)
Lemma eraseStrokes_spec (strokes : list Stroke.t) :
  eraseStrokes point previous strokes
  = (flat_map (fun s => fst (eraseStroke point previous s)) strokes,
     existsb (fun s => snd (eraseStroke point previous s)) strokes).
Proof. unfold eraseStrokes. now rewrite eraseStrokes_from. Qed.

Lemma eraseStrokes_app (l1 l2 : list Stroke.t) :
  eraseStrokes point previous (l1 ++ l2)
  = (fst (eraseStrokes point previous l1)
       ++ fst (eraseStrokes point previous l2),
     snd (eraseStrokes point previous l1)
       || snd (eraseStrokes point previous l2)).
Proof.
  rewrite !eraseStrokes_spec. cbn [fst snd].
  now rewrite flat_map_app, existsb_app.
Qed.

Lemma runs_long_in (s : Stroke.t) (run : list Point) :
  In run (runs (keep s) (cross s) (ptsOf s)) ->
  forall q, In q run -> In q (ptsOf s) /\ keep s q = true.
Proof.
  intros Hrun q Hq.
  assert (H : In q (List.concat (runs (keep s) (cross s) (ptsOf s))))
    by (apply in_concat; eauto).
  rewrite runs_concat in H. now apply filter_In in H.
Qed.

End PerEvent.

End EraserFacts.

(** * The eraser's contract *)

Section EraserClaims.

Import EraserFacts RunFacts MathFacts.

Variable point : Point.
Variable previous : option Point.

Local Abbreviation r2 s :=
  (Eraser.radiusForStroke s * Eraser.radiusForStroke s).
Local Abbreviation keep s := (Eraser.keepPoint point previous (r2 s)).
Local Abbreviation cross s := (Eraser.crosses point previous (r2 s)).
Local Abbreviation erase := (Eraser.eraseStroke point previous).

Lemma long_iff {A : Type} (run : list A) :
  long run = true <-> 2 <= List.length run.
Proof. unfold long. rewrite Nat.ltb_lt. lia. Qed.

Lemma keepPoint_false_iff (radiusSq : float) (pt : Point) :
  Eraser.keepPoint point previous radiusSq pt = false <->
  (distanceSquared pt point <=? radiusSq) = true
  \/ exists prev,
      previous = Some prev
      /\ ((distanceSquared pt prev <=? radiusSq) = true
          \/ (pointToSegmentDistanceSquared pt prev point <=? radiusSq) = true).
Proof.
  unfold Eraser.keepPoint, Eraser.pointerSegment.
  destruct (distanceSquared pt point <=? radiusSq); [intuition|].
  destruct previous as [prev|]; cbn [fst snd].
  - destruct (distanceSquared pt prev <=? radiusSq) eqn:D1.
    + split; [intros _|reflexivity]. right. exists prev. auto.
    + destruct (pointToSegmentDistanceSquared pt prev point <=? radiusSq)
        eqn:D2.
      * split; [intros _|reflexivity]. right. exists prev. auto.
      * split; [discriminate|].
        intros [H|(prev' & E & [H|H])]; try discriminate;
          injection E as <-; congruence.
  - split; [discriminate|].
    intros [H|(prev' & E & _)]; discriminate.
Qed.

(** Every point of a stroke the eraser emits for [s] is a kept point of [s]. *)
Lemma emitted_points_kept (s s' : Stroke.t) (pt : Point) :
  In s' (fst (erase s)) -> In pt (Eraser.ptsOf s') ->
  In pt (Eraser.ptsOf s) /\ keep s pt = true.
Proof.
  rewrite eraseStroke_spec.
  destruct (touched (keep s) (cross s) (Eraser.ptsOf s)) eqn:T; cbn [fst].
  - intros Hs' Hpt. apply in_map_iff in Hs' as (run & <- & Hrun).
    apply filter_In in Hrun as [Hrun _].
    exact (runs_long_in point previous s run Hrun pt Hpt).
  - intros [<-|[]] Hpt. split; [exact Hpt|].
    apply touched_false_iff in T as [K _]. now apply K.
Qed.

End EraserClaims.

(** C1: a point of a stroke is removed exactly when its squared distance to
    the contact point, or (a previous point being given) to the previous
    point or to the segment from the previous point to the contact point,
    is at most the square of the stroke's effective radius
    [max(0.015, width * 6)]; otherwise it is kept.  No removed point occurs
    in a stroke the eraser emits for this stroke. *)
Theorem C1_point_removed_iff_within_radius
  (point : Point) (previous : option Point) (s : Stroke.t) (w : float) :
  Stroke.width s = JS.Value w ->
  let radius := JS.Math_max [0.015; w * 6] in
  let radiusSq := radius * radius in
  BASE_ERASER_RADIUS = 0.015
  /\ Eraser.radiusForStroke s = radius
  /\ (is_nan (w * 6) = false ->
      (radius = 0.015 \/ radius = w * 6)
      /\ (0.015 <=? radius) = true /\ (w * 6 <=? radius) = true)
  /\ (forall pt,
        Eraser.keepPoint point previous radiusSq pt = false <->
        (distanceSquared pt point <=? radiusSq) = true
        \/ exists prev,
            previous = Some prev
            /\ ((distanceSquared pt prev <=? radiusSq) = true
                \/ (pointToSegmentDistanceSquared pt prev point <=? radiusSq)
                   = true))
  /\ (forall s' pt,
        In s' (fst (Eraser.eraseStroke point previous s)) ->
        In pt (Eraser.ptsOf s') ->
        Eraser.keepPoint point previous radiusSq pt = true).
Proof.
  intros Hw radius radiusSq.
  assert (Hr : Eraser.radiusForStroke s = radius).
  { unfold Eraser.radiusForStroke. now rewrite Hw. }
  split; [reflexivity|]. split; [exact Hr|]. split; [|split].
  - intros Hn.
    destruct (MathFacts.Math_max_greatest [0.015; w * 6]) as [Hin Hall].
    + discriminate.
    + repeat constructor. exact Hn.
    + fold radius in Hin, Hall.
      inversion Hall as [|? ? H1 Hall']; subst.
      inversion Hall' as [|? ? H2 _]; subst.
      destruct Hin as [E|[E|[]]]; auto.
  - intros pt. apply keepPoint_false_iff.
  - intros s' pt Hs' Hpt. subst radiusSq. rewrite <- Hr.
    exact (proj2 (emitted_points_kept point previous s s' pt Hs' Hpt)).
Qed.

Lemma C1_point_removed_iff_within_radius_witness :
  Eraser.radiusForStroke Examples.straight = 0.018000000000000002
  /\ Eraser.keepPoint (0, 0.5) None
       (0.018000000000000002 * 0.018000000000000002) (0, 0.5) = false
  /\ Eraser.keepPoint (0, 0.5) None
       (0.018000000000000002 * 0.018000000000000002) (0, 0.75) = true.
Proof.
  pose proof (C1_point_removed_iff_within_radius
                (0, 0.5) None Examples.straight 0.003 eq_refl) as H.
  cbv zeta in H. destruct H as (_ & Hr & _).
  split; [exact Hr|]. split; reflexivity.
Defined.

(** C2: when the erase event supplies a previous point, the kept points of
    a stroke are grouped into maximal runs of consecutive kept points, and a
    run is also broken between two consecutive kept points [p], [q] exactly
    when the segment-to-segment distance from [[p, q]] to the swept segment
    [[prev, point]] is within the effective radius; that distance is the
    minimum of the four point-to-segment distances.  After a break [p] ends
    the earlier run and [q] starts the next one.  (The loop stores the runs
    of at least two points.) *)
Theorem C2_runs_break_where_segment_is_swept
  (point prev : Point) (s : Stroke.t) :
  let radiusSq := Eraser.radiusForStroke s * Eraser.radiusForStroke s in
  let keep := Eraser.keepPoint point (Some prev) radiusSq in
  let cross := Eraser.crosses point (Some prev) radiusSq in
  let pts := Eraser.ptsOf s in
  Eraser.split point (Some prev) radiusSq pts
  = (filter long (runs keep cross pts), touched keep cross pts)
  /\ (forall l1 x l2,
        pts = l1 ++ x :: l2 -> keep x = false ->
        runs keep cross pts = runs keep cross l1 ++ runs keep cross l2)
  /\ (forall l1 p q l2,
        pts = l1 ++ p :: q :: l2 -> keep p = true -> keep q = true ->
        exists rs r r' rs',
          runs keep cross (l1 ++ [p]) = rs ++ [r ++ [p]]
          /\ runs keep cross (q :: l2) = (q :: r') :: rs'
          /\ runs keep cross pts
             = if cross p q
               then rs ++ [r ++ [p]] ++ [q :: r'] ++ rs'
               else rs ++ [r ++ p :: q :: r'] ++ rs')
  /\ (forall p q,
        cross p q = (segmentDistanceSquared p q prev point <=? radiusSq))
  /\ (forall a1 a2 b1 b2,
        let ds := [ pointToSegmentDistanceSquared a1 b1 b2;
                    pointToSegmentDistanceSquared a2 b1 b2;
                    pointToSegmentDistanceSquared b1 a1 a2;
                    pointToSegmentDistanceSquared b2 a1 a2 ] in
        segmentDistanceSquared a1 a2 b1 b2 = JS.Math_min ds
        /\ (MathFacts.nan_free ds ->
            In (segmentDistanceSquared a1 a2 b1 b2) ds
            /\ Forall (fun d => (segmentDistanceSquared a1 a2 b1 b2 <=? d) = true)
                      ds)).
Proof.
  intros radiusSq keep cross pts. split; [|split; [|split; [|split]]].
  - apply EraserFacts.split_spec.
  - intros l1 x l2 -> K. now apply RunFacts.runs_removed.
  - intros l1 p q l2 -> Kp Kq.
    destruct (RunFacts.runs_snoc_kept_last keep cross l1 p Kp) as (rs & r & E1).
    destruct (RunFacts.runs_cons_kept keep cross q l2 Kq) as (r' & rs' & E2).
    exists rs, r, r', rs'. split; [exact E1|]. split; [exact E2|].
    destruct (cross p q) eqn:C.
    + rewrite RunFacts.runs_app_split, E1, E2.
      * now rewrite <- app_assoc.
      * rewrite C. cbn. now rewrite andb_false_r.
    + rewrite (RunFacts.runs_app_join keep cross l1 p q l2 Kp Kq C
                 rs (r ++ [p]) (q :: r') rs' E1 E2).
      now rewrite <- app_assoc.
  - reflexivity.
  - intros a1 a2 b1 b2 ds. split; [reflexivity|].
    intros Hds. apply MathFacts.Math_min_least; [discriminate|exact Hds].
Qed.

(** C3 fails on a stroke the eraser does not touch: erasing the middle of
    the vertical stroke rewrites the collection, and the dot, which has one
    point and lies far from the contact, is written back with it. *)
Lemma C3_untouched_dot_is_written_back :
  Overlay.trace (Overlay.eraseWithPointer (0, 0.5) None Examples.dotted)
  = [ Overlay.EWrite
        {| strokes :=
             Some [ Examples.dot;
                    Eraser.strokeOfSegment Examples.straight [(0, 0); (0, 0.25)];
                    Eraser.strokeOfSegment Examples.straight [(0, 0.75); (0, 1)] ];
           others := [] |};
      Overlay.ERedraw ]
  /\ Eraser.ptsOf Examples.dot = [(0.9, 0.9)].
Proof. split; reflexivity. Qed.

(** C3, as the code has it: every stroke the eraser writes in place of a
    stroke it has touched (a point removed or a run broken) has at least two
    points: the runs shorter than 2 are discarded, and a 2-point stroke with
    the contact point within the effective radius of either of its points
    leaves no stroke at all.  A stroke the eraser did not touch is written
    back as it is, whatever the number of its points. *)
Theorem C3_survivors_have_two_points
  (point : Point) (previous : option Point) (strokes : list Stroke.t) :
  Forall (fun s' =>
            (In s' strokes
             /\ snd (Eraser.eraseStroke point previous s') = false)
            \/ 2 <= List.length (Eraser.ptsOf s'))
         (fst (Eraser.eraseStrokes point previous strokes))
  /\ (forall s,
        let radiusSq := Eraser.radiusForStroke s * Eraser.radiusForStroke s in
        snd (Eraser.eraseStroke point previous s) = true ->
        fst (Eraser.eraseStroke point previous s)
        = map (Eraser.strokeOfSegment s)
              (filter (fun run => (2 <=? List.length run)%nat)
                      (runs (Eraser.keepPoint point previous radiusSq)
                            (Eraser.crosses point previous radiusSq)
                            (Eraser.ptsOf s)))
        /\ Forall (fun s' => 2 <= List.length (Eraser.ptsOf s'))
                  (fst (Eraser.eraseStroke point previous s)))
  /\ (forall s p1 p2,
        let radiusSq := Eraser.radiusForStroke s * Eraser.radiusForStroke s in
        Eraser.ptsOf s = [p1; p2] ->
        (distanceSquared p1 point <=? radiusSq) = true
        \/ (distanceSquared p2 point <=? radiusSq) = true ->
        Eraser.eraseStroke point previous s = ([], true)).
Proof.
  assert (Hone : forall s,
             snd (Eraser.eraseStroke point previous s) = true ->
             fst (Eraser.eraseStroke point previous s)
             = map (Eraser.strokeOfSegment s)
                   (filter long
                      (runs (Eraser.keepPoint point previous
                               (Eraser.radiusForStroke s * Eraser.radiusForStroke s))
                            (Eraser.crosses point previous
                               (Eraser.radiusForStroke s * Eraser.radiusForStroke s))
                            (Eraser.ptsOf s)))
             /\ Forall (fun s' => 2 <= List.length (Eraser.ptsOf s'))
                       (fst (Eraser.eraseStroke point previous s))).
  { intros s. rewrite EraserFacts.eraseStroke_spec.
    destruct (touched _ _ (Eraser.ptsOf s)); cbn [fst snd]; [|discriminate].
    intros _. split; [reflexivity|].
    apply Forall_forall. intros s' Hs'.
    apply in_map_iff in Hs' as (run & <- & Hrun).
    apply filter_In in Hrun as [_ L]. now apply long_iff in L. }
  split; [|split].
  - rewrite EraserFacts.eraseStrokes_spec. cbn [fst].
    apply Forall_forall. intros s' Hs'.
    apply in_flat_map in Hs' as (s & Hs & Hs').
    destruct (snd (Eraser.eraseStroke point previous s)) eqn:M.
    + right. destruct (Hone s M) as [_ H].
      rewrite Forall_forall in H. now apply H.
    + left. rewrite EraserFacts.eraseStroke_spec in M, Hs'.
      destruct (touched _ _ (Eraser.ptsOf s)) eqn:T; [discriminate|].
      destruct Hs' as [<-|[]]. split; [exact Hs|].
      rewrite EraserFacts.eraseStroke_spec, T. reflexivity.
  - intros s radiusSq M. destruct (Hone s M) as [E H]. split; [|exact H].
    rewrite E. reflexivity.
  - intros s p1 p2 radiusSq E Hnear.
    rewrite EraserFacts.eraseStroke_spec, E. fold radiusSq.
    assert (K : Eraser.keepPoint point previous radiusSq p1 = false
                \/ Eraser.keepPoint point previous radiusSq p2 = false).
    { destruct Hnear as [H|H]; [left|right];
        apply keepPoint_false_iff; now left. }
    cbn [touched runs].
    destruct (Eraser.keepPoint point previous radiusSq p1) eqn:K1,
             (Eraser.keepPoint point previous radiusSq p2) eqn:K2;
      cbn; try reflexivity.
    destruct K; discriminate.
Qed.

(** C5: a stroke is erased when one of its points is removed or one of
    its segments is swept; such a stroke is replaced, where it stood in the
    collection, by the strokes made of its surviving runs of at least two
    points, in order, and any other stroke stays as it is.  The stroke made
    of a run has the original's tool, width, color and alpha and exactly the
    run as its points; when the original has a basis the new basis keeps
    width, height, anchorLine and anchorLineTop and takes minY and maxY from
    the smallest and largest y of the run's own points. *)
Theorem C5_surviving_runs_become_strokes_in_place
  (point : Point) (previous : option Point) (strokes : list Stroke.t) :
  fst (Eraser.eraseStrokes point previous strokes)
  = flat_map (fun s => fst (Eraser.eraseStroke point previous s)) strokes
  /\ (forall s,
        let radiusSq := Eraser.radiusForStroke s * Eraser.radiusForStroke s in
        let keep := Eraser.keepPoint point previous radiusSq in
        let cross := Eraser.crosses point previous radiusSq in
        let erased := touched keep cross (Eraser.ptsOf s) in
        let survivors :=
          filter (fun run => (2 <=? List.length run)%nat)
                 (runs keep cross (Eraser.ptsOf s)) in
        (erased = false <->
         (forall pt, In pt (Eraser.ptsOf s) -> keep pt = true)
         /\ (forall l1 a b l2,
                Eraser.ptsOf s = l1 ++ a :: b :: l2 -> cross a b = false))
        /\ Eraser.eraseStroke point previous s
           = (if erased
              then (map (Eraser.strokeOfSegment s) survivors, true)
              else ([s], false))
        /\ (erased = true ->
            (forall before after,
                fst (Eraser.eraseStrokes point previous (before ++ s :: after))
                = fst (Eraser.eraseStrokes point previous before)
                  ++ map (Eraser.strokeOfSegment s) survivors
                  ++ fst (Eraser.eraseStrokes point previous after))
            /\ (forall run,
                   In run (runs keep cross (Eraser.ptsOf s)) ->
                   2 <= List.length run ->
                   In (Eraser.strokeOfSegment s run)
                      (fst (Eraser.eraseStroke point previous s)))))
  /\ (forall s run,
        let s' := Eraser.strokeOfSegment s run in
        let ys := map snd run in
        Stroke.tool s' = Stroke.tool s
        /\ Stroke.width s' = Stroke.width s
        /\ Stroke.color s' = Stroke.color s
        /\ Stroke.alpha s' = Stroke.alpha s
        /\ Stroke.points s' = Some run
        /\ (Stroke.basis s = None -> Stroke.basis s' = None)
        /\ (forall b,
              Stroke.basis s = Some b ->
              exists b',
                Stroke.basis s' = Some b'
                /\ StrokeBasis.width b' = StrokeBasis.width b
                /\ StrokeBasis.height b' = StrokeBasis.height b
                /\ StrokeBasis.anchorLine b' = StrokeBasis.anchorLine b
                /\ StrokeBasis.anchorLineTop b' = StrokeBasis.anchorLineTop b
                /\ StrokeBasis.minY b' = JS.Math_min ys
                /\ StrokeBasis.maxY b' = JS.Math_max ys
                /\ (2 <= List.length run -> MathFacts.nan_free ys ->
                    In (StrokeBasis.minY b') ys
                    /\ Forall (fun y => (StrokeBasis.minY b' <=? y) = true) ys
                    /\ In (StrokeBasis.maxY b') ys
                    /\ Forall (fun y => (y <=? StrokeBasis.maxY b') = true) ys))).
Proof.
  split; [|split].
  - now rewrite EraserFacts.eraseStrokes_spec.
  - intros s radiusSq keep cross erased survivors.
    assert (Hspec : Eraser.eraseStroke point previous s
                    = (if erased
                       then (map (Eraser.strokeOfSegment s) survivors, true)
                       else ([s], false))).
    { exact (EraserFacts.eraseStroke_spec point previous s). }
    split; [apply RunFacts.touched_false_iff|].
    split; [exact Hspec|].
    intros Herased. rewrite Herased in Hspec. split.
    + intros before after. rewrite !EraserFacts.eraseStrokes_spec.
      cbn [fst]. rewrite flat_map_app. cbn [flat_map].
      now rewrite Hspec.
    + intros run Hrun Hlen. rewrite Hspec. cbn [fst].
      apply in_map, filter_In. split; [exact Hrun|].
      now apply Nat.leb_le.
  - intros s run s' ys. subst s'.
    unfold Eraser.strokeOfSegment, Eraser.segBasis. cbn.
    repeat (split; [reflexivity|]). split.
    + now intros ->.
    + intros b ->. eexists. split; [reflexivity|]. cbn.
      repeat (split; [reflexivity|]).
      intros Hlen Hys.
      assert (Hne : ys <> []).
      { subst ys. destruct run; [cbn in Hlen; lia|discriminate]. }
      destruct (MathFacts.Math_min_least ys Hne Hys) as [H1 H2].
      destruct (MathFacts.Math_max_greatest ys Hne Hys) as [H3 H4].
      auto.
Qed.

Lemma C5_surviving_runs_become_strokes_in_place_witness :
  Eraser.eraseStroke (0, 0.5) None Examples.straight
  = ([ Eraser.strokeOfSegment Examples.straight [(0, 0); (0, 0.25)];
       Eraser.strokeOfSegment Examples.straight [(0, 0.75); (0, 1)] ],
     true).
Proof.
  destruct (C5_surviving_runs_become_strokes_in_place (0, 0.5) None [])
    as (_ & H & _).
  destruct (H Examples.straight) as (_ & Hs & _). exact Hs.
Defined.

(** C10: a stroke whose points array is empty or missing is pushed back
    unchanged before any radius test: it does not count as modified and it
    is never dropped, wherever it stands in the collection. *)
Theorem C10_empty_stroke_passes_through
  (point : Point) (previous : option Point) (s : Stroke.t) :
  Stroke.points s = None \/ Stroke.points s = Some [] ->
  Eraser.eraseStroke point previous s = ([s], false)
  /\ (forall before after,
        Eraser.eraseStrokes point previous (before ++ s :: after)
        = (fst (Eraser.eraseStrokes point previous before)
             ++ s :: fst (Eraser.eraseStrokes point previous after),
           snd (Eraser.eraseStrokes point previous before)
             || snd (Eraser.eraseStrokes point previous after)))
  /\ (forall strokes,
        In s strokes ->
        In s (fst (Eraser.eraseStrokes point previous strokes))).
Proof.
  intros Hpts.
  assert (E : Eraser.eraseStroke point previous s = ([s], false)).
  { unfold Eraser.eraseStroke, Eraser.ptsOf.
    destruct Hpts as [-> | ->]; reflexivity. }
  assert (Happ : forall before after,
             Eraser.eraseStrokes point previous (before ++ s :: after)
             = (fst (Eraser.eraseStrokes point previous before)
                  ++ s :: fst (Eraser.eraseStrokes point previous after),
                snd (Eraser.eraseStrokes point previous before)
                  || snd (Eraser.eraseStrokes point previous after))).
  { intros before after.
    rewrite EraserFacts.eraseStrokes_app.
    change (s :: after) with ([s] ++ after).
    rewrite (EraserFacts.eraseStrokes_app point previous [s] after).
    rewrite (EraserFacts.eraseStrokes_spec point previous [s]).
    cbn [flat_map existsb fst snd app]. rewrite E. reflexivity. }
  split; [exact E|]. split; [exact Happ|].
  intros strokes Hin. apply in_split in Hin as (before & after & ->).
  rewrite Happ. cbn [fst]. apply in_or_app. right. now left.
Qed.

Lemma C10_empty_stroke_passes_through_witness :
  Eraser.eraseStroke (0, 0.5) None Examples.blank = ([Examples.blank], false)
  /\ Eraser.eraseStroke (0, 0.5) None Examples.pointless
     = ([Examples.pointless], false)
  /\ In Examples.blank
        (fst (Eraser.eraseStrokes (0, 0.5) None
                [Examples.straight; Examples.blank])).
Proof.
  pose proof (C10_empty_stroke_passes_through (0, 0.5) None Examples.blank
                (or_intror eq_refl)) as (H1 & _ & H3).
  pose proof (C10_empty_stroke_passes_through (0, 0.5) None Examples.pointless
                (or_introl eq_refl)) as (H2 & _).
  split; [exact H1|]. split; [exact H2|].
  apply H3. right. now left.
Defined.

(** An erase event that touches no stroke of the cell leaves the cell as
    it is. *)
Lemma eraseWithPointer_untouched
  (point : Point) (previous : option Point) (c : Overlay.Cell) :
  (forall s,
      In s (Overlay.strokesOf (Overlay.readMeta c)) ->
      touched
        (Eraser.keepPoint point previous
           (Eraser.radiusForStroke s * Eraser.radiusForStroke s))
        (Eraser.crosses point previous
           (Eraser.radiusForStroke s * Eraser.radiusForStroke s))
        (Eraser.ptsOf s) = false) ->
  Eraser.eraseStrokes point previous (Overlay.strokesOf (Overlay.readMeta c))
  = (Overlay.strokesOf (Overlay.readMeta c), false)
  /\ Overlay.eraseWithPointer point previous c = c.
Proof.
  intros Hun.
  assert (E : Eraser.eraseStrokes point previous
                (Overlay.strokesOf (Overlay.readMeta c))
              = (Overlay.strokesOf (Overlay.readMeta c), false)).
  { rewrite EraserFacts.eraseStrokes_spec.
    induction (Overlay.strokesOf (Overlay.readMeta c)) as [|s l IH];
      [reflexivity|].
    cbn [flat_map existsb].
    rewrite EraserFacts.eraseStroke_spec, (Hun s) by now left.
    cbn [fst snd app orb].
    assert (IH' := IH (fun s' Hs' => Hun s' (or_intror Hs'))).
    injection IH' as -> ->. reflexivity. }
  split; [exact E|].
  unfold Overlay.eraseWithPointer. now rewrite E.
Qed.

(** C4: when the erase event removes no point of any stroke and breaks no
    run, every stroke passes through unmodified, nothing is written to the
    store and no redraw is requested; repeating the erase at the same
    contact any number of times, and more generally any sequence of such
    erase events, leaves the stored collection unchanged. *)
Theorem C4_untouched_collection_is_not_rewritten
  (point : Point) (previous : option Point) (c : Overlay.Cell) :
  let strokes := Overlay.strokesOf (Overlay.readMeta c) in
  (forall s pt,
      In s strokes -> In pt (Eraser.ptsOf s) ->
      Eraser.keepPoint point previous
        (Eraser.radiusForStroke s * Eraser.radiusForStroke s) pt = true) ->
  (forall s l1 a b l2,
      In s strokes -> Eraser.ptsOf s = l1 ++ a :: b :: l2 ->
      Eraser.crosses point previous
        (Eraser.radiusForStroke s * Eraser.radiusForStroke s) a b = false) ->
  Eraser.eraseStrokes point previous strokes = (strokes, false)
  /\ Overlay.eraseWithPointer point previous c = c
  /\ Overlay.metadata (Overlay.eraseWithPointer point previous c)
     = Overlay.metadata c
  /\ Overlay.trace (Overlay.eraseWithPointer point previous c)
     = Overlay.trace c
  /\ (forall n,
        Nat.iter n (Overlay.eraseWithPointer point previous) c = c)
  /\ (forall events : list (Point * option Point),
        Forall (fun event =>
                  forall s,
                    In s strokes ->
                    touched
                      (Eraser.keepPoint (fst event) (snd event)
                         (Eraser.radiusForStroke s * Eraser.radiusForStroke s))
                      (Eraser.crosses (fst event) (snd event)
                         (Eraser.radiusForStroke s * Eraser.radiusForStroke s))
                      (Eraser.ptsOf s) = false)
               events ->
        fold_left
          (fun cell event =>
             Overlay.eraseWithPointer (fst event) (snd event) cell)
          events c
        = c).
Proof.
  intros strokes Hkeep Hcross.
  destruct (eraseWithPointer_untouched point previous c) as [E Hc].
  { intros s Hs. apply RunFacts.touched_false_iff. split.
    - intros x Hx. now apply Hkeep.
    - intros l1 a b l2 El. now apply (Hcross s l1 a b l2). }
  split; [exact E|]. split; [exact Hc|].
  rewrite Hc. split; [reflexivity|]. split; [reflexivity|]. split.
  - induction n as [|n IH]; [reflexivity|].
    rewrite Nat.iter_succ, IH. exact Hc.
  - induction 1 as [|event events Hev _ IH]; [reflexivity|].
    cbn [fold_left].
    rewrite (proj2 (eraseWithPointer_untouched (fst event) (snd event) c Hev)).
    exact IH.
Qed.

Lemma C4_untouched_collection_is_not_rewritten_witness :
  Overlay.eraseWithPointer (0.5, 0.5) (Some (0.5, 0.4)) Examples.cell
  = Examples.cell
  /\ Nat.iter 3 (Overlay.eraseWithPointer (0.5, 0.5) (Some (0.5, 0.4)))
              Examples.cell
     = Examples.cell.
Proof.
  assert (T : forall s,
             In s [Examples.straight; Examples.blank] ->
             touched
               (Eraser.keepPoint (0.5, 0.5) (Some (0.5, 0.4))
                  (Eraser.radiusForStroke s * Eraser.radiusForStroke s))
               (Eraser.crosses (0.5, 0.5) (Some (0.5, 0.4))
                  (Eraser.radiusForStroke s * Eraser.radiusForStroke s))
               (Eraser.ptsOf s) = false).
  { intros s [<-|[<-|[]]]; vm_compute; reflexivity. }
  destruct (C4_untouched_collection_is_not_rewritten
              (0.5, 0.5) (Some (0.5, 0.4)) Examples.cell)
    as (_ & H & _ & _ & Hn & _).
  - intros s pt Hs Hpt.
    apply (proj1 (proj1 (RunFacts.touched_false_iff _ _ _) (T s Hs))), Hpt.
  - intros s l1 a b l2 Hs E.
    apply (proj2 (proj1 (RunFacts.touched_false_iff _ _ _) (T s Hs)) l1 a b l2 E).
  - split; [exact H|apply Hn].
Defined.

(** * The renderer's contract *)

Lemma map_endpoint_pathOf (env : Renderer.Env) (s : Stroke.t) (pts : list Point) :
  map Renderer.endpoint (Renderer.pathOf env s pts)
  = map (Renderer.pixel env s) pts.
Proof.
  destruct pts as [|p0 rest]; [reflexivity|].
  cbn [Renderer.pathOf map Renderer.endpoint]. rewrite map_map.
  reflexivity.
Qed.

(** A positive number is truthy, so the guard [x && x > 0] is the test
    [x > 0]. *)
Lemma positive_truthy (x : float) : (0 <? x) = true -> JS.truthy x = true.
Proof.
  intros Hpos. unfold JS.truthy.
  destruct (is_nan x) eqn:En.
  - rewrite ltb_spec, (FloatOrder.Prim2SF_nan x En) in Hpos. discriminate.
  - rewrite andb_true_r. destruct (x =? 0) eqn:Ez; [|reflexivity].
    rewrite eqb_spec in Ez. rewrite ltb_spec in Hpos.
    change (Prim2SF 0) with (S754_zero false) in *.
    destruct (Prim2SF x) as [[]|[]| |[] m e]; discriminate.
Qed.

(** The scale of a stroke with a basis: the basis's own width and height
    where they are positive numbers, the live size otherwise. *)
Lemma basis_scale (env : Renderer.Env) (s : Stroke.t) (b : StrokeBasis.t) :
  Stroke.basis s = Some b ->
  Renderer.basisWidth env s
  = (if 0 <? StrokeBasis.width b then StrokeBasis.width b
     else Renderer.W env)
  /\ Renderer.basisHeight env s
     = (if 0 <? StrokeBasis.height b then StrokeBasis.height b
        else Renderer.H env).
Proof.
  intros Hb. unfold Renderer.basisWidth, Renderer.basisHeight. rewrite Hb.
  split.
  - destruct (0 <? StrokeBasis.width b) eqn:E.
    + now rewrite (positive_truthy _ E).
    + now rewrite andb_false_r.
  - destruct (0 <? StrokeBasis.height b) eqn:E.
    + now rewrite (positive_truthy _ E).
    + now rewrite andb_false_r.
Qed.

(** C6: a stroke with a basis is scaled by the basis's own width and
    height, where these are positive numbers (by the live width and height
    otherwise).  With an anchor line, when the live height is at least the
    basis height and the editor resolves the anchor line, [deltaY] is the
    line's current top minus [anchorLineTop * basisHeight]; otherwise
    [deltaY] is 0; each point [(nx, ny)] is drawn at
    [(nx * basisWidth, ny * basisHeight + deltaY)] and the line width is
    [width * basisWidth]. *)
Theorem C6_anchor_shift_and_scaling
  (env : Renderer.Env) (s : Stroke.t) (b : StrokeBasis.t)
  (line topNorm w : float) (pts : list Point) :
  Stroke.basis s = Some b ->
  StrokeBasis.anchorLine b = Some line ->
  StrokeBasis.anchorLineTop b = Some topNorm ->
  Stroke.width s = JS.Value w ->
  Stroke.points s = Some pts ->
  let liveWidth := JS.or_else (Renderer.clientWidth env) 1 in
  let liveHeight := JS.or_else (Renderer.clientHeight env) 1 in
  let basisWidth :=
    if 0 <? StrokeBasis.width b then StrokeBasis.width b else liveWidth in
  let basisHeight :=
    if 0 <? StrokeBasis.height b then StrokeBasis.height b else liveHeight in
  let deltaY := Renderer.deltaY env s in
  (forall getCoordinateForPosition lineTop,
      (basisHeight <=? liveHeight) = true ->
      Renderer.editor env = Some getCoordinateForPosition ->
      getCoordinateForPosition line = Some lineTop ->
      let currentTop := lineTop - Renderer.contentTop env in
      deltaY = currentTop - topNorm * basisHeight)
  /\ ((basisHeight <=? liveHeight) = false
      \/ Renderer.editor env = None
      \/ (exists getCoordinateForPosition,
             Renderer.editor env = Some getCoordinateForPosition
             /\ getCoordinateForPosition line = None) ->
      deltaY = 0)
  /\ exists drawing,
      Renderer.drawStroke env s = Some drawing
      /\ map Renderer.endpoint (Renderer.path drawing)
         = map (fun pt => (fst pt * basisWidth, snd pt * basisHeight + deltaY))
               pts
      /\ Renderer.lineWidth drawing = w * basisWidth.
Proof.
  intros Hb Hline Htop Hw Hpts liveWidth liveHeight basisWidth basisHeight
         deltaY.
  destruct (basis_scale env s b Hb) as [HW HH].
  fold liveWidth in HW. fold liveHeight in HH.
  change (Renderer.W env) with liveWidth in HW.
  change (Renderer.H env) with liveHeight in HH.
  fold basisWidth in HW. fold basisHeight in HH.
  assert (HdY : deltaY
                = match Renderer.editor env with
                  | Some getCoordinateForPosition =>
                      if basisHeight <=? liveHeight then
                        match getCoordinateForPosition line with
                        | Some lineTop =>
                            lineTop - Renderer.contentTop env
                            - topNorm * basisHeight
                        | None => 0
                        end
                      else 0
                  | None => 0
                  end).
  { subst deltaY. rewrite <- HH.
    unfold Renderer.deltaY, Renderer.anchorLine, Renderer.anchorLineTopNorm,
      Renderer.actualHeight.
    rewrite Hb, Hline, Htop. reflexivity. }
  split; [|split].
  - intros g lineTop Hh Hed Hg currentTop. rewrite HdY, Hed, Hh, Hg.
    reflexivity.
  - intros [Hh|[Hed|(g & Hed & Hg)]]; rewrite HdY.
    + destruct (Renderer.editor env); [now rewrite Hh|reflexivity].
    + now rewrite Hed.
    + rewrite Hed, Hg. now destruct (basisHeight <=? liveHeight).
  - unfold Renderer.drawStroke. rewrite Hpts. eexists. split; [reflexivity|].
    cbn [Renderer.path Renderer.lineWidth]. split.
    + rewrite <- HW, <- HH. apply map_endpoint_pathOf.
    + unfold Renderer.lineWidthOf, Renderer.actualWidth.
      now rewrite Hw, HW.
Qed.

Lemma C6_anchor_shift_and_scaling_witness :
  Renderer.deltaY Examples.widened Examples.anchored = 20
  /\ exists drawing,
      Renderer.drawStroke Examples.widened Examples.anchored = Some drawing
      /\ map Renderer.endpoint (Renderer.path drawing)
         = [(0.1 * 200, 0.1 * 100 + 20); (0.1 * 200, 0.2 * 100 + 20);
            (0.1 * 200, 0.3 * 100 + 20)]
      /\ Renderer.lineWidth drawing = 0.003 * 200.
Proof.
  destruct (C6_anchor_shift_and_scaling
              Examples.widened Examples.anchored
              (StrokeBasis.mk 200 100 0.1 0.3 (Some 3) (Some 0.2))
              3 0.2 0.003 [(0.1, 0.1); (0.1, 0.2); (0.1, 0.3)]
              eq_refl eq_refl eq_refl eq_refl eq_refl)
    as (Hd & _ & Hp).
  split.
  - exact (Hd (fun line => if line =? 3 then Some 52 else None) 52
              eq_refl eq_refl eq_refl).
  - exact Hp.
Defined.

(** C9 fails on a pen stroke that carries an alpha: the stored alpha is
    one half and the stroke is drawn with alpha 1. *)
Lemma C9_pen_alpha_is_ignored :
  Stroke.tool Examples.faint = pen
  /\ Stroke.alpha Examples.faint = Some 0.5
  /\ option_map Renderer.globalAlpha
       (Renderer.drawStroke Examples.page Examples.faint) = Some 1
  /\ (1 =? 0.5) = false.
Proof. repeat split. Qed.

(** C9, as the code has it: a highlighter stroke is drawn with its alpha
    when present and with 0.3 when absent; a pen stroke is always drawn
    with alpha 1, whatever alpha it carries.  A stroke started by the
    pointer carries alpha 1 for the pen and 0.3 for the highlighter, so it
    is drawn with the alpha it carries. *)
Theorem C9_rendering_alpha
  (env : Renderer.Env) (s : Stroke.t) (drawing : Renderer.Drawing) :
  Renderer.drawStroke env s = Some drawing ->
  Renderer.globalAlpha drawing
  = match Stroke.tool s, Stroke.alpha s with
    | highlighter, Some a => a
    | highlighter, None => 0.3
    | pen, _ => 1
    end
  /\ (forall env0 tool widthNorm color firstPoint,
        let started := Renderer.beginStroke env0 tool widthNorm color firstPoint in
        Stroke.alpha started
        = Some (match tool with pen => 1 | highlighter => 0.3 end)
        /\ option_map Renderer.globalAlpha (Renderer.drawStroke env started)
           = Stroke.alpha started).
Proof.
  intros Hd. split.
  - unfold Renderer.drawStroke in Hd.
    destruct (Stroke.points s); [|discriminate]. injection Hd as <-.
    unfold Renderer.alphaOf. cbn [Renderer.globalAlpha].
    destruct (Stroke.tool s), (Stroke.alpha s); reflexivity.
  - intros env0 tool widthNorm color firstPoint. destruct tool; split; reflexivity.
Qed.

Lemma C9_rendering_alpha_witness :
  exists drawing,
    Renderer.drawStroke Examples.page Examples.faint = Some drawing
    /\ Renderer.globalAlpha drawing = 1.
Proof.
  eexists. split; [reflexivity|].
  exact (proj1 (C9_rendering_alpha Examples.page Examples.faint _ eq_refl)).
Defined.

(** * Change notifications *)

Lemma isMetaKey_iff (k : string) (props : list (string * Overlay.Atom)) :
  Overlay.isMetaKey k props = true
  <-> Overlay.lookup k props = Some (Overlay.AString META_KEY).
Proof.
  unfold Overlay.isMetaKey.
  destruct (Overlay.lookup k props) as [[| |b|x|s]|]; try (split; discriminate).
  rewrite String.eqb_eq. split; [now intros ->|congruence].
Qed.

Lemma has_false_iff (k : string) (props : list (string * Overlay.Atom)) :
  Overlay.has k props = false <-> Overlay.lookup k props = None.
Proof.
  unfold Overlay.has. destruct (Overlay.lookup k props); split; congruence.
Qed.

(** C8 fails on an object notification whose [name] is the overlay key
    while its [key] names another entry: its [name] field equals the fixed
    key and no redraw follows.  Nor does a redraw follow an object that has
    neither field, although its shape is not a recognized one. *)
Lemma C8_name_match_is_skipped :
  Overlay.lookup "name" [("key"%string, Overlay.AString "tags");
                         ("name"%string, Overlay.AString "overlay_v1")]
  = Some (Overlay.AString META_KEY)
  /\ Overlay.onMetadataChanged Examples.conflicting Examples.cell
     = Examples.cell
  /\ Overlay.trace
       (Overlay.onMetadataChanged Examples.conflicting Examples.cell) = []
  /\ Overlay.onMetadataChanged Examples.shapeless Examples.cell
     = Examples.cell.
Proof. repeat split. Qed.

(** C8, as the code has it: a notification triggers a redraw exactly when
    it is not an object (null, undefined, a primitive or a function: the
    shape that is not recognized), or it is an object whose [key] field is
    the fixed key, or it is an object without a [key] field whose [name]
    field is the fixed key.  An object with a [key] field other than the
    fixed key triggers nothing, whatever its [name]; an object with neither
    field triggers nothing.  The handler only ever requests a redraw: the
    stored metadata is left as it is and nothing is written. *)
Theorem C8_redraw_on_matching_notification
  (change : Overlay.Change) (c : Overlay.Cell) :
  let matches :=
    (forall props, change <> Overlay.ChangeObject props)
    \/ exists props,
        change = Overlay.ChangeObject props
        /\ (Overlay.lookup "key" props = Some (Overlay.AString META_KEY)
            \/ (Overlay.lookup "key" props = None
                /\ Overlay.lookup "name" props
                   = Some (Overlay.AString META_KEY))) in
  (matches -> Overlay.onMetadataChanged change c = Overlay.redraw c)
  /\ (~ matches -> Overlay.onMetadataChanged change c = c)
  /\ (Overlay.trace (Overlay.onMetadataChanged change c)
      = Overlay.trace c ++ [Overlay.ERedraw] <-> matches)
  /\ Overlay.metadata (Overlay.onMetadataChanged change c) = Overlay.metadata c
  /\ (forall payload,
        In (Overlay.EWrite payload)
           (Overlay.trace (Overlay.onMetadataChanged change c)) ->
        In (Overlay.EWrite payload) (Overlay.trace c)).
Proof.
  intros matches.
  assert (Hdec : (matches /\ Overlay.onMetadataChanged change c = Overlay.redraw c)
                 \/ (~ matches /\ Overlay.onMetadataChanged change c = c)).
  { subst matches. destruct change as [a| |props]; cbn [Overlay.onMetadataChanged].
    - left. split; [left; discriminate|reflexivity].
    - left. split; [left; discriminate|reflexivity].
    - destruct (Overlay.has "key" props) eqn:Hk.
      + destruct (Overlay.isMetaKey "key" props) eqn:Mk.
        * left. split; [|reflexivity]. right. exists props. split; [reflexivity|].
          left. now apply isMetaKey_iff.
        * right. split; [|reflexivity].
          intros [H|(props' & E & [H|[H _]])].
          -- now apply (H props).
          -- injection E as <-. apply isMetaKey_iff in H. congruence.
          -- injection E as <-. apply has_false_iff in H. congruence.
      + destruct (Overlay.has "name" props && Overlay.isMetaKey "name" props)
          eqn:Mn.
        * left. split; [|reflexivity]. right. exists props. split; [reflexivity|].
          right. apply andb_prop in Mn as [_ Mn].
          split; [now apply has_false_iff|now apply isMetaKey_iff].
        * right. split; [|reflexivity].
          intros [H|(props' & E & [H|[_ H]])].
          -- now apply (H props).
          -- injection E as <-. apply has_false_iff in Hk. congruence.
          -- injection E as <-. apply isMetaKey_iff in H.
             unfold Overlay.has, Overlay.isMetaKey in *.
             destruct (Overlay.lookup "name" props) as [[]|]; cbn in *;
               congruence. }
  assert (Hneq : forall l : list Overlay.Effect, l <> l ++ [Overlay.ERedraw]).
  { intros l E. apply (f_equal (@List.length _)) in E.
    rewrite length_app in E. cbn in E. lia. }
  destruct Hdec as [[Hm E]|[Hm E]]; rewrite E;
    (split; [|split; [|split; [|split]]]); cbn [Overlay.redraw Overlay.trace Overlay.metadata];
    try tauto; try reflexivity.
  - intros payload H. apply in_app_or in H as [H|[H|[]]];
      [exact H|discriminate].
  - split; [|tauto]. intros H. now apply Hneq in H.
Qed.

(** * Reading metadata: independent copies *)

Module SynchronizerFacts.

Import Synchronizer.

(** Induction on plain data, with the hypothesis on every element. *)
Lemma JSValue_induction (P : JSValue -> Prop) :
  P JUndefined -> P JNull -> (forall b, P (JBool b)) ->
  (forall x, P (JNumber x)) -> (forall s, P (JString s)) ->
  (forall z, P (JBigInt z)) -> (forall id, P (JFunction id)) ->
  (forall id elems, Forall P elems -> P (JArray id elems)) ->
  (forall id keys vals, Forall P vals -> P (JObject id keys vals)) ->
  forall v, P v.
Proof.
  intros Hu Hn Hb Hx Hs Hz Hf Ha Ho. fix IH 1.
  intros [ | |b|x|s|z|id|id elems|id keys vals];
    [exact Hu|exact Hn|apply Hb|apply Hx|apply Hs|apply Hz|apply Hf| | ].
  - apply Ha. revert elems. fix aux 1.
    intros [|e elems]; constructor; [apply IH|apply aux].
  - apply Ho. revert vals. fix aux 1.
    intros [|e vals]; constructor; [apply IH|apply aux].
Qed.

Lemma map_id_on {A : Type} (f : A -> A) (l : list A) :
  Forall (fun x => f x = x) l -> map f l = l.
Proof. induction 1; cbn; congruence. Qed.

(** Mutating an object that a value does not hold leaves the value as it
    is. *)
Lemma mutate_fresh (target : nat) (f : JSValue -> JSValue) (v : JSValue) :
  ~ In target (ids v) -> mutate target f v = v.
Proof.
  induction v as [ | |b|x|s|z|id|id elems IH|id keys vals IH]
    using JSValue_induction; cbn [mutate ids]; intros Hfresh;
    try reflexivity.
  - destruct (Nat.eqb_spec id target); [|reflexivity].
    exfalso. apply Hfresh. now left.
  - destruct (Nat.eqb_spec id target);
      [exfalso; apply Hfresh; now left|].
    f_equal. apply map_id_on. rewrite Forall_forall in *.
    intros e He. apply IH; [exact He|].
    intros Hin. apply Hfresh. right. apply in_flat_map. eauto.
  - destruct (Nat.eqb_spec id target);
      [exfalso; apply Hfresh; now left|].
    f_equal. apply map_id_on. rewrite Forall_forall in *.
    intros e He. apply IH; [exact He|].
    intros Hin. apply Hfresh. right. apply in_flat_map. eauto.
Qed.

Lemma flat_map_ids_relabel (f : nat -> nat) (l : list JSValue) :
  Forall (fun v => ids (relabel f v) = map f (ids v)) l ->
  flat_map ids (map (relabel f) l) = map f (flat_map ids l).
Proof.
  induction 1 as [|v l Hv _ IH]; [reflexivity|].
  cbn. now rewrite map_app, Hv, IH.
Qed.

Lemma ids_relabel (f : nat -> nat) (v : JSValue) :
  ids (relabel f v) = map f (ids v).
Proof.
  induction v as [ | |b|x|s|z|id|id elems IH|id keys vals IH]
    using JSValue_induction; cbn [relabel ids map]; try reflexivity;
    now rewrite flat_map_ids_relabel.
Qed.

Lemma content_relabel (f : nat -> nat) (v : JSValue) :
  content (relabel f v) = content v.
Proof.
  unfold content.
  induction v as [ | |b|x|s|z|id|id elems IH|id keys vals IH]
    using JSValue_induction; cbn [relabel]; try reflexivity;
    f_equal; rewrite map_map; apply map_ext_in;
    rewrite Forall_forall in IH; exact IH.
Qed.

Lemma ids_le_maxId (v : JSValue) (id : nat) :
  In id (ids v) -> id <= maxId v.
Proof.
  unfold maxId. induction (ids v) as [|i l IH]; cbn; [tauto|].
  intros [->|H]; [lia|]. specialize (IH H). lia.
Qed.

Lemma allocateAbove_fresh (v copy : JSValue) :
  forall id, In id (ids (allocateAbove v copy)) -> ~ In id (ids v).
Proof.
  unfold allocateAbove. intros id Hid Hin. rewrite ids_relabel in Hid.
  apply in_map_iff in Hid as (i & <- & Hi).
  apply ids_le_maxId in Hin. lia.
Qed.

Lemma hostStructuredClone_contract (v copy : JSValue) :
  hostStructuredClone v = Some copy ->
  content copy = content v
  /\ forall id, In id (ids copy) -> ~ In id (ids v).
Proof.
  unfold hostStructuredClone. destruct (holdsFunction v); [discriminate|].
  intros E. injection E as <-. split.
  - apply content_relabel.
  - apply allocateAbove_fresh.
Qed.

Lemma hostJSON_contract (v copy : JSValue) :
  hostJSON v = Some copy ->
  forall id, In id (ids copy) -> ~ In id (ids v).
Proof.
  unfold hostJSON. destruct (_ || _); [discriminate|].
  intros E. injection E as <-. apply allocateAbove_fresh.
Qed.

End SynchronizerFacts.

(** C7: [readMeta] always returns a value.  When the value stored under
    the fixed key is absent or not an object it returns the empty collection
    [{ strokes: [] }]; otherwise it returns the structured clone of the
    stored value, or when that is unavailable or throws the JSON copy, or
    when that throws too the stored value itself.  A clone holds the content
    of the stored value in objects of its own, so mutating any object of the
    returned copy leaves the stored value as it is. *)
Theorem C7_readMeta_returns_independent_copy
  (structuredClone : option (Synchronizer.JSValue -> option Synchronizer.JSValue))
  (JSON_parse_stringify : Synchronizer.JSValue -> option Synchronizer.JSValue)
  (nextId : nat) (cell : Synchronizer.CellRef) :
  (forall clone v copy,
      structuredClone = Some clone -> clone v = Some copy ->
      Synchronizer.content copy = Synchronizer.content v
      /\ forall id, In id (Synchronizer.ids copy) -> ~ In id (Synchronizer.ids v)) ->
  (forall v copy,
      JSON_parse_stringify v = Some copy ->
      forall id, In id (Synchronizer.ids copy) -> ~ In id (Synchronizer.ids v)) ->
  let read :=
    Synchronizer.readMeta structuredClone JSON_parse_stringify nextId cell in
  let valueOf (m : option Synchronizer.Model) :=
    match m with
    | Some {| Synchronizer.getMetadata := Some get |} => get META_KEY
    | _ => Synchronizer.JUndefined
    end in
  let sharedValue := valueOf (Synchronizer.sharedModel cell) in
  let stored :=
    if Synchronizer.isObject sharedValue then sharedValue
    else valueOf (Some (Synchronizer.model cell)) in
  let cloned :=
    match structuredClone with
    | Some clone => clone stored
    | None => None
    end in
  let independent :=
    forall target f,
      In target (Synchronizer.ids read) ->
      Synchronizer.mutate target f stored = stored in
  (Synchronizer.isObject stored = false ->
   read = Synchronizer.JObject nextId ["strokes"%string]
            [Synchronizer.JArray (S nextId) []])
  /\ (Synchronizer.isObject stored = true ->
      (forall copy,
          cloned = Some copy ->
          read = copy
          /\ Synchronizer.content read = Synchronizer.content stored
          /\ independent)
      /\ (forall copy,
            cloned = None -> JSON_parse_stringify stored = Some copy ->
            read = copy /\ independent)
      /\ (cloned = None -> JSON_parse_stringify stored = None ->
          read = stored)).
Proof.
  intros Hclone Hjson read valueOf sharedValue stored cloned independent.
  assert (Hread : read
                  = if Synchronizer.isObject stored
                    then Synchronizer.cloneOverlay
                           structuredClone JSON_parse_stringify stored
                    else Synchronizer.emptyOverlay nextId).
  { subst read stored sharedValue valueOf. unfold Synchronizer.readMeta.
    destruct cell as [[getM] [[getS]|]]; cbn.
    - destruct getS as [getS|]; cbn.
      + destruct (Synchronizer.isObject (getS META_KEY)) eqn:Es;
          [now rewrite Es|].
        destruct getM as [getM|]; reflexivity.
      + destruct getM as [getM|]; reflexivity.
    - destruct getM as [getM|]; reflexivity. }
  split.
  - intros Hobj. now rewrite Hread, Hobj.
  - intros Hobj. rewrite Hobj in Hread.
    unfold Synchronizer.cloneOverlay in Hread. subst cloned.
    split; [|split].
    + intros copy Hc. destruct structuredClone as [clone|]; [|discriminate].
      rewrite Hc in Hread. destruct (Hclone clone stored copy eq_refl Hc)
        as [Hcontent Hfresh].
      split; [exact Hread|]. split; [now rewrite Hread|].
      intros target f Hin. apply SynchronizerFacts.mutate_fresh.
      apply Hfresh. now rewrite <- Hread.
    + intros copy Hc Hj. rewrite Hj in Hread.
      assert (E : read = copy).
      { destruct structuredClone as [clone|]; [now rewrite Hc in Hread|exact Hread]. }
      split; [exact E|].
      intros target f Hin. apply SynchronizerFacts.mutate_fresh.
      apply (Hjson stored copy Hj). now rewrite <- E.
    + intros Hc Hj. rewrite Hj in Hread.
      destruct structuredClone as [clone|]; [now rewrite Hc in Hread|exact Hread].
Qed.

Lemma C7_readMeta_returns_independent_copy_witness :
  Synchronizer.readMeta (Some Synchronizer.hostStructuredClone)
    Synchronizer.hostJSON 10 Examples.storedCell
  = Synchronizer.JObject 5 ["strokes"%string]
      [Synchronizer.JArray 6
         [Synchronizer.JObject 7 ["tool"%string; "width"%string]
            [Synchronizer.JString "pen"; Synchronizer.JNumber 0.003]]]
  /\ Synchronizer.mutate 6 (fun _ => Synchronizer.JArray 6 [])
       Examples.storedOverlay
     = Examples.storedOverlay
  /\ Synchronizer.readMeta (Some Synchronizer.hostStructuredClone)
       Synchronizer.hostJSON 10
       (Synchronizer.mkCellRef (Examples.serving Examples.storedOddity) None)
     = Examples.storedOddity
  /\ Synchronizer.readMeta (Some Synchronizer.hostStructuredClone)
       Synchronizer.hostJSON 10
       (Synchronizer.mkCellRef
          (Examples.serving (Synchronizer.JString "strokes")) None)
     = Synchronizer.JObject 10 ["strokes"%string] [Synchronizer.JArray 11 []].
Proof.
  assert (Hc : forall clone v copy,
             Some Synchronizer.hostStructuredClone = Some clone ->
             clone v = Some copy ->
             Synchronizer.content copy = Synchronizer.content v
             /\ forall id, In id (Synchronizer.ids copy) ->
                           ~ In id (Synchronizer.ids v)).
  { intros clone v copy E Hc. injection E as <-.
    now apply SynchronizerFacts.hostStructuredClone_contract. }
  assert (Hj : forall v copy,
             Synchronizer.hostJSON v = Some copy ->
             forall id, In id (Synchronizer.ids copy) ->
                        ~ In id (Synchronizer.ids v)).
  { intros v copy E. now apply SynchronizerFacts.hostJSON_contract. }
  destruct (C7_readMeta_returns_independent_copy
              (Some Synchronizer.hostStructuredClone)
              Synchronizer.hostJSON 10 Examples.storedCell Hc Hj)
    as [_ H].
  destruct (H eq_refl) as [H1 _].
  destruct (H1 _ eq_refl) as (Hr & _ & Hind).
  split; [exact Hr|]. split.
  - apply Hind. rewrite Hr. cbn. auto.
  - split.
    + destruct (C7_readMeta_returns_independent_copy
                  (Some Synchronizer.hostStructuredClone)
                  Synchronizer.hostJSON 10
                  (Synchronizer.mkCellRef
                     (Examples.serving Examples.storedOddity) None) Hc Hj)
        as [_ H'].
      destruct (H' eq_refl) as (_ & _ & H3). exact (H3 eq_refl eq_refl).
    + destruct (C7_readMeta_returns_independent_copy
                  (Some Synchronizer.hostStructuredClone)
                  Synchronizer.hostJSON 10
                  (Synchronizer.mkCellRef
                     (Examples.serving (Synchronizer.JString "strokes")) None)
                  Hc Hj)
        as [H' _].
      exact (H' eq_refl).
Defined.

(** * Further properties of the geometry and of the eraser *)

Module FloatNaN.

Import FloatOrder.

Lemma is_nan_true (x : float) : Prim2SF x = S754_nan -> is_nan x = true.
Proof.
  intros H. destruct (is_nan x) eqn:E; [reflexivity|].
  now apply Prim2SF_not_nan in E.
Qed.

(** All NaNs are one value. *)
Lemma nan_unique (x : float) : is_nan x = true -> x = nan.
Proof.
  intros H. apply Prim2SF_inj. now rewrite (Prim2SF_nan x H).
Qed.

Lemma mul_nan_l (x y : float) : is_nan x = true -> is_nan (x * y) = true.
Proof.
  intros H. apply is_nan_true. rewrite mul_spec, (Prim2SF_nan x H).
  reflexivity.
Qed.

Lemma leb_nan_r (x y : float) : is_nan y = true -> (x <=? y) = false.
Proof.
  intros H. rewrite leb_spec, (Prim2SF_nan y H).
  unfold SFleb. now destruct (Prim2SF x).
Qed.

Lemma eqb_refl (x : float) : is_nan x = false -> (x =? x) = true.
Proof. unfold is_nan. now destruct (x =? x). Qed.

(** A number that is neither NaN, nor zero, nor negative is positive. *)
Lemma positive_cases (x : float) :
  is_nan x = false -> (x =? 0) = false -> (x <? 0) = false ->
  (0 <? x) = true.
Proof.
  intros Hn. apply Prim2SF_not_nan in Hn. revert Hn.
  rewrite eqb_spec, !ltb_spec.
  change (Prim2SF 0) with (S754_zero false).
  unfold SFeqb, SFltb.
  destruct (Prim2SF x) as [[]|[]| |[] m e]; cbn; congruence.
Qed.

Lemma min_step_infinity (m : float) : JS.min_step infinity m = m.
Proof.
  unfold JS.min_step. change (is_nan infinity) with false. cbv iota.
  destruct (is_nan m) eqn:N; [symmetry; now apply nan_unique|].
  change (JS.is_pos_zero infinity) with false. rewrite andb_false_r.
  destruct (m <? infinity) eqn:L; [reflexivity|].
  symmetry. apply infinity_leb. now apply ltb_false_leb.
Qed.

Lemma max_step_neg_infinity (m : float) : JS.max_step neg_infinity m = m.
Proof.
  unfold JS.max_step. change (is_nan neg_infinity) with false. cbv iota.
  destruct (is_nan m) eqn:N; [symmetry; now apply nan_unique|].
  change (JS.is_neg_zero neg_infinity) with false. rewrite andb_false_r.
  destruct (neg_infinity <? m) eqn:L; [reflexivity|].
  symmetry. apply leb_neg_infinity. now apply ltb_false_leb.
Qed.

(** [Math.min(m, y)] continues the minimum of a list. *)
Lemma Math_min_snoc (ys : list float) (y : float) :
  JS.Math_min [JS.Math_min ys; y] = JS.Math_min (ys ++ [y]).
Proof.
  unfold JS.Math_min. rewrite fold_left_app. cbn [fold_left].
  now rewrite min_step_infinity.
Qed.

Lemma Math_max_snoc (ys : list float) (y : float) :
  JS.Math_max [JS.Math_max ys; y] = JS.Math_max (ys ++ [y]).
Proof.
  unfold JS.Math_max. rewrite fold_left_app. cbn [fold_left].
  now rewrite max_step_neg_infinity.
Qed.

Lemma Math_min_one (y : float) : JS.Math_min [y] = y.
Proof. apply min_step_infinity. Qed.

Lemma Math_max_one (y : float) : JS.Math_max [y] = y.
Proof. apply max_step_neg_infinity. Qed.

End FloatNaN.

(** X1: on a segment whose two ends are the same point (with numeric
    coordinates) the point-to-segment distance is the distance to that
    point. *)
Theorem X1_degenerate_segment_is_point_distance (p a : Point) :
  is_nan (fst a) = false -> is_nan (snd a) = false ->
  pointToSegmentDistanceSquared p a a = distanceSquared p a.
Proof.
  intros H1 H2. unfold pointToSegmentDistanceSquared.
  now rewrite (FloatNaN.eqb_refl _ H1), (FloatNaN.eqb_refl _ H2).
Qed.

Lemma X1_degenerate_segment_is_point_distance_witness :
  pointToSegmentDistanceSquared (0.25, 0.5) (0.75, 0.5) (0.75, 0.5) = 0.25.
Proof.
  rewrite (X1_degenerate_segment_is_point_distance
             (0.25, 0.5) (0.75, 0.5) eq_refl eq_refl).
  reflexivity.
Defined.

(** X2: whether two segments lie within a bound of each other does not
    depend on which of them is given first (their four point-to-segment
    distances being numbers). *)
Theorem X2_segment_test_is_symmetric (a1 a2 b1 b2 : Point) (bound : float) :
  MathFacts.nan_free
    [ pointToSegmentDistanceSquared a1 b1 b2;
      pointToSegmentDistanceSquared a2 b1 b2;
      pointToSegmentDistanceSquared b1 a1 a2;
      pointToSegmentDistanceSquared b2 a1 a2 ] ->
  (segmentDistanceSquared a1 a2 b1 b2 <=? bound)
  = (segmentDistanceSquared b1 b2 a1 a2 <=? bound).
Proof.
  intros Hn. unfold segmentDistanceSquared.
  set (d1 := pointToSegmentDistanceSquared a1 b1 b2) in *.
  set (d2 := pointToSegmentDistanceSquared a2 b1 b2) in *.
  set (d3 := pointToSegmentDistanceSquared b1 a1 a2) in *.
  set (d4 := pointToSegmentDistanceSquared b2 a1 a2) in *.
  assert (Hn' : MathFacts.nan_free [d3; d4; d1; d2]).
  { unfold MathFacts.nan_free in *. rewrite Forall_forall in *.
    intros x Hx. apply Hn. cbn in *. tauto. }
  pose proof (MathFacts.Math_min_leb_iff [d1; d2; d3; d4] bound
                ltac:(discriminate) Hn) as E1.
  pose proof (MathFacts.Math_min_leb_iff [d3; d4; d1; d2] bound
                ltac:(discriminate) Hn') as E2.
  assert (E : (JS.Math_min [d1; d2; d3; d4] <=? bound) = true
              <-> (JS.Math_min [d3; d4; d1; d2] <=? bound) = true).
  { rewrite E1, E2. split; intros (x & Hx & Hle); exists x;
      (split; [cbn in *; tauto|exact Hle]). }
  destruct (JS.Math_min [d1; d2; d3; d4] <=? bound),
           (JS.Math_min [d3; d4; d1; d2] <=? bound);
    try reflexivity; destruct E as [E3 E4];
    [now rewrite E3|now rewrite E4].
Qed.

Lemma X2_segment_test_is_symmetric_witness :
  (segmentDistanceSquared (0, 0) (0, 1) (0.5, 0.4) (0.5, 0.5) <=? 0.3)
  = (segmentDistanceSquared (0.5, 0.4) (0.5, 0.5) (0, 0) (0, 1) <=? 0.3).
Proof.
  apply X2_segment_test_is_symmetric.
  repeat constructor.
Defined.

Module RunShape.

Import RunFacts.

Section Runs.

Context {A : Type}.
Variable keep : A -> bool.
Variable cross : A -> A -> bool.

Local Abbreviation runs := (runs keep cross).
Local Abbreviation touched := (touched keep cross).

(** The first run of a sequence that starts with a kept point is a prefix
    of the sequence. *)
Lemma first_run_prefix (l : list A) :
  forall p, keep p = true ->
  exists r rs l2, runs (p :: l) = (p :: r) :: rs /\ l = r ++ l2.
Proof.
  induction l as [|q l IH]; intros p K.
  - rewrite runs_one, K. now exists [], [], [].
  - rewrite runs_cons2, K.
    destruct (keep q && negb (cross p q)) eqn:J.
    + apply andb_prop in J as [Kq _].
      destruct (IH q Kq) as (r & rs & l2 & E & El). rewrite E.
      exists (q :: r), rs, l2. split; [reflexivity|]. cbn. now rewrite El.
    + exists [], (runs (q :: l)), (q :: l). split; reflexivity.
Qed.

(** The runs after the first are runs of the rest. *)
Lemma later_runs (p : A) (l : list A) (r : list A) :
  In r (tl (runs (p :: l))) -> In r (runs l).
Proof.
  destruct l as [|q l].
  - rewrite runs_one. destruct (keep p); intros [].
  - rewrite runs_cons2. destruct (keep p).
    + destruct (keep q && negb (cross p q)).
      * destruct (runs (q :: l)) as [|r0 rs]; cbn; [tauto|]. now right.
      * cbn. tauto.
    + intros H. destruct (runs (q :: l)); [destruct H|]. now right.
Qed.

(** Every run is a stretch of consecutive points of the sequence. *)
Lemma runs_infix (pts : list A) :
  forall r, In r (runs pts) -> exists l1 l2, pts = l1 ++ r ++ l2.
Proof.
  induction pts as [|p l IH]; intros r Hr; [destruct Hr|].
  destruct (keep p) eqn:K.
  - destruct (first_run_prefix l p K) as (r0 & rs & l2 & E & El).
    rewrite E in Hr. destruct Hr as [<-|Hr].
    + exists [], l2. cbn. now rewrite El.
    + destruct (IH r) as (l1 & l2' & E').
      { apply (later_runs p). rewrite E. exact Hr. }
      exists (p :: l1), l2'. cbn. now rewrite E'.
  - destruct (IH r) as (l1 & l2' & E').
    { destruct l as [|q l]; [cbn in Hr; now rewrite K in Hr|].
      rewrite runs_cons2, K in Hr. exact Hr. }
    exists (p :: l1), l2'. cbn. now rewrite E'.
Qed.

(** Inside a run no point is removed and no pair crosses. *)
Lemma runs_untouched (pts : list A) :
  forall r, In r (runs pts) -> touched r = false.
Proof.
  induction pts as [|p l IH]; intros r Hr; [destruct Hr|].
  destruct l as [|q l].
  - rewrite runs_one in Hr. destruct (keep p) eqn:K; [|destruct Hr].
    destruct Hr as [<-|[]]. cbn. now rewrite K.
  - rewrite runs_cons2 in Hr. destruct (keep p) eqn:K; [|now apply IH].
    destruct (keep q && negb (cross p q)) eqn:J.
    + apply andb_prop in J as [Kq C]. apply negb_true_iff in C.
      destruct (runs_cons_kept keep cross q l Kq) as (r' & rs & E).
      rewrite E in Hr, IH. destruct Hr as [<-|Hr].
      * change (touched (p :: q :: r'))
          with (negb (keep p) || (keep q && cross p q) || touched (q :: r')).
        rewrite K, Kq, C. cbn [negb andb orb].
        apply (IH (q :: r')). now left.
      * apply IH. now right.
    + destruct Hr as [<-|Hr]; [cbn; now rewrite K|now apply IH].
Qed.

Lemma runs_total_length (pts : list A) :
  List.length (List.concat (runs pts)) <= List.length pts.
Proof. rewrite runs_concat. apply filter_length_le. Qed.

End Runs.

End RunShape.

Module EraserShape.

Import EraserFacts RunFacts.

Lemma ptsOf_strokeOfSegment (s : Stroke.t) (run : list Point) :
  Eraser.ptsOf (Eraser.strokeOfSegment s run) = run.
Proof. reflexivity. Qed.

Lemma radius_strokeOfSegment (s : Stroke.t) (run : list Point) :
  Eraser.radiusForStroke (Eraser.strokeOfSegment s run)
  = Eraser.radiusForStroke s.
Proof. reflexivity. Qed.

Lemma sum_lengths_filter {A : Type} (f : list A -> bool) (l : list (list A)) :
  list_sum (map (@List.length A) (filter f l))
  <= list_sum (map (@List.length A) l).
Proof.
  induction l as [|x l IH]; [reflexivity|].
  unfold list_sum in *.
  cbn [filter]. destruct (f x); cbn [map fold_right]; lia.
Qed.

Lemma twice_count_long {A : Type} (l : list (list A)) :
  2 * List.length (filter long l)
  <= list_sum (map (@List.length A) (filter long l)).
Proof.
  induction l as [|x l IH]; [reflexivity|].
  cbn [filter]. destruct (long x) eqn:L; [|exact IH].
  unfold long in L. apply Nat.ltb_lt in L. unfold list_sum in *.
  cbn [List.length map fold_right]. lia.
Qed.

Lemma sum_points_map (s : Stroke.t) (segs : list (list Point)) :
  list_sum (map (fun s' => List.length (Eraser.ptsOf s'))
                (map (Eraser.strokeOfSegment s) segs))
  = list_sum (map (@List.length Point) segs).
Proof. rewrite map_map. reflexivity. Qed.

(** A stroke the eraser has written is left alone by the same event. *)
Lemma emitted_is_stable (point : Point) (previous : option Point)
      (s s' : Stroke.t) :
  In s' (fst (Eraser.eraseStroke point previous s)) ->
  Eraser.eraseStroke point previous s' = ([s'], false).
Proof.
  rewrite (eraseStroke_spec point previous s).
  destruct (touched _ _ (Eraser.ptsOf s)) eqn:T; cbn [fst].
  - intros Hs'. apply in_map_iff in Hs' as (run & <- & Hrun).
    apply filter_In in Hrun as [Hrun _].
    rewrite eraseStroke_spec, radius_strokeOfSegment, ptsOf_strokeOfSegment.
    now rewrite (RunShape.runs_untouched _ _ _ run Hrun).
  - intros [<-|[]]. now rewrite eraseStroke_spec, T.
Qed.

Lemma eraseStrokes_stable (point : Point) (previous : option Point)
      (strokes : list Stroke.t) :
  (forall s, In s strokes ->
             Eraser.eraseStroke point previous s = ([s], false)) ->
  Eraser.eraseStrokes point previous strokes = (strokes, false).
Proof.
  intros H. rewrite eraseStrokes_spec.
  induction strokes as [|s l IH]; [reflexivity|].
  cbn [flat_map existsb]. rewrite (H s) by now left. cbn [fst snd app orb].
  assert (IH' := IH (fun s' Hs' => H s' (or_intror Hs'))).
  injection IH' as -> ->. reflexivity.
Qed.

(** When nothing is modified the strokes come back as they were. *)
Lemma unmodified_same (point : Point) (previous : option Point)
      (strokes : list Stroke.t) :
  snd (Eraser.eraseStrokes point previous strokes) = false ->
  fst (Eraser.eraseStrokes point previous strokes) = strokes.
Proof.
  rewrite eraseStrokes_spec. cbn [fst snd].
  induction strokes as [|s l IH]; [reflexivity|].
  cbn [flat_map existsb]. intros H. apply orb_false_iff in H as [Hs Hl].
  rewrite (IH Hl). rewrite eraseStroke_spec in Hs |- *.
  destruct (touched _ _ (Eraser.ptsOf s)); [discriminate|reflexivity].
Qed.

Lemma eraseWithPointer_stable (point : Point) (previous : option Point)
      (c : Overlay.Cell) :
  Eraser.eraseStrokes point previous (Overlay.strokesOf (Overlay.readMeta c))
  = (Overlay.strokesOf (Overlay.readMeta c), false) ->
  Overlay.eraseWithPointer point previous c = c.
Proof. intros E. unfold Overlay.eraseWithPointer. now rewrite E. Qed.

(** On a writable cell the strokes stored after an erase event are the
    strokes the loop produced. *)
Lemma strokes_after_erase (point : Point) (previous : option Point)
      (c : Overlay.Cell) :
  Overlay.settable c = true ->
  Overlay.strokesOf
    (Overlay.readMeta (Overlay.eraseWithPointer point previous c))
  = fst (Eraser.eraseStrokes point previous
           (Overlay.strokesOf (Overlay.readMeta c))).
Proof.
  intros Hset. unfold Overlay.eraseWithPointer.
  destruct (Eraser.eraseStrokes point previous
              (Overlay.strokesOf (Overlay.readMeta c)))
    as [next modified] eqn:E.
  destruct modified.
  - unfold Overlay.writeMeta. rewrite Hset. reflexivity.
  - cbn [fst]. symmetry.
    pose proof (unmodified_same point previous
                  (Overlay.strokesOf (Overlay.readMeta c))) as H.
    rewrite E in H. now apply H.
Qed.

End EraserShape.

(** X3: every stroke the eraser writes for a stroke consists of
    consecutive points of that stroke, in their order. *)
Theorem X3_pieces_are_stretches_of_the_original
  (point : Point) (previous : option Point) (s s' : Stroke.t) :
  In s' (fst (Eraser.eraseStroke point previous s)) ->
  exists before after,
    Eraser.ptsOf s = before ++ Eraser.ptsOf s' ++ after.
Proof.
  rewrite EraserFacts.eraseStroke_spec.
  destruct (touched _ _ (Eraser.ptsOf s)); cbn [fst].
  - intros Hs'. apply in_map_iff in Hs' as (run & <- & Hrun).
    apply filter_In in Hrun as [Hrun _].
    exact (RunShape.runs_infix _ _ _ run Hrun).
  - intros [<-|[]]. exists [], []. now rewrite app_nil_r.
Qed.

Lemma X3_pieces_are_stretches_of_the_original_witness :
  exists before after,
    [(0, 0); (0, 0.25); (0, 0.5); (0, 0.75); (0, 1)]
    = before ++ [(0, 0.75); (0, 1)] ++ after.
Proof.
  apply (X3_pieces_are_stretches_of_the_original
           (0, 0.5) None Examples.straight
           (Eraser.strokeOfSegment Examples.straight [(0, 0.75); (0, 1)])).
  right. now left.
Defined.

(** X4: erasing never adds points: the strokes written for a stroke hold
    together at most as many points as the stroke had, a touched stroke of
    [n] points leaves at most [n / 2] strokes, and the collection as a
    whole does not grow in points. *)
Theorem X4_erasing_never_adds_points
  (point : Point) (previous : option Point) :
  let count := fun s => List.length (Eraser.ptsOf s) in
  (forall s,
      list_sum (map count (fst (Eraser.eraseStroke point previous s)))
      <= count s
      /\ (snd (Eraser.eraseStroke point previous s) = true ->
          2 * List.length (fst (Eraser.eraseStroke point previous s))
          <= count s))
  /\ (forall strokes,
        list_sum (map count (fst (Eraser.eraseStrokes point previous strokes)))
        <= list_sum (map count strokes)).
Proof.
  intros count.
  assert (Hone : forall s,
             list_sum (map count (fst (Eraser.eraseStroke point previous s)))
             <= count s
             /\ (snd (Eraser.eraseStroke point previous s) = true ->
                 2 * List.length (fst (Eraser.eraseStroke point previous s))
                 <= count s)).
  { intros s. rewrite EraserFacts.eraseStroke_spec.
    destruct (touched _ _ (Eraser.ptsOf s)); cbn [fst snd].
    - pose proof (RunShape.runs_total_length
                    (Eraser.keepPoint point previous
                       (Eraser.radiusForStroke s * Eraser.radiusForStroke s))
                    (Eraser.crosses point previous
                       (Eraser.radiusForStroke s * Eraser.radiusForStroke s))
                    (Eraser.ptsOf s)) as Hlen.
      rewrite length_concat in Hlen.
      match goal with
      | |- context [filter long ?rs] =>
          pose proof (EraserShape.sum_lengths_filter long rs) as Hf;
          pose proof (EraserShape.twice_count_long rs) as Ht
      end.
      subst count. cbv beta. rewrite EraserShape.sum_points_map, length_map.
      split; [|intros _]; lia.
    - split; [cbn; subst count; cbv beta; lia|discriminate]. }
  split; [exact Hone|].
  intros strokes. rewrite EraserFacts.eraseStrokes_spec. cbn [fst].
  induction strokes as [|s l IH]; [reflexivity|].
  cbn [flat_map map]. rewrite map_app, list_sum_app.
  destruct (Hone s) as [H _]. unfold list_sum in *. cbn [fold_right]. lia.
Qed.

(** X5: an erase event repeated right away changes nothing: the strokes it
    has written are left alone by the same event, so on a writable cell the
    second call neither writes nor redraws. *)
Theorem X5_repeated_erase_is_idle
  (point : Point) (previous : option Point) :
  (forall strokes,
      Eraser.eraseStrokes point previous
        (fst (Eraser.eraseStrokes point previous strokes))
      = (fst (Eraser.eraseStrokes point previous strokes), false))
  /\ (forall c,
        Overlay.settable c = true ->
        Overlay.eraseWithPointer point previous
          (Overlay.eraseWithPointer point previous c)
        = Overlay.eraseWithPointer point previous c).
Proof.
  assert (Hst : forall strokes,
             Eraser.eraseStrokes point previous
               (fst (Eraser.eraseStrokes point previous strokes))
             = (fst (Eraser.eraseStrokes point previous strokes), false)).
  { intros strokes. apply EraserShape.eraseStrokes_stable.
    intros s' Hs'. rewrite EraserFacts.eraseStrokes_spec in Hs'.
    cbn [fst] in Hs'. apply in_flat_map in Hs' as (s & _ & Hs').
    exact (EraserShape.emitted_is_stable point previous s s' Hs'). }
  split; [exact Hst|].
  intros c Hset. apply EraserShape.eraseWithPointer_stable.
  rewrite (EraserShape.strokes_after_erase point previous c Hset).
  apply Hst.
Qed.

(** X6: one erase event leaves the other entries of the overlay metadata
    and the cell's capabilities alone, and either does nothing at all or
    requests exactly one redraw, preceded on a writable cell by exactly one
    write of the whole collection. *)
Theorem X6_erase_writes_at_most_once
  (point : Point) (previous : option Point) (c : Overlay.Cell) :
  let after := Overlay.eraseWithPointer point previous c in
  others (Overlay.readMeta after) = others (Overlay.readMeta c)
  /\ Overlay.settable after = Overlay.settable c
  /\ (after = c
      \/ (Overlay.settable c = false
          /\ Overlay.metadata after = Overlay.metadata c
          /\ Overlay.trace after = Overlay.trace c ++ [Overlay.ERedraw])
      \/ (Overlay.settable c = true
          /\ exists next,
              Overlay.metadata after
              = Some {| strokes := Some next;
                        others := others (Overlay.readMeta c) |}
              /\ Overlay.trace after
                 = Overlay.trace c
                   ++ [ Overlay.EWrite
                          {| strokes := Some next;
                             others := others (Overlay.readMeta c) |};
                        Overlay.ERedraw ])).
Proof.
  intros after. subst after. unfold Overlay.eraseWithPointer.
  destruct (Eraser.eraseStrokes point previous
              (Overlay.strokesOf (Overlay.readMeta c)))
    as [next modified].
  destruct modified; [|auto].
  unfold Overlay.writeMeta. destruct (Overlay.settable c) eqn:Hset.
  - split; [reflexivity|]. split; [reflexivity|]. right. right.
    split; [reflexivity|]. exists next. split; [reflexivity|].
    cbn. now rewrite <- app_assoc.
  - split; [reflexivity|]. split; [cbn; now rewrite Hset|]. right. left.
    auto.
Qed.

(** X7: a stroke whose stored width is NaN cannot be erased: its radius is
    NaN, no distance test succeeds, and the stroke passes through whatever
    the erase event. *)
Theorem X7_nan_width_stroke_cannot_be_erased
  (point : Point) (previous : option Point) (s : Stroke.t) (w : float) :
  Stroke.width s = JS.Value w -> is_nan w = true ->
  Eraser.eraseStroke point previous s = ([s], false).
Proof.
  intros Hw Hn.
  assert (Hr : is_nan (Eraser.radiusForStroke s * Eraser.radiusForStroke s)
               = true).
  { apply FloatNaN.mul_nan_l.
    unfold Eraser.radiusForStroke, JS.Math_max. rewrite Hw.
    cbn [JS.coalesce fold_left].
    rewrite FloatNaN.max_step_neg_infinity. unfold JS.max_step.
    change (is_nan BASE_ERASER_RADIUS) with false. cbv iota.
    now rewrite (FloatNaN.mul_nan_l w 6 Hn). }
  rewrite EraserFacts.eraseStroke_spec.
  replace (touched _ _ (Eraser.ptsOf s)) with false; [reflexivity|].
  symmetry. apply RunFacts.touched_false_iff. split.
  - intros pt _. unfold Eraser.keepPoint, Eraser.pointerSegment.
    rewrite (FloatNaN.leb_nan_r _ _ Hr).
    destruct previous as [prev|]; [|reflexivity].
    now rewrite !(FloatNaN.leb_nan_r _ _ Hr).
  - intros l1 a b l2 _. unfold Eraser.crosses, Eraser.pointerSegment.
    destruct previous as [prev|]; [|reflexivity].
    apply (FloatNaN.leb_nan_r _ _ Hr).
Qed.

Lemma X7_nan_width_stroke_cannot_be_erased_witness :
  Eraser.eraseStroke (0, 0.5) (Some (0, 0.4))
    (Stroke.mk pen (JS.Value nan) "#ff5722" (Some 1)
       (Some [(0, 0.4); (0, 0.5)]) None)
  = ([Stroke.mk pen (JS.Value nan) "#ff5722" (Some 1)
        (Some [(0, 0.4); (0, 0.5)]) None], false).
Proof.
  exact (X7_nan_width_stroke_cannot_be_erased (0, 0.5) (Some (0, 0.4))
           (Stroke.mk pen (JS.Value nan) "#ff5722" (Some 1)
              (Some [(0, 0.4); (0, 0.5)]) None)
           nan eq_refl eq_refl).
Defined.

(** * The pointer session *)

Module SessionFacts.

Import Session.

Ltac session_fields :=
  cbn [cell tools gesture pointerEvents active captured
       penSettings highlighterSettings tool widthNorm color erasing
       currentTool currentColor currentWidth overlayErasing
       down current erasingActive erasingPointerId lastErasePoint
       settingsOf ToolSettings.color ToolSettings.width JS.nullish] in *.

Ltac coherent_goal :=
  constructor; session_fields;
  repeat match goal with
         | |- _ /\ _ => split
         | |- _ <-> _ => split
         | |- _ -> _ => intro
         end;
  try tauto; try congruence; try reflexivity; try discriminate;
  try (intuition congruence).

Lemma initial_coherent (c : Overlay.Cell) : Coherent (initial c).
Proof. unfold initial. coherent_goal. Qed.

Lemma step_coherent (st : State) (a : Action) :
  Coherent st -> Coherent (step st a).
Proof.
  intros [H1 [H2 H2'] [H3 H3'] H4 H5 H6 H7 H8 H9].
  destruct st as [c ts g pe act cap].
  destruct ts as [ps hs t wn col er ct cc cw oe].
  destruct g as [dn cur ea eid lep].
  session_fields. subst.
  destruct a as [page e|page e|page e|page e|inside|next|on|next|next| |force|change];
    cbn [step].
  - unfold pointerdown. session_fields.
    destruct pe; cbn [negb]; [|coherent_goal].
    destruct er; coherent_goal.
  - unfold pointermove. session_fields.
    destruct ea; [coherent_goal|].
    destruct dn; [|coherent_goal].
    destruct cur; coherent_goal.
  - unfold pointerup, finishErasing, commitStroke. session_fields.
    destruct ea; cbn [negb]; [coherent_goal|].
    destruct dn; [|coherent_goal].
    destruct cur; coherent_goal.
  - unfold pointercancel, finishErasing, commitStroke. session_fields.
    destruct ea; cbn [negb]; [coherent_goal|].
    destruct dn; [|coherent_goal].
    destruct cur; coherent_goal.
  - unfold pointerGuard, toggleOverlay. session_fields.
    destruct pe; [|coherent_goal].
    destruct inside; coherent_goal.
  - unfold setTool. session_fields. destruct next; coherent_goal.
  - unfold setEraser. session_fields. destruct on; coherent_goal.
  - unfold setColor. session_fields. destruct t; coherent_goal.
  - unfold setWidth. session_fields. destruct t; coherent_goal.
  - unfold clearStrokes, setEraser. session_fields. coherent_goal.
  - unfold toggleOverlay. session_fields. destruct force; coherent_goal.
  - unfold onMetadataChanged. coherent_goal.
Qed.

Lemma run_coherent (actions : list Action) :
  forall st, Coherent st -> Coherent (run actions st).
Proof.
  unfold run. induction actions as [|a l IH]; intros st H; [exact H|].
  cbn [fold_left]. apply IH. now apply step_coherent.
Qed.

End SessionFacts.

(** X8: whatever happens to an overlay, its variables stay coherent: the
    mirrored variables agree ([currentTool]/[tool], [currentColor]/[color],
    [currentWidth]/[widthNorm], [overlayState.erasing]/[erasing]), the
    colour and width in use are the remembered settings of the tool in use,
    a stroke is in progress exactly while the pointer is down, never in
    eraser mode nor during an erase gesture, an erase gesture that is over
    leaves no previous contact behind, and the overlay is registered as
    active exactly while its canvas takes pointer events. *)
Theorem X8_session_stays_coherent
  (c : Overlay.Cell) (actions : list Session.Action) :
  let st := Session.run actions (Session.initial c) in
  let ts := Session.tools st in
  let g := Session.gesture st in
  Session.currentTool ts = Session.tool ts
  /\ Session.currentColor ts = Session.color ts
  /\ Session.currentWidth ts = Session.widthNorm ts
  /\ Session.overlayErasing ts = Session.erasing ts
  /\ Session.color ts
     = ToolSettings.color (Session.settingsOf (Session.tool ts) ts)
  /\ Session.widthNorm ts
     = ToolSettings.width (Session.settingsOf (Session.tool ts) ts)
  /\ (Session.down g = true <-> Session.current g <> None)
  /\ (Session.erasing ts = true -> Session.down g = false)
  /\ (Session.erasingActive g = true -> Session.down g = false)
  /\ (Session.erasingActive g = false ->
      Session.lastErasePoint g = None /\ Session.erasingPointerId g = None)
  /\ Session.active st = Session.pointerEvents st.
Proof.
  intros st ts g.
  destruct (SessionFacts.run_coherent actions (Session.initial c)
              (SessionFacts.initial_coherent c))
    as [H1 [H2 H2'] [H3 H3'] H4 H5 H6 H7 H8 H9].
  fold st in H1, H2, H2', H3, H3', H4, H5, H6, H7, H8, H9.
  fold ts in H1, H2, H2', H3, H3', H4, H6.
  fold g in H5, H6, H7, H8.
  repeat split; auto; try (symmetry; assumption); apply H5 || apply H8;
    assumption.
Qed.

Module SettingsFacts.

Import Session.

Lemma step_keeps_settings (st : State) (a : Action) :
  keepsSettings a = true ->
  penSettings (tools (step st a)) = penSettings (tools st)
  /\ highlighterSettings (tools (step st a)) = highlighterSettings (tools st).
Proof.
  intros K. destruct st as [c ts g pe act cap].
  destruct a as [page e|page e|page e|page e|inside|next|on|next|next| |force|change];
    try discriminate; cbn [step].
  - unfold pointerdown. cbn [pointerEvents tools].
    destruct pe; cbn [negb]; [|auto].
    destruct (erasing ts); auto.
  - unfold pointermove. cbn [gesture].
    destruct (erasingActive g); [auto|].
    destruct (down g); [|auto]. destruct (current g); auto.
  - unfold pointerup, finishErasing, commitStroke. cbn [gesture].
    destruct (erasingActive g); cbn [negb]; [auto|].
    destruct (down g); [|auto]. destruct (current g); auto.
  - unfold pointercancel, finishErasing, commitStroke. cbn [gesture].
    destruct (erasingActive g); cbn [negb]; [auto|].
    destruct (down g); [|auto]. destruct (current g); auto.
  - unfold pointerGuard. cbn [active].
    destruct act; [|auto]. destruct inside; auto.
  - auto.
  - auto.
  - auto.
  - auto.
  - auto.
Qed.

Lemma run_keeps_settings (actions : list Action) :
  forall st,
    forallb keepsSettings actions = true ->
    penSettings (tools (run actions st)) = penSettings (tools st)
    /\ highlighterSettings (tools (run actions st))
       = highlighterSettings (tools st).
Proof.
  unfold run. induction actions as [|a l IH]; intros st K; [auto|].
  cbn [forallb] in K. apply andb_prop in K as [Ka Kl].
  cbn [fold_left]. destruct (IH (step st a) Kl) as [E1 E2].
  destruct (step_keeps_settings st a Ka) as [E3 E4].
  split; congruence.
Qed.

End SettingsFacts.

(** X9: each tool remembers its own colour and width: once set while the
    tool is selected they are what the tool comes back with, after any
    amount of drawing, erasing, clearing and tool switching in between;
    and setting them leaves the other tool's settings alone. *)
Theorem X9_tools_remember_their_settings
  (st : Session.State) (t : ToolMode) (c : string) (w : float)
  (between : list Session.Action) :
  forallb Session.keepsSettings between = true ->
  let chosen := Session.setWidth w (Session.setColor c (Session.setTool t st)) in
  let back := Session.setTool t (Session.run between chosen) in
  Session.color (Session.tools back) = c
  /\ Session.widthNorm (Session.tools back) = w
  /\ Session.tool (Session.tools back) = t
  /\ (forall other,
        other <> t ->
        Session.settingsOf other (Session.tools back)
        = Session.settingsOf other (Session.tools st)).
Proof.
  intros K chosen back.
  destruct (SettingsFacts.run_keeps_settings between chosen K) as [E1 E2].
  assert (Hp : Session.penSettings (Session.tools back)
               = Session.penSettings (Session.tools chosen))
    by exact E1.
  assert (Hh : Session.highlighterSettings (Session.tools back)
               = Session.highlighterSettings (Session.tools chosen))
    by exact E2.
  assert (Hc : ToolSettings.color (Session.settingsOf t (Session.tools chosen)) = c
               /\ ToolSettings.width (Session.settingsOf t (Session.tools chosen)) = w).
  { subst chosen. destruct t; split; reflexivity. }
  assert (Hb : Session.settingsOf t (Session.tools back)
               = Session.settingsOf t (Session.tools chosen)).
  { destruct t; [exact Hp|exact Hh]. }
  split; [|split; [|split]].
  - change (Session.color (Session.tools back))
      with (ToolSettings.color
              (Session.settingsOf t (Session.tools (Session.run between chosen)))).
    change (Session.settingsOf t (Session.tools (Session.run between chosen)))
      with (Session.settingsOf t (Session.tools back)).
    rewrite Hb. apply Hc.
  - change (Session.widthNorm (Session.tools back))
      with (ToolSettings.width
              (Session.settingsOf t (Session.tools (Session.run between chosen)))).
    change (Session.settingsOf t (Session.tools (Session.run between chosen)))
      with (Session.settingsOf t (Session.tools back)).
    rewrite Hb. apply Hc.
  - reflexivity.
  - intros other Ho.
    transitivity (Session.settingsOf other (Session.tools chosen)).
    + destruct other; [exact Hp|exact Hh].
    + subst chosen. destruct other, t; try reflexivity; congruence.
Qed.

Lemma X9_tools_remember_their_settings_witness :
  Session.color
    (Session.tools
       (Session.setTool pen
          (Session.run
             [ Session.PointerDown Scenarios.page (Scenarios.press 40 50);
               Session.PointerUp Scenarios.page (Scenarios.press 40 50);
               Session.SetTool highlighter; Session.Clear ]
             (Session.setWidth 0.004
                (Session.setColor "#00ff00"
                   (Session.setTool pen Scenarios.ready))))))
  = "#00ff00"%string.
Proof.
  exact (proj1 (X9_tools_remember_their_settings Scenarios.ready pen
                  "#00ff00" 0.004
                  [ Session.PointerDown Scenarios.page (Scenarios.press 40 50);
                    Session.PointerUp Scenarios.page (Scenarios.press 40 50);
                    Session.SetTool highlighter; Session.Clear ]
                  eq_refl)).
Defined.

Module DrawFacts.

Import Session.

(** [redraw()] returns exactly when every stroke it draws has a [points]
    array. *)
Lemma drawAll_returns (e : Renderer.Env) (l : list Stroke.t) :
  Repaint.drawAll e l <> None <-> Forall (fun s => Stroke.points s <> None) l.
Proof.
  induction l as [|s l IH]; cbn [Repaint.drawAll].
  - split; [constructor|discriminate].
  - unfold Renderer.drawStroke.
    destruct (Stroke.points s) eqn:Hp.
    + destruct (Repaint.drawAll e l).
      * split; [|discriminate]. intros _. constructor.
        -- rewrite Hp. discriminate.
        -- apply IH. discriminate.
      * split; [congruence|]. intros H. inversion H; subst.
        now apply IH.
    + split; [congruence|]. intros H. inversion H; subst. congruence.
Qed.

Lemma paints_iff (page : Page) (c : Overlay.Cell) (cur : option Stroke.t) :
  paints page c cur = true
  <-> Forall (fun s => Stroke.points s <> None)
        (Overlay.strokesOf (Overlay.readMeta c)
         ++ match cur with Some stroke => [stroke] | None => [] end).
Proof.
  unfold paints, Repaint.redraw. rewrite <- (drawAll_returns (env page)).
  destruct (Repaint.drawAll _ _); split; intros H;
    first [reflexivity | discriminate | now contradiction H].
Qed.

(** The points pushed onto a stroke one after the other. *)
Lemma pushes_closed_form (rest : list Point) :
  forall t w c a pts bw bh al at_,
    fold_left (fun k p => pushPoint p k) rest
      (Stroke.mk t w c a (Some pts)
         (Some (StrokeBasis.mk bw bh (JS.Math_min (map snd pts))
                  (JS.Math_max (map snd pts)) al at_)))
    = Stroke.mk t w c a (Some (pts ++ rest))
        (Some (StrokeBasis.mk bw bh (JS.Math_min (map snd (pts ++ rest)))
                 (JS.Math_max (map snd (pts ++ rest))) al at_)).
Proof.
  induction rest as [|p rest IH]; intros t w c a pts bw bh al at_.
  - cbn [fold_left]. now rewrite app_nil_r.
  - cbn [fold_left]. unfold pushPoint at 2.
    cbn [Stroke.tool Stroke.width Stroke.color Stroke.alpha Stroke.points
         Stroke.basis StrokeBasis.width StrokeBasis.height StrokeBasis.minY
         StrokeBasis.maxY StrokeBasis.anchorLine StrokeBasis.anchorLineTop].
    rewrite FloatNaN.Math_min_snoc, FloatNaN.Math_max_snoc.
    change (map snd pts ++ [snd p]) with (map snd pts ++ map snd [p]).
    rewrite <- map_app, IH, <- app_assoc. reflexivity.
Qed.

Lemma beginStroke_closed_form (e : Renderer.Env) (t : ToolMode) (w : float)
      (c : string) (p0 : Point) :
  Renderer.beginStroke e t w c p0
  = Stroke.mk t (JS.Value w) c
      (Some (match t with highlighter => 0.3 | pen => 1 end))
      (Some [p0])
      (Some (StrokeBasis.mk
               (JS.or_else (Renderer.clientWidth e) 1)
               (JS.or_else (Renderer.clientHeight e) 1)
               (JS.Math_min (map snd [p0])) (JS.Math_max (map snd [p0]))
               None None)).
Proof.
  unfold Renderer.beginStroke. cbn [map].
  now rewrite FloatNaN.Math_min_one, FloatNaN.Math_max_one.
Qed.

(** Anchoring only ever fills in the two anchor fields. *)
Lemma anchor_keeps (page : Page) (stroke : Stroke.t) :
  Stroke.tool (anchor page stroke) = Stroke.tool stroke
  /\ Stroke.width (anchor page stroke) = Stroke.width stroke
  /\ Stroke.color (anchor page stroke) = Stroke.color stroke
  /\ Stroke.alpha (anchor page stroke) = Stroke.alpha stroke
  /\ Stroke.points (anchor page stroke) = Stroke.points stroke.
Proof.
  unfold anchor.
  destruct (Stroke.basis stroke); [|auto 6].
  destruct (Renderer.editor (env page)); [|auto 6].
  destruct (editorHostLeft page); [|auto 6].
  destruct (getPositionForCoordinate page _ _); [|auto 6].
  destruct (o _); auto 6.
Qed.

(** A drag while a stroke is in progress pushes the contacts onto it and
    requests one redraw per move; nothing is stored. *)
Lemma drag_draws (moves : list (Page * PointerEvent)) :
  forall st stroke,
    erasingActive (gesture st) = false ->
    down (gesture st) = true ->
    current (gesture st) = Some stroke ->
    gesture (drag moves st)
    = mkGesture true
        (Some (fold_left (fun k p => pushPoint p k) (contacts moves) stroke))
        false (erasingPointerId (gesture st)) (lastErasePoint (gesture st))
    /\ tools (drag moves st) = tools st
    /\ pointerEvents (drag moves st) = pointerEvents st
    /\ active (drag moves st) = active st
    /\ captured (drag moves st) = captured st
    /\ Overlay.metadata (cell (drag moves st)) = Overlay.metadata (cell st)
    /\ Overlay.settable (cell (drag moves st)) = Overlay.settable (cell st)
    /\ Overlay.trace (cell (drag moves st))
       = Overlay.trace (cell st)
         ++ repeat Overlay.ERedraw (List.length moves).
Proof.
  unfold drag, contacts.
  induction moves as [|m moves IH]; intros st stroke Hea Hdn Hcur.
  - cbn. destruct st as [c ts [dn cur ea eid lep] pe act cap].
    cbn in *. subst. now rewrite app_nil_r.
  - cbn [fold_left map List.length repeat].
    set (st1 := pointermove (fst m) (snd m) st).
    assert (E1 : st1 = mkState (Overlay.redraw (cell st)) (tools st)
                         (mkGesture true
                            (Some (pushPoint (toNorm (fst m) (snd m)) stroke))
                            false (erasingPointerId (gesture st))
                            (lastErasePoint (gesture st)))
                         (pointerEvents st) (active st) (captured st)).
    { subst st1. unfold pointermove. rewrite Hea, Hdn, Hcur. reflexivity. }
    destruct (IH st1 (pushPoint (toNorm (fst m) (snd m)) stroke))
      as (G & T & P & A & C & M & S & Tr);
      try (rewrite E1; reflexivity).
    rewrite G, T, P, A, C, M, S, Tr, E1.
    cbn [gesture tools pointerEvents active captured cell erasingPointerId
         lastErasePoint Overlay.redraw Overlay.metadata Overlay.settable
         Overlay.trace].
    repeat split; try reflexivity.
    now rewrite <- app_assoc.
Qed.

End DrawFacts.

(** X10: a stroke drawn with the pointer (press, any number of moves,
    release) is appended as the last stroke of the stored collection: it
    holds the contact points in the order they came, the tool, width and
    colour selected at the press, and alpha 1 for the pen or 0.3 for the
    highlighter; the other metadata entries are kept, nothing is in
    progress afterwards and the pointer is no longer captured. *)
Theorem X10_drawn_stroke_is_appended
  (st : Session.State) (page0 : Session.Page) (e0 : Session.PointerEvent)
  (moves : list (Session.Page * Session.PointerEvent))
  (pageU : Session.Page) (eU : Session.PointerEvent) :
  Session.pointerEvents st = true ->
  Session.erasing (Session.tools st) = false ->
  Overlay.settable (Session.cell st) = true ->
  let after :=
    Session.pointerup pageU eU
      (Session.drag moves (Session.pointerdown page0 e0 st)) in
  exists stroke,
    Overlay.strokesOf (Overlay.readMeta (Session.cell after))
    = Overlay.strokesOf (Overlay.readMeta (Session.cell st)) ++ [stroke]
    /\ others (Overlay.readMeta (Session.cell after))
       = others (Overlay.readMeta (Session.cell st))
    /\ Stroke.points stroke
       = Some (Session.toNorm page0 e0 :: Session.contacts moves)
    /\ Stroke.tool stroke = Session.tool (Session.tools st)
    /\ Stroke.width stroke = JS.Value (Session.widthNorm (Session.tools st))
    /\ Stroke.color stroke = Session.color (Session.tools st)
    /\ Stroke.alpha stroke
       = Some (match Session.tool (Session.tools st) with
               | pen => 1
               | highlighter => 0.3
               end)
    /\ Session.down (Session.gesture after) = false
    /\ Session.current (Session.gesture after) = None
    /\ (Repaint.renderable (Session.cell st) ->
        Session.hasPointerCapture (Session.pointerId eU)
          (Session.captured after) = false).
Proof.
  intros Hpe Her Hset after.
  set (begun := Renderer.beginStroke (Session.env page0)
                  (Session.tool (Session.tools st))
                  (Session.widthNorm (Session.tools st))
                  (Session.color (Session.tools st))
                  (Session.toNorm page0 e0)).
  set (st0 := Session.pointerdown page0 e0 st).
  assert (E0 : st0 = Session.mkState (Overlay.redraw (Session.cell st))
                       (Session.tools st)
                       (Session.mkGesture true (Some begun) false None None)
                       (Session.pointerEvents st) (Session.active st)
                       (Session.setPointerCapture (Session.pointerId e0)
                          (Session.captured st))).
  { subst st0. unfold Session.pointerdown. rewrite Hpe, Her. reflexivity. }
  destruct (DrawFacts.drag_draws moves st0 begun)
    as (G & T & P & A & C & M & S & Tr); try (rewrite E0; reflexivity).
  set (st1 := Session.drag moves st0) in *.
  set (drawn := fold_left (fun k p => Session.pushPoint p k)
                  (Session.contacts moves) begun) in *.
  assert (Hdrawn : drawn
                   = Stroke.mk (Session.tool (Session.tools st))
                       (JS.Value (Session.widthNorm (Session.tools st)))
                       (Session.color (Session.tools st))
                       (Some (match Session.tool (Session.tools st) with
                              | highlighter => 0.3
                              | pen => 1
                              end))
                       (Some ([Session.toNorm page0 e0]
                              ++ Session.contacts moves))
                       (Some (StrokeBasis.mk
                                (JS.or_else (Renderer.clientWidth (Session.env page0)) 1)
                                (JS.or_else (Renderer.clientHeight (Session.env page0)) 1)
                                (JS.Math_min
                                   (map snd ([Session.toNorm page0 e0]
                                             ++ Session.contacts moves)))
                                (JS.Math_max
                                   (map snd ([Session.toNorm page0 e0]
                                             ++ Session.contacts moves)))
                                None None))).
  { subst drawn begun. rewrite DrawFacts.beginStroke_closed_form.
    apply DrawFacts.pushes_closed_form. }
  destruct (DrawFacts.anchor_keeps pageU drawn) as (At & Aw & Ac & Aa & Ap).
  exists (Session.anchor pageU drawn).
  assert (Eafter : after
                   = Session.commitStroke pageU (Some (Session.pointerId eU)) st1).
  { subst after. unfold Session.pointerup. fold st0. fold st1. now rewrite G. }
  assert (Hmeta : Overlay.readMeta (Session.cell st1)
                  = Overlay.readMeta (Session.cell st)).
  { unfold Overlay.readMeta. rewrite M, E0. reflexivity. }
  assert (Hset1 : Overlay.settable (Session.cell st1) = true).
  { rewrite S, E0. exact Hset. }
  rewrite Eafter. unfold Session.commitStroke. rewrite G.
  cbn [Session.down Session.current Session.cell Session.gesture
       Session.captured].
  unfold Overlay.writeMeta. rewrite Hset1, Hmeta.
  cbn [Overlay.redraw Overlay.readMeta Overlay.metadata Overlay.strokesOf
       strokes others].
  rewrite At, Aw, Ac, Aa, Ap, Hdrawn.
  cbn [Stroke.tool Stroke.width Stroke.color Stroke.alpha Stroke.points app].
  repeat (split; [reflexivity|]).
  intros Hren.
  match goal with
  | |- context [Session.paints ?pg ?c None] =>
      assert (Hp : Session.paints pg c None = true)
  end.
  { apply DrawFacts.paints_iff.
    cbn [Overlay.readMeta Overlay.metadata Overlay.strokesOf strokes].
    rewrite app_nil_r. apply Forall_app. split; [exact Hren|].
    constructor; [|constructor].
    assert (Hpts := Ap). rewrite Hdrawn in Hpts.
    cbn [Stroke.tool Stroke.width Stroke.color Stroke.alpha Stroke.points app]
      in Hpts.
    rewrite Hpts. discriminate. }
  rewrite Hp.
  destruct (Session.hasPointerCapture (Session.pointerId eU)
              (Session.captured st1)) eqn:Hc; [|exact Hc].
  unfold Session.hasPointerCapture, Session.releasePointerCapture.
  apply not_true_is_false. intros H.
  apply existsb_exists in H as (x & Hx & Heq).
  apply filter_In in Hx as [_ Hx]. now rewrite Heq in Hx.
Qed.

Lemma X10_drawn_stroke_is_appended_witness :
  exists stroke,
    Overlay.strokesOf
      (Overlay.readMeta
         (Session.cell
            (Session.pointerup Scenarios.page (Scenarios.press 120 80)
               (Session.drag [(Scenarios.page, Scenarios.press 120 80)]
                  (Session.pointerdown Scenarios.page (Scenarios.press 110 70)
                     Scenarios.ready)))))
    = [stroke]
    /\ Stroke.points stroke
       = Some [ Session.toNorm Scenarios.page (Scenarios.press 110 70);
                Session.toNorm Scenarios.page (Scenarios.press 120 80) ].
Proof.
  destruct (X10_drawn_stroke_is_appended Scenarios.ready Scenarios.page
              (Scenarios.press 110 70)
              [(Scenarios.page, Scenarios.press 120 80)]
              Scenarios.page (Scenarios.press 120 80)
              eq_refl eq_refl eq_refl)
    as (stroke & Hstrokes & _ & Hpoints & _).
  exists stroke. split; [exact Hstrokes|exact Hpoints].
Defined.

(** X11: while a stroke is being drawn it holds the press and every move
    since, in order; its basis keeps the canvas size read at the press and,
    as extents, Math.min and Math.max of the y of all its points, which are
    the extents the eraser would recompute for the whole stroke; nothing is
    stored before the release. *)
Theorem X11_stroke_in_progress_tracks_extents
  (st : Session.State) (page0 : Session.Page) (e0 : Session.PointerEvent)
  (moves : list (Session.Page * Session.PointerEvent)) :
  Session.pointerEvents st = true ->
  Session.erasing (Session.tools st) = false ->
  let pts := Session.toNorm page0 e0 :: Session.contacts moves in
  let dragged := Session.drag moves (Session.pointerdown page0 e0 st) in
  exists drawn b,
    Session.current (Session.gesture dragged) = Some drawn
    /\ Stroke.points drawn = Some pts
    /\ Stroke.basis drawn = Some b
    /\ StrokeBasis.width b
       = JS.or_else (Renderer.clientWidth (Session.env page0)) 1
    /\ StrokeBasis.height b
       = JS.or_else (Renderer.clientHeight (Session.env page0)) 1
    /\ StrokeBasis.minY b = JS.Math_min (map snd pts)
    /\ StrokeBasis.maxY b = JS.Math_max (map snd pts)
    /\ Eraser.strokeOfSegment drawn pts = drawn
    /\ Overlay.metadata (Session.cell dragged)
       = Overlay.metadata (Session.cell st).
Proof.
  intros Hpe Her pts dragged.
  set (begun := Renderer.beginStroke (Session.env page0)
                  (Session.tool (Session.tools st))
                  (Session.widthNorm (Session.tools st))
                  (Session.color (Session.tools st))
                  (Session.toNorm page0 e0)).
  set (st0 := Session.pointerdown page0 e0 st).
  assert (E0 : st0 = Session.mkState (Overlay.redraw (Session.cell st))
                       (Session.tools st)
                       (Session.mkGesture true (Some begun) false None None)
                       (Session.pointerEvents st) (Session.active st)
                       (Session.setPointerCapture (Session.pointerId e0)
                          (Session.captured st))).
  { subst st0. unfold Session.pointerdown. rewrite Hpe, Her. reflexivity. }
  destruct (DrawFacts.drag_draws moves st0 begun)
    as (G & _ & _ & _ & _ & M & _); try (rewrite E0; reflexivity).
  subst dragged. fold st0. rewrite G, M, E0.
  unfold begun. rewrite DrawFacts.beginStroke_closed_form.
  rewrite DrawFacts.pushes_closed_form.
  eexists. eexists. split; [reflexivity|].
  repeat (split; [reflexivity|]). reflexivity.
Qed.

Lemma X11_stroke_in_progress_tracks_extents_witness :
  exists drawn b,
    Session.current
      (Session.gesture
         (Session.drag [(Scenarios.page, Scenarios.press 120 80)]
            (Session.pointerdown Scenarios.page (Scenarios.press 110 70)
               Scenarios.ready)))
    = Some drawn
    /\ Stroke.basis drawn = Some b
    /\ StrokeBasis.minY b
       = JS.Math_min
           [ snd (Session.toNorm Scenarios.page (Scenarios.press 110 70));
             snd (Session.toNorm Scenarios.page (Scenarios.press 120 80)) ].
Proof.
  destruct (X11_stroke_in_progress_tracks_extents Scenarios.ready
              Scenarios.page (Scenarios.press 110 70)
              [(Scenarios.page, Scenarios.press 120 80)] eq_refl eq_refl)
    as (drawn & b & Hc & _ & Hb & _ & _ & Hmin & _).
  exists drawn, b. repeat split; assumption.
Defined.

Module IdleFacts.

Import Session.

Lemma idle_step (st : State) (a : Action) :
  down (gesture st) = false ->
  erasingActive (gesture st) = false ->
  (if pointerEvents st then isMoveOrRelease a else isPointer a) = true ->
  step st a = st.
Proof.
  intros Hd He Ha.
  assert (Hmove : forall page e, pointermove page e st = st).
  { intros page e. unfold pointermove. now rewrite He, Hd. }
  assert (Hup : forall page e, pointerup page e st = st).
  { intros page e. unfold pointerup, commitStroke. now rewrite He, Hd. }
  destruct a; cbn [step]; auto;
    try (destruct (pointerEvents st); discriminate).
  unfold pointerdown. destruct (pointerEvents st); [discriminate|reflexivity].
Qed.

End IdleFacts.

(** X12: an overlay with no gesture under way ignores pointer moves,
    releases and cancels, and while it is switched off it ignores presses
    too: the stored strokes, the tools and the captures stay as they are. *)
Theorem X12_idle_overlay_ignores_the_pointer
  (st : Session.State) (actions : list Session.Action) :
  Session.down (Session.gesture st) = false ->
  Session.erasingActive (Session.gesture st) = false ->
  forallb (if Session.pointerEvents st
           then Session.isMoveOrRelease
           else Session.isPointer) actions = true ->
  Session.run actions st = st.
Proof.
  intros Hd He. unfold Session.run.
  induction actions as [|a actions IH]; intros Hall; [reflexivity|].
  cbn [forallb] in Hall. apply andb_prop in Hall as [Ha Hall].
  cbn [fold_left]. rewrite (IdleFacts.idle_step st a Hd He).
  - exact (IH Hall).
  - now destruct (Session.pointerEvents st).
Qed.

Lemma X12_idle_overlay_ignores_the_pointer_witness :
  Session.run
    [ Session.PointerMove Scenarios.page (Scenarios.press 120 80);
      Session.PointerUp Scenarios.page (Scenarios.press 120 80) ]
    (Session.setEraser true
       (Session.pointerdown Scenarios.page (Scenarios.press 110 70)
          Scenarios.ready))
  = Session.setEraser true
      (Session.pointerdown Scenarios.page (Scenarios.press 110 70)
         Scenarios.ready).
Proof.
  apply X12_idle_overlay_ignores_the_pointer; reflexivity.
Defined.

(** X13: clearing empties the stored collection and keeps every other
    entry of the overlay's metadata; afterwards a repaint draws nothing but
    a stroke still in progress, the eraser mode is off, and an erase event
    finds nothing to change.  On a cell whose models offer no setMetadata
    the stored strokes stay. *)
Theorem X13_clear_empties_the_collection (st : Session.State) :
  let after := Session.clearStrokes st in
  Overlay.strokesOf (Overlay.readMeta (Session.cell after))
  = (if Overlay.settable (Session.cell st) then []
     else Overlay.strokesOf (Overlay.readMeta (Session.cell st)))
  /\ others (Overlay.readMeta (Session.cell after))
     = others (Overlay.readMeta (Session.cell st))
  /\ Session.erasing (Session.tools after) = false
  /\ Session.erasingActive (Session.gesture after) = false
  /\ Session.current (Session.gesture after)
     = Session.current (Session.gesture st)
  /\ Session.penSettings (Session.tools after)
     = Session.penSettings (Session.tools st)
  /\ Session.highlighterSettings (Session.tools after)
     = Session.highlighterSettings (Session.tools st)
  /\ (Overlay.settable (Session.cell st) = true ->
      (forall point previous,
          Overlay.eraseWithPointer point previous (Session.cell after)
          = Session.cell after)
      /\ (forall env,
             Repaint.redraw env (Session.cell after)
               (Session.current (Session.gesture after))
             = Repaint.drawAll env
                 (match Session.current (Session.gesture st) with
                  | Some stroke => [stroke]
                  | None => []
                  end))).
Proof.
  intros after. subst after.
  unfold Session.clearStrokes, Session.setEraser, Overlay.writeMeta.
  cbn [Session.cell Session.tools Session.gesture Session.erasing
       Session.erasingActive Session.current Session.penSettings
       Session.highlighterSettings].
  destruct (Overlay.settable (Session.cell st)) eqn:Hset.
  - cbn [Overlay.redraw Overlay.readMeta Overlay.metadata Overlay.strokesOf
         strokes others].
    do 7 (split; [reflexivity|]). intros _. split; [|reflexivity].
    intros point previous. apply EraserShape.eraseWithPointer_stable.
    reflexivity.
  - unfold Overlay.redraw, Overlay.readMeta.
    cbn [Overlay.metadata]. do 7 (split; [reflexivity|]). discriminate.
Qed.

Module PaintFacts.

Import Session.

Lemma renderable_metadata (c c' : Overlay.Cell) :
  Overlay.metadata c' = Overlay.metadata c ->
  Repaint.renderable c -> Repaint.renderable c'.
Proof.
  unfold Repaint.renderable, Overlay.readMeta. now intros ->.
Qed.

Lemma renderable_redraw (c : Overlay.Cell) :
  Repaint.renderable c -> Repaint.renderable (Overlay.redraw c).
Proof. now apply renderable_metadata. Qed.

Lemma renderable_write (c : Overlay.Cell) (l : list Stroke.t)
      (rest : list (string * string)) :
  Repaint.renderable c ->
  Forall (fun s => Stroke.points s <> None) l ->
  Repaint.renderable
    (Overlay.writeMeta {| strokes := Some l; others := rest |} c).
Proof.
  intros Hc Hl. unfold Overlay.writeMeta.
  destruct (Overlay.settable c); [exact Hl|exact Hc].
Qed.

(** What the eraser emits has a [points] array when what it read had. *)
Lemma erased_have_points (point : Point) (previous : option Point)
      (l : list Stroke.t) :
  Forall (fun s => Stroke.points s <> None) l ->
  Forall (fun s => Stroke.points s <> None)
         (fst (Eraser.eraseStrokes point previous l)).
Proof.
  intros Hl. rewrite EraserFacts.eraseStrokes_spec. cbn [fst].
  apply Forall_forall. intros s' Hs'.
  apply in_flat_map in Hs' as (s & Hs & Hs').
  rewrite EraserFacts.eraseStroke_spec in Hs'.
  destruct (touched _ _ (Eraser.ptsOf s)); cbn [fst] in Hs'.
  - apply in_map_iff in Hs' as (run & <- & _). discriminate.
  - destruct Hs' as [<-|[]]. rewrite Forall_forall in Hl. now apply Hl.
Qed.

Lemma renderable_erase (point : Point) (previous : option Point)
      (c : Overlay.Cell) :
  Repaint.renderable c ->
  Repaint.renderable (Overlay.eraseWithPointer point previous c).
Proof.
  intros Hc. unfold Overlay.eraseWithPointer.
  pose proof (erased_have_points point previous _ Hc) as He.
  destruct (Eraser.eraseStrokes point previous
              (Overlay.strokesOf (Overlay.readMeta c))) as [next modified].
  destruct modified; [|exact Hc].
  apply renderable_redraw, renderable_write; assumption.
Qed.

Lemma renderable_notified (change : Overlay.Change) (c : Overlay.Cell) :
  Repaint.renderable c ->
  Repaint.renderable (Overlay.onMetadataChanged change c).
Proof.
  intros Hc. unfold Overlay.onMetadataChanged.
  destruct change as [a| |props]; try now apply renderable_redraw.
  destruct (Overlay.has "key" props).
  - destruct (Overlay.isMetaKey "key" props);
      [now apply renderable_redraw|exact Hc].
  - destruct (Overlay.has "name" props && Overlay.isMetaKey "name" props);
      [now apply renderable_redraw|exact Hc].
Qed.

Lemma paintable_paints (page : Page) (st : State) :
  paintable st -> paints page (cell st) (current (gesture st)) = true.
Proof.
  intros [Hc Hcur]. apply DrawFacts.paints_iff. apply Forall_app.
  split; [exact Hc|].
  destruct (current (gesture st)) as [stroke|]; constructor; auto.
Qed.

Lemma paintable_erases (page : Page) (point : Point) (st : State) :
  paintable st ->
  eraseThrows page point (lastErasePoint (gesture st)) (cell st)
              (current (gesture st)) = false.
Proof.
  intros [Hc Hcur]. unfold eraseThrows.
  rewrite (proj2 (DrawFacts.paints_iff page _ _)).
  - now rewrite andb_false_r.
  - apply Forall_app. split; [now apply renderable_erase|].
    destruct (current (gesture st)) as [stroke|]; constructor; auto.
Qed.

Lemma pushPoint_points (point : Point) (stroke : Stroke.t) :
  Stroke.points stroke <> None ->
  Stroke.points (pushPoint point stroke) <> None.
Proof.
  unfold pushPoint. cbn [Stroke.points].
  destruct (Stroke.points stroke); [discriminate|auto].
Qed.

Lemma commit_paintable (page : Page) (pointer : option Z) (st : State) :
  paintable st -> paintable (commitStroke page pointer st).
Proof.
  intros Hst. pose proof Hst as [Hc Hcur]. unfold commitStroke.
  destruct (down (gesture st)); [|exact Hst].
  destruct (current (gesture st)) as [drawn|] eqn:E; [|exact Hst].
  split; cbn [cell gesture current]; [|discriminate].
  apply renderable_redraw, renderable_write; [exact Hc|].
  apply Forall_app. split; [exact Hc|].
  constructor; [|constructor].
  destruct (DrawFacts.anchor_keeps page drawn) as (_ & _ & _ & _ & ->).
  now apply Hcur.
Qed.

Lemma step_paintable (st : State) (a : Action) :
  paintable st -> paintable (step st a).
Proof.
  intros Hst. pose proof Hst as [Hc Hcur].
  destruct a as [page e|page e|page e|page e|inside|next|on|next|next| |force|change];
    cbn [step].
  - unfold pointerdown.
    destruct (negb (pointerEvents st)); [exact Hst|].
    destruct (erasing (tools st)); split; cbn [cell gesture current].
    + now apply renderable_erase.
    + exact Hcur.
    + now apply renderable_redraw.
    + intros stroke [= <-]. discriminate.
  - unfold pointermove.
    destruct (erasingActive (gesture st)).
    + split; cbn [cell gesture current];
        [now apply renderable_erase|exact Hcur].
    + destruct (down (gesture st)); [|exact Hst].
      destruct (current (gesture st)) as [drawn|] eqn:E; [|exact Hst].
      split; cbn [cell gesture current]; [now apply renderable_redraw|].
      intros stroke [= <-]. now apply pushPoint_points, Hcur.
  - unfold pointerup. destruct (erasingActive (gesture st)) eqn:Ea.
    + unfold finishErasing. rewrite Ea. cbn [negb]. now split.
    + now apply commit_paintable.
  - unfold pointercancel. destruct (erasingActive (gesture st)) eqn:Ea.
    + unfold finishErasing. rewrite Ea. cbn [negb]. now split.
    + now apply commit_paintable.
  - unfold pointerGuard.
    destruct (active st); [|exact Hst].
    destruct inside; [exact Hst|now split].
  - now split.
  - split; cbn [setEraser cell gesture current]; [exact Hc|].
    destruct on; [discriminate|exact Hcur].
  - now split.
  - now split.
  - unfold clearStrokes. split; cbn [cell gesture current].
    + apply renderable_redraw, renderable_write; [exact Hc|constructor].
    + exact Hcur.
  - now split.
  - split; cbn [onMetadataChanged cell gesture current];
      [now apply renderable_notified|exact Hcur].
Qed.

Lemma run_paintable (actions : list Action) :
  forall st, paintable st -> paintable (run actions st).
Proof.
  unfold run.
  induction actions as [|a actions IH]; intros st Hst; [exact Hst|].
  cbn [fold_left]. now apply IH, step_paintable.
Qed.

End PaintFacts.

(** X15: when every stroke stored in a cell has a points array, whatever
    is done with the overlay afterwards (drawing, erasing, clearing,
    switching tools, notifications) every stored stroke and the stroke in
    progress still have one, so a repaint never throws. *)
Theorem X15_repaint_never_throws
  (c : Overlay.Cell) (actions : list Session.Action) (env : Renderer.Env) :
  Repaint.renderable c ->
  let st := Session.run actions (Session.initial c) in
  Repaint.renderable (Session.cell st)
  /\ (exists drawings,
         Repaint.redraw env (Session.cell st)
           (Session.current (Session.gesture st)) = Some drawings
         /\ List.length drawings
            = (List.length
                 (Overlay.strokesOf (Overlay.readMeta (Session.cell st)))
               + match Session.current (Session.gesture st) with
                 | Some _ => 1
                 | None => 0
                 end)%nat).
Proof.
  intros Hc st.
  assert (Hst : Session.paintable st).
  { apply PaintFacts.run_paintable. split; [exact Hc|discriminate]. }
  split; [exact (proj1 Hst)|].
  destruct Hst as [Hcell Hcur]. unfold Repaint.redraw.
  set (cur := Session.current (Session.gesture st)) in *.
  assert (Hall : Forall (fun s => Stroke.points s <> None)
                   (Overlay.strokesOf (Overlay.readMeta (Session.cell st))
                    ++ match cur with Some stroke => [stroke] | None => [] end)).
  { apply Forall_app. split; [exact Hcell|].
    destruct cur; constructor; auto. }
  assert (Hlen : List.length
                   (Overlay.strokesOf (Overlay.readMeta (Session.cell st))
                    ++ match cur with Some stroke => [stroke] | None => [] end)
                 = (List.length
                      (Overlay.strokesOf (Overlay.readMeta (Session.cell st)))
                    + match cur with Some _ => 1 | None => 0 end)%nat).
  { rewrite length_app. now destruct cur. }
  rewrite <- Hlen. clear Hlen.
  induction Hall as [|s l Hs Hl IH]; cbn [Repaint.drawAll].
  - now exists [].
  - unfold Renderer.drawStroke.
    destruct (Stroke.points s); [|contradiction].
    destruct IH as (drawings & -> & Hlen).
    eexists. split; [reflexivity|]. cbn [List.length]. now rewrite Hlen.
Qed.

Lemma X15_repaint_never_throws_witness :
  Repaint.renderable
    (Session.cell
       (Session.run
          [ Session.Toggle None;
            Session.PointerDown Scenarios.page (Scenarios.press 110 70);
            Session.PointerMove Scenarios.page (Scenarios.press 120 80);
            Session.SetEraser true;
            Session.PointerDown Scenarios.page (Scenarios.press 10 70) ]
          (Session.initial Examples.cell))).
Proof.
  refine (proj1 (X15_repaint_never_throws Examples.cell _ Examples.page _)).
  repeat constructor; discriminate.
Defined.

Module EraseGesture.

Import Session.

Lemma last_cons {A : Type} (l : list A) (a d : A) :
  last (a :: l) d = last l a.
Proof.
  revert a d. induction l as [|b l IH]; intros a d; [reflexivity|].
  change (last (a :: b :: l) d) with (last (b :: l) d).
  now rewrite (IH b d), (IH b a).
Qed.

(** A drag while the eraser is active erases along the contacts, each
    sweep starting where the one before ended. *)
Lemma drag_erases (moves : list (Page * PointerEvent)) :
  forall st,
    erasingActive (gesture st) = true ->
    paintable st ->
    cell (drag moves st)
    = fold_left (fun c ev => Overlay.eraseWithPointer (fst ev) (snd ev) c)
        (sweeps (lastErasePoint (gesture st)) (contacts moves)) (cell st)
    /\ gesture (drag moves st)
       = mkGesture (down (gesture st)) (current (gesture st)) true
           (erasingPointerId (gesture st))
           (last (map Some (contacts moves)) (lastErasePoint (gesture st)))
    /\ tools (drag moves st) = tools st
    /\ pointerEvents (drag moves st) = pointerEvents st
    /\ active (drag moves st) = active st
    /\ captured (drag moves st) = captured st.
Proof.
  unfold drag, contacts.
  induction moves as [|m moves IH]; intros st Hea Hst.
  - cbn. destruct st as [c ts [dn cur ea eid lep] pe act cap].
    cbn in *. subst. auto 6.
  - cbn [fold_left map sweeps].
    set (p := toNorm (fst m) (snd m)).
    set (st1 := pointermove (fst m) (snd m) st).
    assert (E1 : st1 = mkState
                         (Overlay.eraseWithPointer p
                            (lastErasePoint (gesture st)) (cell st))
                         (tools st)
                         (mkGesture (down (gesture st)) (current (gesture st))
                            true (erasingPointerId (gesture st)) (Some p))
                         (pointerEvents st) (active st) (captured st)).
    { subst st1. unfold pointermove. rewrite Hea. fold p.
      now rewrite (PaintFacts.paintable_erases (fst m) p st Hst). }
    assert (Hst1 : paintable st1).
    { exact (PaintFacts.step_paintable st (PointerMove (fst m) (snd m)) Hst). }
    destruct (IH st1) as (C & G & T & P & A & Cap);
      [rewrite E1; reflexivity|exact Hst1|].
    rewrite C, G, T, P, A, Cap, E1.
    cbn [cell gesture tools pointerEvents active captured down current
         erasingPointerId lastErasePoint fst snd].
    rewrite last_cons. auto 6.
Qed.

End EraseGesture.

(** X14: an erase gesture (press, moves, release, with the eraser selected
    on a cell whose strokes all have points) applies one erase event per
    contact, the first sweeping from the point the eraser last stood at (none
    when no gesture was under way) and each later one from the contact
    before it; the release changes no stroke, forgets the last contact and
    releases the pointer. *)
Theorem X14_erase_gesture_sweeps_contact_to_contact
  (st : Session.State) (page0 : Session.Page) (e0 : Session.PointerEvent)
  (moves : list (Session.Page * Session.PointerEvent))
  (pageU : Session.Page) (eU : Session.PointerEvent) :
  Session.pointerEvents st = true ->
  Session.erasing (Session.tools st) = true ->
  Session.paintable st ->
  let pts := Session.toNorm page0 e0 :: Session.contacts moves in
  let dragged := Session.drag moves (Session.pointerdown page0 e0 st) in
  let after := Session.pointerup pageU eU dragged in
  Session.cell dragged
  = fold_left (fun c ev => Overlay.eraseWithPointer (fst ev) (snd ev) c)
      (Session.sweeps (Session.lastErasePoint (Session.gesture st)) pts)
      (Session.cell st)
  /\ Session.lastErasePoint (Session.gesture dragged)
     = Some (last (Session.contacts moves) (Session.toNorm page0 e0))
  /\ Session.erasingActive (Session.gesture dragged) = true
  /\ Session.cell after = Session.cell dragged
  /\ Session.erasingActive (Session.gesture after) = false
  /\ Session.lastErasePoint (Session.gesture after) = None
  /\ Session.hasPointerCapture (Session.pointerId eU)
       (Session.captured after) = false.
Proof.
  intros Hpe Her Hst pts dragged after.
  set (p0 := Session.toNorm page0 e0) in *.
  set (st0 := Session.pointerdown page0 e0 st) in *.
  assert (E0 : st0 = Session.mkState
                       (Overlay.eraseWithPointer p0
                          (Session.lastErasePoint (Session.gesture st))
                          (Session.cell st))
                       (Session.tools st)
                       (Session.mkGesture
                          (Session.down (Session.gesture st))
                          (Session.current (Session.gesture st))
                          true (Some (Session.pointerId e0)) (Some p0))
                       (Session.pointerEvents st) (Session.active st)
                       (Session.setPointerCapture (Session.pointerId e0)
                          (Session.captured st))).
  { subst st0. unfold Session.pointerdown. rewrite Hpe, Her. cbn [negb].
    fold p0. now rewrite (PaintFacts.paintable_erases page0 p0 st Hst). }
  assert (Hst0 : Session.paintable st0).
  { exact (PaintFacts.step_paintable st (Session.PointerDown page0 e0) Hst). }
  destruct (EraseGesture.drag_erases moves st0) as (C & G & T & P & A & Cap);
    [rewrite E0; reflexivity|exact Hst0|].
  fold dragged in C, G, T, P, A, Cap.
  assert (Hlast : Session.lastErasePoint (Session.gesture dragged)
                  = Some (last (Session.contacts moves) p0)).
  { rewrite G, E0. cbn [Session.lastErasePoint Session.gesture].
    generalize p0. clear.
    induction (Session.contacts moves) as [|q l IH]; intros p;
      [reflexivity|].
    cbn [map]. rewrite !EraseGesture.last_cons. apply IH. }
  assert (Hea : Session.erasingActive (Session.gesture dragged) = true)
    by now rewrite G.
  split; [rewrite C, E0; reflexivity|].
  split; [exact Hlast|]. split; [exact Hea|].
  subst after. unfold Session.pointerup, Session.finishErasing.
  rewrite Hea. cbn [negb Session.cell Session.gesture Session.erasingActive
                    Session.lastErasePoint Session.captured].
  do 3 (split; [reflexivity|]).
  destruct (Session.hasPointerCapture (Session.pointerId eU)
              (Session.captured dragged)) eqn:Hc; [|exact Hc].
  unfold Session.hasPointerCapture, Session.releasePointerCapture.
  apply not_true_is_false. intros H.
  apply existsb_exists in H as (x & Hx & Heq).
  apply filter_In in Hx as [_ Hx]. now rewrite Heq in Hx.
Qed.

Lemma X14_erase_gesture_sweeps_contact_to_contact_witness :
  Session.erasingActive
    (Session.gesture
       (Session.pointerup Scenarios.page (Scenarios.press 10 70)
          (Session.drag [(Scenarios.page, Scenarios.press 10 70)]
             (Session.pointerdown Scenarios.page (Scenarios.press 10 60)
                Scenarios.erasingStraight))))
  = false.
Proof.
  refine (proj1 (proj2 (proj2 (proj2 (proj2
            (X14_erase_gesture_sweeps_contact_to_contact
               Scenarios.erasingStraight Scenarios.page (Scenarios.press 10 60)
               [(Scenarios.page, Scenarios.press 10 70)]
               Scenarios.page (Scenarios.press 10 70)
               eq_refl eq_refl _)))))).
  split; [repeat constructor; discriminate|discriminate].
Defined.

Module CaptureFacts.

Import Session.

Lemma captured_after_set (id : Z) (ids : list Z) :
  hasPointerCapture id (setPointerCapture id ids) = true.
Proof.
  unfold setPointerCapture.
  destruct (hasPointerCapture id ids) eqn:E; [exact E|].
  unfold hasPointerCapture. cbn [existsb]. now rewrite Z.eqb_refl.
Qed.

End CaptureFacts.

(** X16: when the stored collection holds a stroke without a points array,
    a stroke drawn with the pointer is still stored, but the repaint that
    closes the commit throws before the pointer is released: the canvas
    keeps the capture taken at the press, and every later repaint
    throws. *)
Theorem X16_unpaintable_collection_keeps_the_capture
  (st : Session.State) (page0 : Session.Page) (e0 : Session.PointerEvent)
  (moves : list (Session.Page * Session.PointerEvent))
  (pageU : Session.Page) (eU : Session.PointerEvent) :
  Session.pointerEvents st = true ->
  Session.erasing (Session.tools st) = false ->
  Overlay.settable (Session.cell st) = true ->
  ~ Repaint.renderable (Session.cell st) ->
  let after :=
    Session.pointerup pageU eU
      (Session.drag moves (Session.pointerdown page0 e0 st)) in
  Session.captured after
  = Session.setPointerCapture (Session.pointerId e0) (Session.captured st)
  /\ Session.hasPointerCapture (Session.pointerId e0)
       (Session.captured after) = true
  /\ List.length
       (Overlay.strokesOf (Overlay.readMeta (Session.cell after)))
     = S (List.length
            (Overlay.strokesOf (Overlay.readMeta (Session.cell st))))
  /\ Session.current (Session.gesture after) = None
  /\ (forall env, Repaint.redraw env (Session.cell after) None = None).
Proof.
  intros Hpe Her Hset Hbad after.
  set (begun := Renderer.beginStroke (Session.env page0)
                  (Session.tool (Session.tools st))
                  (Session.widthNorm (Session.tools st))
                  (Session.color (Session.tools st))
                  (Session.toNorm page0 e0)).
  set (st0 := Session.pointerdown page0 e0 st).
  assert (E0 : st0 = Session.mkState (Overlay.redraw (Session.cell st))
                       (Session.tools st)
                       (Session.mkGesture true (Some begun) false None None)
                       (Session.pointerEvents st) (Session.active st)
                       (Session.setPointerCapture (Session.pointerId e0)
                          (Session.captured st))).
  { subst st0. unfold Session.pointerdown. rewrite Hpe, Her. reflexivity. }
  destruct (DrawFacts.drag_draws moves st0 begun)
    as (G & T & P & A & C & M & S & Tr); try (rewrite E0; reflexivity).
  set (st1 := Session.drag moves st0) in *.
  set (drawn := fold_left (fun k p => Session.pushPoint p k)
                  (Session.contacts moves) begun) in *.
  assert (Hmeta : Overlay.readMeta (Session.cell st1)
                  = Overlay.readMeta (Session.cell st)).
  { unfold Overlay.readMeta. rewrite M, E0. reflexivity. }
  assert (Hset1 : Overlay.settable (Session.cell st1) = true).
  { rewrite S, E0. exact Hset. }
  assert (Hcap : Session.captured st1
                 = Session.setPointerCapture (Session.pointerId e0)
                     (Session.captured st)).
  { rewrite C, E0. reflexivity. }
  assert (Hthrows : forall page cur,
             Session.paints page
               (Overlay.writeMeta
                  {| strokes :=
                       Some (Overlay.strokesOf
                               (Overlay.readMeta (Session.cell st))
                             ++ [Session.anchor pageU drawn]);
                     others := others (Overlay.readMeta (Session.cell st)) |}
                  (Session.cell st1)) cur = false).
  { intros page cur. apply not_true_is_false. intros Hp.
    apply DrawFacts.paints_iff in Hp. apply Forall_app in Hp as [Hp _].
    unfold Overlay.writeMeta in Hp. rewrite Hset1 in Hp.
    cbn [Overlay.readMeta Overlay.metadata Overlay.strokesOf strokes] in Hp.
    apply Forall_app in Hp as [Hp _]. exact (Hbad Hp). }
  assert (Eafter : after
                   = Session.commitStroke pageU (Some (Session.pointerId eU)) st1).
  { subst after. unfold Session.pointerup. fold st0. fold st1. now rewrite G. }
  rewrite Eafter. unfold Session.commitStroke. rewrite G.
  cbn [Session.down Session.current Session.cell Session.gesture
       Session.captured].
  rewrite Hmeta, Hthrows, Hcap.
  split; [reflexivity|]. split; [apply CaptureFacts.captured_after_set|].
  split.
  - unfold Overlay.writeMeta. rewrite Hset1.
    cbn [Overlay.redraw Overlay.readMeta Overlay.metadata Overlay.strokesOf
         strokes].
    rewrite length_app. cbn [List.length]. now rewrite Nat.add_1_r.
  - split; [reflexivity|]. intros env.
    pose proof (Hthrows (Session.mkPage (Session.canvasRect pageU) env None
                           (fun _ _ => None)) None) as Hp.
    unfold Session.paints in Hp. cbn [Session.env] in Hp.
    change (Repaint.redraw env (Overlay.redraw ?c) None)
      with (Repaint.redraw env c None).
    now destruct (Repaint.redraw env _ None).
Qed.

Lemma X16_unpaintable_collection_keeps_the_capture_witness :
  Session.hasPointerCapture 1
    (Session.captured
       (Session.pointerup Scenarios.page (Scenarios.press 120 80)
          (Session.drag [(Scenarios.page, Scenarios.press 120 80)]
             (Session.pointerdown Scenarios.page (Scenarios.press 110 70)
                Scenarios.broken))))
  = true.
Proof.
  refine (proj1 (proj2
            (X16_unpaintable_collection_keeps_the_capture
               Scenarios.broken Scenarios.page (Scenarios.press 110 70)
               [(Scenarios.page, Scenarios.press 120 80)]
               Scenarios.page (Scenarios.press 120 80)
               eq_refl eq_refl eq_refl _))).
  intros H. inversion H as [|s l Hs Hl]. now apply Hs.
Defined.

Module StoreFacts.

Import Synchronizer.

Lemma isObject_content (v : JSValue) : isObject (content v) = isObject v.
Proof. now destruct v. Qed.

Lemma isObject_same_content (v w : JSValue) :
  content v = content w -> isObject v = isObject w.
Proof.
  intros E. now rewrite <- (isObject_content v), E, isObject_content.
Qed.

Lemma entries_setMetadata (key : string) (payload : JSValue)
      (m : Store.ModelState) :
  Store.entries (Store.setMetadata key payload m) key = payload
  /\ forall other, other <> key ->
       Store.entries (Store.setMetadata key payload m) other
       = Store.entries m other.
Proof.
  unfold Store.setMetadata. cbn [Store.entries]. split.
  - now rewrite String.eqb_refl.
  - intros other Hne. now rewrite (proj2 (String.eqb_neq other key) Hne).
Qed.

End StoreFacts.

(** X17: an overlay written with writeMeta and read back with readMeta
    from the model that took it (the shared model when there is one, the
    cell model otherwise, offering both getMetadata and setMetadata) has
    the content of what was written.  With a working structuredClone the
    stored payload shares no object with the value handed in, the value read
    shares none with the stored payload, and the entries under every other
    key stay as they were. *)
Theorem X17_written_overlay_reads_back
  (clone : Synchronizer.JSValue -> option Synchronizer.JSValue)
  (JSON_parse_stringify : Synchronizer.JSValue -> option Synchronizer.JSValue)
  (nextId : nat) (value payload copy : Synchronizer.JSValue)
  (c : Store.CellState) :
  (forall v w,
      clone v = Some w ->
      Synchronizer.content w = Synchronizer.content v
      /\ forall id, In id (Synchronizer.ids w) -> ~ In id (Synchronizer.ids v)) ->
  clone value = Some payload ->
  clone payload = Some copy ->
  Synchronizer.isObject value = true ->
  match Store.sharedState c with
  | Some shared => Store.offersSet shared && Store.offersGet shared
  | None =>
      Store.offersSet (Store.modelState c)
      && Store.offersGet (Store.modelState c)
  end = true ->
  let written :=
    Store.writeMeta (Some clone) JSON_parse_stringify value c in
  let read :=
    Synchronizer.readMeta (Some clone) JSON_parse_stringify nextId
      (Store.ref written) in
  read = copy
  /\ Synchronizer.content read = Synchronizer.content value
  /\ (forall id, In id (Synchronizer.ids read) ->
                 ~ In id (Synchronizer.ids payload))
  /\ (forall id, In id (Synchronizer.ids payload) ->
                 ~ In id (Synchronizer.ids value))
  /\ (forall key,
         key <> META_KEY ->
         Store.entries (Store.modelState written) key
         = Store.entries (Store.modelState c) key
         /\ option_map (fun m => Store.entries m key)
              (Store.sharedState written)
            = option_map (fun m => Store.entries m key)
                (Store.sharedState c)).
Proof.
  intros Hclone Hpay Hcopy Hobj Hoffers written read.
  destruct (Hclone value payload Hpay) as [Cpay Fpay].
  destruct (Hclone payload copy Hcopy) as [Ccopy Fcopy].
  assert (Hobj' : Synchronizer.isObject payload = true).
  { now rewrite (StoreFacts.isObject_same_content payload value Cpay). }
  assert (Hread : read = copy).
  { subst read written.
    unfold Store.writeMeta, Synchronizer.cloneOverlay. rewrite Hpay.
    destruct c as [m [sh|]]; cbn [Store.sharedState Store.modelState] in *.
    - apply andb_prop in Hoffers as [Hs Hg]. rewrite Hs.
      unfold Synchronizer.readMeta, Store.ref, Store.view.
      cbn [Store.sharedState Store.modelState option_map
           Synchronizer.sharedModel Synchronizer.model
           Synchronizer.getMetadata Store.setMetadata Store.offersGet
           Store.entries].
      rewrite Hg. cbn [Synchronizer.getMetadata].
      rewrite String.eqb_refl, Hobj'.
      unfold Synchronizer.cloneOverlay. now rewrite Hcopy.
    - apply andb_prop in Hoffers as [Hs Hg]. rewrite Hs.
      unfold Synchronizer.readMeta, Store.ref, Store.view.
      cbn [Store.sharedState Store.modelState option_map
           Synchronizer.sharedModel Synchronizer.model
           Synchronizer.getMetadata Store.setMetadata Store.offersGet
           Store.entries].
      rewrite Hg. cbn [Synchronizer.getMetadata].
      rewrite String.eqb_refl, Hobj'.
      unfold Synchronizer.cloneOverlay. now rewrite Hcopy. }
  split; [exact Hread|]. split; [now rewrite Hread, Ccopy|].
  split; [now rewrite Hread|]. split; [exact Fpay|].
  intros key Hkey. subst written.
  unfold Store.writeMeta.
  destruct c as [m [sh|]]; cbn [Store.sharedState Store.modelState] in *.
  - apply andb_prop in Hoffers as [Hs Hg]. rewrite Hs.
    cbn [Store.sharedState Store.modelState option_map].
    split; [reflexivity|]. f_equal.
    now apply StoreFacts.entries_setMetadata.
  - apply andb_prop in Hoffers as [Hs Hg]. rewrite Hs.
    cbn [Store.sharedState Store.modelState option_map].
    split; [|reflexivity]. now apply StoreFacts.entries_setMetadata.
Qed.

Lemma X17_written_overlay_reads_back_witness :
  Synchronizer.content
    (Synchronizer.readMeta (Some Synchronizer.hostStructuredClone)
       Synchronizer.hostJSON 40
       (Store.ref
          (Store.writeMeta (Some Synchronizer.hostStructuredClone)
             Synchronizer.hostJSON Examples.storedOverlay Scenarios.store)))
  = Synchronizer.content Examples.storedOverlay.
Proof.
  refine (proj1 (proj2
            (X17_written_overlay_reads_back
               Synchronizer.hostStructuredClone Synchronizer.hostJSON 40
               Examples.storedOverlay _ _ Scenarios.store
               SynchronizerFacts.hostStructuredClone_contract
               eq_refl eq_refl eq_refl eq_refl))).
Defined.

Module ScaleFacts.

Lemma or_else_one_positive (x : float) :
  (x <? 0) = false -> (0 <? JS.or_else x 1) = true.
Proof.
  intros Hneg. unfold JS.or_else, JS.truthy.
  destruct (x =? 0) eqn:Ez; cbn [negb andb]; [reflexivity|].
  destruct (is_nan x) eqn:En; cbn [negb]; [reflexivity|].
  now apply FloatNaN.positive_cases.
Qed.

(** The line width of a stroke whose width is missing: NaN for an
    [undefined] width, [0 * actualWidth] for a [null] one. *)
Lemma lineWidth_of_missing_width (env : Renderer.Env) (s : Stroke.t) :
  (Stroke.width s = JS.Undefined ->
   is_nan (Renderer.lineWidthOf env s) = true)
  /\ (Stroke.width s = JS.Null ->
      Renderer.lineWidthOf env s = 0 * Renderer.basisWidth env s).
Proof.
  unfold Renderer.lineWidthOf, Renderer.actualWidth. split; intros ->.
  - now apply FloatNaN.mul_nan_l.
  - reflexivity.
Qed.

End ScaleFacts.

(** X18: on a canvas whose client size is not negative, the width and the
    height drawStroke scales a stroke by are greater than zero, hence never
    zero, negative or NaN, whatever the stroke's basis holds (nothing,
    zero, a negative number or NaN).  They can be infinite, when the basis
    holds an infinite size. *)
Theorem X18_drawing_scale_is_positive (env : Renderer.Env) (s : Stroke.t) :
  (Renderer.clientWidth env <? 0) = false ->
  (Renderer.clientHeight env <? 0) = false ->
  let scaleX := Renderer.basisWidth env s in
  let scaleY := Renderer.basisHeight env s in
  ((0 <? scaleX) = true /\ (scaleX =? 0) = false /\ is_nan scaleX = false)
  /\ ((0 <? scaleY) = true /\ (scaleY =? 0) = false /\ is_nan scaleY = false).
Proof.
  intros Hw Hh scaleX scaleY.
  assert (Hpos : forall x, (0 <? x) = true ->
                           (0 <? x) = true /\ (x =? 0) = false
                           /\ is_nan x = false).
  { intros x Hx. split; [exact Hx|].
    pose proof (positive_truthy x Hx) as Ht. unfold JS.truthy in Ht.
    apply andb_prop in Ht as [Hz Hn].
    split; [now apply negb_true_iff in Hz|now apply negb_true_iff in Hn]. }
  pose proof (ScaleFacts.or_else_one_positive _ Hw) as HW.
  pose proof (ScaleFacts.or_else_one_positive _ Hh) as HH.
  split; apply Hpos; subst scaleX scaleY;
    unfold Renderer.basisWidth, Renderer.basisHeight, Renderer.W, Renderer.H;
    destruct (Stroke.basis s) as [b|]; try assumption.
  - destruct (JS.truthy (StrokeBasis.width b)); cbn [andb]; [|exact HW].
    now destruct (0 <? StrokeBasis.width b) eqn:E.
  - destruct (JS.truthy (StrokeBasis.height b)); cbn [andb]; [|exact HH].
    now destruct (0 <? StrokeBasis.height b) eqn:E.
Qed.

Lemma X18_drawing_scale_is_positive_witness :
  (0 <? Renderer.basisWidth Examples.page Examples.straight) = true
  /\ (0 <? Renderer.basisHeight Examples.page Examples.straight) = true.
Proof.
  destruct (X18_drawing_scale_is_positive Examples.page Examples.straight
              eq_refl eq_refl) as [[Hx _] [Hy _]].
  split; assumption.
Defined.
